(** * Build-type configuration: validation and loading

    A shallow embedding of [development/lib/build-config.ts] and of the
    part of its type file that carries code.  The schema of the source is
    written with the combinators of the superstruct library; the first
    modules model the JavaScript values the validator walks over and the
    library's [Struct] machinery ([run], [validate], [is] and the
    combinators the source imports), the module [BuildConfig] follows the
    source declaration by declaration, and the last part states and
    proves the properties of the specification. *)

From Stdlib Require Import String Ascii List ZArith Bool Arith Lia.
From Stdlib Require Import DecimalNat DecimalString.
Import ListNotations.
Local Open Scope string_scope.
Local Open Scope list_scope.
Set Warnings "-register-all".

(** ** JavaScript values *)

Module JS.

(** The decoded tree handed to the validator: what [yaml.load] produces
    with [json: true], plus [undefined].  An object is the list of its own
    enumerable properties in [Object.keys] order.  A number is an integer
    that a double holds exactly and [String] prints digit by digit, below
    [2 ^ 53] in absolute value; the other numbers are not modelled.  A
    string is the sequence of its characters, each a byte here. *)
Inductive value : Type :=
| VUndefined
| VNull
| VBool (b : bool)
| VNum (n : Z)
| VStr (s : string)
| VArr (xs : list value)
| VObj (fields : list (string * value)).

Definition dquote : string := String (ascii_of_nat 34) EmptyString.

Definition string_of_nat (n : nat) : string :=
  NilZero.string_of_uint (Nat.to_uint n).

Definition string_of_Z (z : Z) : string :=
  NilZero.string_of_int (Z.to_int z).

(** [typeof v === 'string'] *)
Definition is_string (v : value) : bool :=
  match v with VStr _ => true | _ => false end.

(** [Array.isArray(v)] *)
Definition is_array (v : value) : bool :=
  match v with VArr _ => true | _ => false end.

(** The index properties of an array, keyed by the decimal index. *)
Fixpoint indexed_from (n : nat) (xs : list value) : list (string * value) :=
  match xs with
  | [] => []
  | x :: r => (string_of_nat n, x) :: indexed_from (S n) r
  end.

Definition indexed (xs : list value) : list (string * value) :=
  indexed_from 0 xs.

(** The own enumerable properties of [v] when [typeof v === 'object' && v
    != null] (superstruct's [isObject]); arrays are objects. *)
Definition own_entries (v : value) : option (list (string * value)) :=
  match v with
  | VObj fs => Some fs
  | VArr xs => Some (indexed xs)
  | _ => None
  end.

Definition isObject (v : value) : bool :=
  match own_entries v with Some _ => true | None => false end.

Fixpoint assoc (k : string) (fs : list (string * value)) : option value :=
  match fs with
  | [] => None
  | (k', x) :: r => if String.eqb k k' then Some x else assoc k r
  end.

(** [k in v] for an object or array [v]. *)
Definition has_key (v : value) (k : string) : bool :=
  match own_entries v with
  | Some fs => match assoc k fs with Some _ => true | None => false end
  | None => false
  end.

(** [v[k]] for an object or array [v]. *)
Definition lookup (v : value) (k : string) : value :=
  match own_entries v with
  | Some fs => match assoc k fs with Some x => x | None => VUndefined end
  | None => VUndefined
  end.

(** [v.k] for a property name [k] that is neither an index nor [length]:
    a [TypeError] ([None]) on [undefined] and [null], [undefined] on the
    other primitives. *)
Definition get (v : value) (k : string) : option value :=
  match v with
  | VUndefined | VNull => None
  | _ => Some (lookup v k)
  end.

Fixpoint assoc_set (k : string) (x : value) (fs : list (string * value))
  : list (string * value) :=
  match fs with
  | [] => [(k, x)]
  | (k', y) :: r =>
      if String.eqb k k' then (k', x) :: r else (k', y) :: assoc_set k x r
  end.

(** [v[k] = x] for an object, or for an array and one of its indices. *)
Definition assign (v : value) (k : string) (x : value) : value :=
  match v with
  | VObj fs => VObj (assoc_set k x fs)
  | VArr xs =>
      VArr (map (fun ix => if String.eqb k (fst ix) then x else snd ix)
                (indexed xs))
  | _ => v
  end.

(** [{ ...v }] *)
Definition spread (v : value) : value :=
  match own_entries v with
  | Some fs => VObj fs
  | None => VObj []
  end.

(** [Object.keys(v)]: a [TypeError] on [undefined] and [null]; the indices
    of a string; nothing for a number or a boolean. *)
Definition keys (v : value) : option (list string) :=
  match v with
  | VUndefined | VNull => None
  | VStr s => Some (map string_of_nat (seq 0 (String.length s)))
  | _ => match own_entries v with
         | Some fs => Some (map fst fs)
         | None => Some []
         end
  end.

(** [Object.values(v)], like [Object.keys(v)]. *)
Definition values (v : value) : option (list value) :=
  match v with
  | VUndefined | VNull => None
  | VStr s => Some (map (fun c => VStr (String c EmptyString))
                        (list_ascii_of_string s))
  | _ => match own_entries v with
         | Some fs => Some (map snd fs)
         | None => Some []
         end
  end.

(** SameValueZero, which [Set] and [Array.prototype.includes] use, and
    [===] away from [NaN]: primitives compare by value, and two objects of
    the decoded tree are never the same object. *)
Definition same_value (a b : value) : bool :=
  match a, b with
  | VUndefined, VUndefined => true
  | VNull, VNull => true
  | VBool x, VBool y => Bool.eqb x y
  | VNum x, VNum y => Z.eqb x y
  | VStr x, VStr y => String.eqb x y
  | _, _ => false
  end.

Definition includes (xs : list value) (x : value) : bool :=
  existsb (fun y => same_value y x) xs.

(** [String(v)], which a template literal applies to a substitution. *)
Fixpoint to_string (v : value) : string :=
  match v with
  | VUndefined => "undefined"
  | VNull => "null"
  | VBool true => "true"
  | VBool false => "false"
  | VNum n => string_of_Z n
  | VStr s => s
  | VArr xs =>
      (fix join (l : list value) : string :=
         match l with
         | [] => EmptyString
         | x :: r =>
             let e := match x with
                      | VUndefined | VNull => EmptyString
                      | _ => to_string x
                      end in
             match r with
             | [] => e
             | _ :: _ => (e ++ "," ++ join r)%string
             end
         end) xs
  | VObj _ => "[object Object]"
  end.

(** The values a [for (const x of v)] loop visits: the elements of an
    array, the characters of a string, a [TypeError] for anything else. *)
Definition iterate (v : value) : option (list value) :=
  match v with
  | VArr xs => Some xs
  | VStr s => Some (map (fun c => VStr (String c EmptyString))
                        (list_ascii_of_string s))
  | _ => None
  end.

End JS.
Import JS.

(** ** The superstruct library

    The schema of the source is built from superstruct's combinators.  This
    module models the library (its 1.x line): a [Struct] is a record of a
    coercer, a validator, an [entries] function giving the children to
    descend into and a refiner, and [run] is the one traversal that drives
    them.  A JavaScript exception is a computation without result. *)

Module Superstruct.

Record Failure : Type := mkFailure {
  message : string;
  path : list string;
  refinement : option string
}.

(** A JavaScript generator of failures: what it yields before it
    finishes with a value, or before it throws ([None]). *)
Definition gen (A : Type) : Type := (list Failure * option A)%type.

Definition ret {A} (a : A) : gen A := ([], Some a).
Definition throw {A} : gen A := ([], None).
Definition bind {A B} (m : gen A) (k : A -> gen B) : gen B :=
  match m with
  | (fs, None) => (fs, None)
  | (fs, Some a) => let '(fs', r) := k a in (fs ++ fs', r)
  end.
Definition yield_all (fs : list Failure) : gen unit := (fs, Some tt).
Definition lift {A} (o : option A) : gen A := ([], o).

Notation "x <- m ;; k" := (bind m (fun x => k))
  (at level 61, m at next level, right associativity).
Notation "' pat <- m ;; k" := (bind m (fun x => match x with pat => k end))
  (at level 61, pat pattern, m at next level, right associativity).

Inductive status : Type := valid | not_refined | not_valid.

Inductive Struct : Type := mkStruct {
  type : string;
  coercer : value -> option value;
  validator : value -> list string -> option (list Failure);
  entries : value -> list (string * value * Struct);
  refiner : value -> list string -> gen unit
}.

(** [status = failure.refinement != null ? 'not_refined' : 'not_valid'],
    once for every failure a child yields. *)
Definition child_status (st : status) (fs : list Failure) : status :=
  fold_left (fun _ f => match refinement f with
                        | Some _ => not_refined
                        | None => not_valid
                        end) fs st.

(** [if (v !== undefined || k in value) value[k] = v] *)
Definition store (cur : value) (k : string) (x : value) : value :=
  match x with
  | VUndefined => if has_key cur k then assign cur k x else cur
  | _ => assign cur k x
  end.

(** What [run] keeps of a child that came back with [st'] and [x']. *)
Definition write_back (co : bool) (st' : status) (cur : value) (k : string)
    (x' : value) : value :=
  match st' with
  | valid => if co then store cur k x' else cur
  | _ => cur
  end.

(** [run(value, struct, { path, coerce })]: coerce, validate, descend into
    the entries (writing each coerced child back), refine unless the value
    is not valid, and yield the value when nothing failed. *)
Fixpoint run (s : Struct) (co : bool) (v : value) (p : list string)
  {struct s} : gen (status * value) :=
  v1 <- lift (if co then coercer s v else Some v) ;;
  vf <- lift (validator s v1 p) ;;
  _ <- yield_all vf ;;
  ' (st, cur) <-
    (fix children (es : list (string * value * Struct)) (st : status)
         (cur : value) {struct es} : gen (status * value) :=
       match es with
       | [] => ret (st, cur)
       | (k, x, s') :: es' =>
           match run s' co x (p ++ [k]) with
           | (fs, None) => (fs, None)
           | (fs, Some (st', x')) =>
               _ <- yield_all fs ;;
               children es' (child_status st fs) (write_back co st' cur k x')
           end
       end) (entries s v1)
            (match vf with [] => valid | _ :: _ => not_valid end) v1 ;;
  match st with
  | not_valid => ret (not_valid, cur)
  | _ =>
      match refiner s cur p with
      | (rf, None) => (rf, None)
      | (rf, Some _) =>
          _ <- yield_all rf ;;
          ret (match rf with [] => st | _ :: _ => not_refined end, cur)
      end
  end.

(** The two loops of [run] on their own: the one over the entries and the
    refinement step. *)
Definition run_children (co : bool) (p : list string)
  : list (string * value * Struct) -> status -> value -> gen (status * value) :=
  fix children (es : list (string * value * Struct)) (st : status)
      (cur : value) {struct es} : gen (status * value) :=
    match es with
    | [] => ret (st, cur)
    | (k, x, s') :: es' =>
        match run s' co x (p ++ [k]) with
        | (fs, None) => (fs, None)
        | (fs, Some (st', x')) =>
            _ <- yield_all fs ;;
            children es' (child_status st fs) (write_back co st' cur k x')
        end
    end.

Definition run_refiner (s : Struct) (st : status) (cur : value)
    (p : list string) : gen (status * value) :=
  match st with
  | not_valid => ret (not_valid, cur)
  | _ =>
      match refiner s cur p with
      | (rf, None) => (rf, None)
      | (rf, Some _) =>
          _ <- yield_all rf ;;
          ret (match rf with [] => st | _ :: _ => not_refined end, cur)
      end
  end.

(** A struct without its refiner: the validation of the value and of
    everything below it that comes before the struct's own refinement. *)
Definition fields_of (s : Struct) : Struct :=
  mkStruct (type s) (coercer s) (validator s) (entries s) (fun _ _ => ret tt).

(** The outcome of [validate(value, struct, options)].  The error holds
    the failures lazily: [failures] forces them, and throws when the
    traversal throws after its first failure. *)
Inductive Validated : Type :=
| Valid (v : value)
| Invalid (failures : gen unit)
| Thrown.

Definition validate (v : value) (s : Struct) (co : bool) : Validated :=
  match run s co v [] with
  | ([], Some (valid, v')) => Valid v'
  | ([], _) => Thrown
  | (f :: fs, Some _) => Invalid (f :: fs, Some tt)
  | (f :: fs, None) => Invalid (f :: fs, None)
  end.

(** [is(value, struct)] ([is] is reserved here) only looks at the first
    tuple of the traversal. *)
Definition is_ (v : value) (s : Struct) : option bool :=
  match validate v s false with
  | Valid _ => Some true
  | Invalid _ => Some false
  | Thrown => None
  end.

(** [JSON.stringify] of a string: the quotation mark and the reverse
    solidus are escaped, and so are the control characters, five of them
    by a letter and the others by their code in four hexadecimal
    digits. *)
Definition backslash : string := String (ascii_of_nat 92) EmptyString.

Definition hex_digit (n : nat) : string :=
  String (nth n (list_ascii_of_string "0123456789abcdef") "0"%char)
    EmptyString.

Definition escape_char (c : ascii) : string :=
  let n := nat_of_ascii c in
  if Nat.eqb n 34 then backslash ++ dquote
  else if Nat.eqb n 92 then backslash ++ backslash
  else if Nat.eqb n 8 then backslash ++ "b"
  else if Nat.eqb n 9 then backslash ++ "t"
  else if Nat.eqb n 10 then backslash ++ "n"
  else if Nat.eqb n 12 then backslash ++ "f"
  else if Nat.eqb n 13 then backslash ++ "r"
  else if Nat.ltb n 32 then
    backslash ++ "u00" ++ hex_digit (n / 16) ++ hex_digit (n mod 16)
  else String c EmptyString.

Fixpoint escape (s : string) : string :=
  match s with
  | EmptyString => EmptyString
  | String c r => escape_char c ++ escape r
  end.

(** [print(value)], used in the library's own messages: [JSON.stringify]
    for a string, [String] otherwise. *)
Definition print (v : value) : string :=
  match v with
  | VStr s => (dquote ++ escape s ++ dquote)%string
  | _ => to_string v
  end.

Definition fail_here (p : list string) (msg : string) : Failure :=
  mkFailure msg p None.

(** The default message of a failure without one. *)
Definition expected (ty : string) (v : value) : string :=
  ("Expected a value of type `" ++ ty ++ "`, but received: `" ++ print v ++ "`")%string.

(** [define(name, validator)]: a struct with a validator only. *)
Definition define (name : string) (check : value -> option string) : Struct :=
  mkStruct name
    (fun v => Some v)
    (fun v p => Some (match check v with
                      | None => []
                      | Some msg => [fail_here p msg]
                      end))
    (fun _ => [])
    (fun _ _ => ret tt).

Definition any : Struct := define "any" (fun _ => None).
Definition unknown : Struct := define "unknown" (fun _ => None).
Definition never : Struct := define "never" (fun v => Some (expected "never" v)).

(** [string()]; the name [string] is the type of strings here. *)
Definition string_ : Struct :=
  define "string" (fun v =>
    if is_string v then None
    else Some ("Expected a string, but received: " ++ print v)%string).

Definition boolean : Struct :=
  define "boolean" (fun v =>
    match v with
    | VBool _ => None
    | _ => Some (expected "boolean" v)
    end).

(** [literal(constant)] for a primitive constant. *)
Definition literal (c : value) : Struct :=
  define "literal" (fun v =>
    if same_value v c then None
    else Some ("Expected the literal `" ++ print c ++ "`, but received: "
               ++ print v)%string).

Definition array (Element : Struct) : Struct :=
  mkStruct "array"
    (fun v => Some v)
    (fun v p => Some (if is_array v then []
                      else [fail_here p ("Expected an array value, but received: "
                                         ++ print v)%string]))
    (fun v => match v with
              | VArr xs => map (fun kx => (fst kx, snd kx, Element)) (indexed xs)
              | _ => []
              end)
    (fun _ _ => ret tt).

Definition object_validator (v : value) (p : list string) : option (list Failure) :=
  Some (if isObject v then []
        else [fail_here p ("Expected an object, but received: " ++ print v)%string]).

(** [object(schema)]: the known keys in schema order, then the keys of the
    value the schema does not have, each against [never]. *)
Definition object (schema : list (string * Struct)) : Struct :=
  mkStruct "object"
    (fun v => Some (if isObject v then spread v else v))
    object_validator
    (fun v => match own_entries v with
              | Some fs =>
                  map (fun ks => (fst ks, lookup v (fst ks), snd ks)) schema
                  ++ map (fun kx => (fst kx, snd kx, never))
                       (filter (fun kx => negb (existsb (String.eqb (fst kx))
                                                  (map fst schema))) fs)
              | None => []
              end)
    (fun _ _ => ret tt).

(** [record(Key, Value)]: every own key against [Key], then its value
    against [Value]. *)
Definition record (Key Value : Struct) : Struct :=
  mkStruct "record"
    (fun v => Some v)
    object_validator
    (fun v => match own_entries v with
              | Some fs =>
                  flat_map (fun kx => [(fst kx, VStr (fst kx), Key);
                                       (fst kx, snd kx, Value)]) fs
              | None => []
              end)
    (fun _ _ => ret tt).

(** [optional(struct)] and [nullable(struct)] keep the coercer and the
    entries and short-cut the validator and the refiner. *)
Definition optional (s : Struct) : Struct :=
  mkStruct (type s) (coercer s)
    (fun v p => match v with VUndefined => Some [] | _ => validator s v p end)
    (entries s)
    (fun v p => match v with VUndefined => ret tt | _ => refiner s v p end).

(** [optional] handed what may be no struct at all.  It spreads its
    argument, which gives no property for [undefined], so the struct has
    the defaults for the coercer and the entries; its validator and its
    refiner read [struct.validator] and [struct.refiner] unless the value
    is [undefined], a [TypeError] when [struct] is [undefined]. *)
Definition optional_of (s : option Struct) : Struct :=
  match s with
  | Some s => optional s
  | None =>
      mkStruct "undefined"
        (fun v => Some v)
        (fun v _ => match v with VUndefined => Some [] | _ => None end)
        (fun _ => [])
        (fun v _ => match v with VUndefined => ret tt | _ => throw end)
  end.

Definition nullable (s : Struct) : Struct :=
  mkStruct (type s) (coercer s)
    (fun v p => match v with VNull => Some [] | _ => validator s v p end)
    (entries s)
    (fun v p => match v with VNull => ret tt | _ => refiner s v p end).

(** [coerce(struct, condition, coercer)] *)
Definition coerce (s condition : Struct) (f : value -> option value) : Struct :=
  mkStruct (type s)
    (fun v => match is_ v condition with
              | None => None
              | Some true => match f v with
                             | Some v' => coercer s v'
                             | None => None
                             end
              | Some false => coercer s v
              end)
    (validator s) (entries s) (refiner s).

(** What a refiner function hands back: the messages it returns or
    yields, and whether it finished ([None] when it throws). *)
Definition refined : Type := (list string * option unit)%type.

(** [refine(struct, name, refiner)] *)
Definition refine (s : Struct) (name : string)
    (f : value -> list string -> refined) : Struct :=
  mkStruct (type s) (coercer s) (validator s) (entries s)
    (fun v p =>
       _ <- refiner s v p ;;
       (map (fun msg => mkFailure msg p (Some name)) (fst (f v p)), snd (f v p))).

Fixpoint first_valid (Structs : list Struct) (v : value) : option value :=
  match Structs with
  | [] => Some v
  | St :: rest =>
      match validate v St true with
      | Valid v' => Some v'
      | Invalid _ => first_valid rest v
      | Thrown => None
      end
  end.

Fixpoint union_failures (Structs : list Struct) (v : value) (p : list string)
  : option (option (list Failure)) :=
  match Structs with
  | [] => Some (Some [])
  | St :: rest =>
      match run St false v p with
      | (_, None) => None
      | ([], Some (valid, _)) => Some None
      | ([], Some _) => None
      | (fs, Some _) =>
          match union_failures rest v p with
          | Some (Some fs') => Some (Some (fs ++ fs'))
          | r => r
          end
      end
  end.

Definition join_types (Structs : list Struct) : string :=
  String.concat " | " (map type Structs).

(** [union(Structs)]: the coercion of the first member that validates the
    value; valid when a member validates the coerced value, and the
    failures of all members otherwise. *)
Definition union (Structs : list Struct) : Struct :=
  mkStruct "union"
    (first_valid Structs)
    (fun v p =>
       match union_failures Structs v p with
       | None => None
       | Some None => Some []
       | Some (Some fs) =>
           Some (fail_here p ("Expected the value to satisfy a union of `"
                              ++ join_types Structs ++ "`, but received: "
                              ++ print v)%string :: fs)
       end)
    (fun _ => [])
    (fun _ _ => ret tt).

End Superstruct.

(** ** The schema of [build-config.ts] *)

Module BuildConfig.
Import Superstruct.

(** lodash's [uniqWith(array, comparator)]: an element is dropped when
    the comparator, called with it and an element kept before, says they
    are equal; without comparator the elements are compared as [_.uniq]
    does. *)
Definition comparator : Type := value -> value -> option bool.

Fixpoint includes_with (eq : comparator) (seen : list value) (x : value)
  : option bool :=
  match seen with
  | [] => Some false
  | y :: r =>
      match eq x y with
      | None => None
      | Some true => Some true
      | Some false => includes_with eq r x
      end
  end.

Fixpoint uniq_onto (eq : comparator) (seen xs : list value)
  : option (list value) :=
  match xs with
  | [] => Some seen
  | x :: r =>
      match includes_with eq seen x with
      | None => None
      | Some true => uniq_onto eq seen r
      | Some false => uniq_onto eq (seen ++ [x]) r
      end
  end.

Definition uniqWith (xs : list value) (eq : option comparator)
  : option (list value) :=
  uniq_onto (match eq with
             | Some f => f
             | None => fun a b => Some (same_value a b)
             end) [] xs.

Definition duplicated : string := "Array contains duplicated values".

(** [unique(struct, eq)].  The refiner only ever sees what the array
    validator accepted; on anything else the two lengths differ. *)
Definition unique (struct : Struct) (eq : option comparator) : Struct :=
  refine struct "unique" (fun value _ =>
    match value with
    | VArr xs =>
        match uniqWith xs eq with
        | None => ([], None)
        | Some u =>
            if Nat.eqb (length u) (length xs) then ([], Some tt)
            else ([duplicated], Some tt)
        end
    | _ => ([duplicated], Some tt)
    end).

Definition one_property : string :=
  "Declaration should have only one property, the name".

Definition EnvDefinitionStruct : Struct :=
  coerce
    (object [("key", string_); ("value", unknown)])
    (refine (record string_ any) "Env variable declaration" (fun value _ =>
       match keys value with
       | None => ([], None)
       | Some ks =>
           if Nat.eqb (length ks) 1 then ([], Some tt) else ([one_property], Some tt)
       end))
    (fun value =>
       match keys value, values value with
       | Some ks, Some vs =>
           Some (VObj [("key", nth 0 (map VStr ks) VUndefined);
                       ("value", nth 0 vs VUndefined)])
       | _, _ => None
       end).

(** [typeof a === 'string' ? a : a.key] *)
Definition key_of (a : value) : option value :=
  if is_string a then Some a else get a "key".

Definition same_key : comparator := fun a b =>
  match key_of a with
  | None => None
  | Some keyA =>
      match key_of b with
      | None => None
      | Some keyB => Some (same_value keyA keyB)
      end
  end.

Definition EnvArrayStruct : Struct :=
  unique (array (union [string_; EnvDefinitionStruct])) (Some same_key).

Definition BuildTypeStruct : Struct :=
  object [
    ("features", optional (unique (array string_) None));
    ("env", optional EnvArrayStruct);
    ("isPrerelease", optional boolean);
    ("manifestOverrides", union [string_; literal (VBool false)]);
    ("buildNameOverride", union [string_; literal (VBool false)])
  ].

Definition ExclusiveIncludeAssetStruct : Struct :=
  coerce
    (object [("exclusiveInclude", string_)])
    string_
    (fun exclusiveInclude => Some (VObj [("exclusiveInclude", exclusiveInclude)])).

(** [AssetStruct] is imported from the type file, which declares a type
    of this name and no value, as the source itself does further down:
    when the module runs, the name is bound to [undefined]. *)
Definition AssetStruct : option Struct := None.

Definition FeatureStruct : Struct :=
  object [
    ("env", optional EnvArrayStruct);
    ("assets", optional_of AssetStruct)
  ].

Definition conflict (env : value) : string :=
  ("Multiple defined features have a definition of " ++ dquote
   ++ to_string env ++ dquote ++ " env variable, resulting in a conflict")%string.

(** The inner loop of the feature check: [definitions] is the set of
    keys seen so far, a list without repetition here. *)
Fixpoint scan_env (envs : list value) (definitions : list value)
  : list string * option (list value) :=
  match envs with
  | [] => ([], Some definitions)
  | env :: rest =>
      if is_string env then scan_env rest definitions
      else
        match get env "key" with
        | None => ([], None)
        | Some k =>
            let '(msgs, r) :=
              scan_env rest (if includes definitions k then definitions
                             else definitions ++ [k]) in
            ((if includes definitions k then [conflict env] else []) ++ msgs, r)
        end
  end.

(** [feature?.env ?? []], as the values the loop visits. *)
Definition env_of (feature : value) : option (list value) :=
  match feature with
  | VUndefined | VNull => Some []
  | _ =>
      match lookup feature "env" with
      | VUndefined | VNull => Some []
      | e => iterate e
      end
  end.

Fixpoint scan_features (features : list value) (definitions : list value)
  : list string * option (list value) :=
  match features with
  | [] => ([], Some definitions)
  | feature :: rest =>
      match env_of feature with
      | None => ([], None)
      | Some envs =>
          match scan_env envs definitions with
          | (msgs, None) => (msgs, None)
          | (msgs, Some definitions') =>
              let '(msgs', r) := scan_features rest definitions' in
              (msgs ++ msgs', r)
          end
      end
  end.

(** The generator given to [refine] in [FeaturesStruct]; the boolean it
    returns is not looked at by the library. *)
Definition feature_definitions (value : value) (_ : list string) : refined :=
  match values value with
  | None => ([], None)
  | Some fs =>
      match scan_features fs [] with
      | (msgs, Some _) => (msgs, Some tt)
      | (msgs, None) => (msgs, None)
      end
  end.

Definition FeaturesStruct : Struct :=
  refine
    (record string_
       (coerce FeatureStruct (nullable never) (fun _ => Some (VObj []))))
    "feature definitions"
    feature_definitions.

Definition no_default (d : value) : string :=
  ("Default build type " ++ dquote ++ to_string d ++ dquote
   ++ " does not exist in builds declarations")%string.

Definition default_exists (value : value) (_ : list string) : refined :=
  match get value "buildTypes" with
  | None => ([], None)
  | Some bt =>
      match keys bt with
      | None => ([], None)
      | Some ks =>
          if includes (map VStr ks) (lookup value "default") then ([], Some tt)
          else ([no_default (lookup value "default")], Some tt)
      end
  end.

Definition BuildTypesStruct : Struct :=
  refine
    (object [
       ("default", string_);
       ("buildTypes", record string_ BuildTypeStruct);
       ("features", FeaturesStruct);
       ("env", EnvArrayStruct)
     ])
    "BuildTypes"
    default_exists.

End BuildConfig.

(** ** Loading [builds.yml] *)

Module Loader.
Import Superstruct BuildConfig.

Definition newline : string := String (ascii_of_nat 10) EmptyString.

(** [constructFailureMessage(structError)]; forcing the failures throws
    when the traversal behind them does. *)
Definition constructFailureMessage (BUILDS_YML_PATH : string)
    (failures : gen unit) : option string :=
  match failures with
  | (fs, Some _) =>
      Some ("Failed to parse builds.yml" ++ newline ++ "  -> "
            ++ String.concat (newline ++ "  -> ")
                 (map (fun failure =>
                         message failure ++ " (" ++ BUILDS_YML_PATH ++ ":."
                         ++ String.concat "/" (path failure) ++ ")") fs)
            ++ newline)%string
  | (_, None) => None
  end.

(** The objects the loader hands out are told apart by their location in
    the heap, which holds the objects that outlive a call: the tree
    [yaml.load] builds and the value [validate] returns each get one
    when the call returns.  [cachedBuildTypes] is [null] ([None]) or a
    reference to such an object; [reads] counts the calls of
    [fs.readFileSync]. *)
Definition loc : Type := nat.

Record process : Type := mkProcess {
  cachedBuildTypes : option loc;
  heap : list value;
  reads : nat
}.

(** [let cachedBuildTypes = null], before any call. *)
Definition start : process := mkProcess None [] 0.

Definition alloc (v : value) (st : process) : loc * process :=
  (length (heap st),
   mkProcess (cachedBuildTypes st) (heap st ++ [v]) (reads st)).

Definition deref (st : process) (r : loc) : option value :=
  nth_error (heap st) r.

(** What a successful validation leaves of the decoded tree.  [object()]
    and [array()] coerce to a copy, so the document, its build types,
    its features and the sequences are validated on copies; [record()]
    has no coercer, and the loop of [run] writes each validated build
    type and feature into the very objects the tree holds under
    [buildTypes] and [features], which the validated document [result]
    holds as well. *)
Definition written_in_place (tree result : value) : value :=
  assign (assign tree "buildTypes" (lookup result "buildTypes"))
    "features" (lookup result "features").

(** [import AssertionError from 'assert'] binds the name to the default
    export of the module, the function [assert(value, message)] itself.
    [new AssertionError({ message })] so calls [assert] on an object,
    which is truthy: the assertion passes, and the [new] expression
    yields the fresh object, which has no property; the message is not
    in it. *)
Definition new_AssertionError (options : value) : value := VObj [].

(** How a call ends: it returns an object, it throws the value it made
    itself, or another exception passes through it. *)
Inductive completion : Type :=
| Returned (r : loc)
| Threw (thrown : value)
| OtherError.

(** [loadBuildTypesConfig()].  [file] is what [yaml.load] makes of the
    file at the time of the call, [None] when reading or parsing it
    throws. *)
Definition loadBuildTypesConfig (BUILDS_YML_PATH : string)
    (file : option value) (st : process) : completion * process :=
  match cachedBuildTypes st with
  | Some cached => (Returned cached, st)
  | None =>
      let st := mkProcess (cachedBuildTypes st) (heap st) (S (reads st)) in
      match file with
      | None => (OtherError, st)
      | Some tree =>
          match validate tree BuildTypesStruct true with
          | Thrown => (OtherError, st)
          | Invalid err =>
              match constructFailureMessage BUILDS_YML_PATH err with
              | Some message =>
                  (Threw (new_AssertionError (VObj [("message", VStr message)])),
                   st)
              | None => (OtherError, st)
              end
          | Valid result =>
              let '(buildsData, st) := alloc (written_in_place tree result) st in
              let '(result, st) := alloc result st in
              (Returned buildsData,
               mkProcess (Some result) (heap st) (reads st))
          end
      end
  end.

End Loader.

(** ** Notions used by the statements *)

Module Notions.
Import Superstruct BuildConfig Loader.

(** The elements [xs] of an array at [p], from index [n] on, all run
    valid against [E], with results [ys]. *)
Inductive elements_valid (E : Struct) (co : bool) (p : list string)
  : nat -> list value -> list value -> Prop :=
| elements_nil n : elements_valid E co p n [] []
| elements_cons n x y xs ys :
    run E co x (p ++ [string_of_nat n]) = ([], Some (valid, y)) ->
    elements_valid E co p (S n) xs ys ->
    elements_valid E co p n (x :: xs) (y :: ys).

(** [p] is a prefix of [q]. *)
Fixpoint prefixb (p q : list string) : bool :=
  match p, q with
  | [], _ => true
  | a :: p', b :: q' => String.eqb a b && prefixb p' q'
  | _ :: _, [] => false
  end.

(** The failure [f] lies at [p] or below it. *)
Definition below (p : list string) (f : Failure) : bool := prefixb p (path f).

(** The failures at or below [p]. *)
Definition under (p : list string) (fs : list Failure) : list Failure :=
  filter (below p) fs.

(** Every failure of a run of [s] lies at or below the path of the run. *)
Definition paths_below (s : Struct) : Prop :=
  forall co v p f, In f (fst (run s co v p)) -> below p f = true.

(** What the children yield as long as none throws. *)
Definition child_failures (co : bool) (p : list string)
    (e : string * value * Struct) : list Failure :=
  fst (run (snd e) co (snd (fst e)) (p ++ [fst (fst e)])).

(** The value under the path [p] of a document. *)
Fixpoint at_path (v : value) (p : list string) : value :=
  match p with
  | [] => v
  | k :: r => at_path (lookup v k) r
  end.

(** The env sequences of a document: the global one, the one of a build
    type and the one of a feature, with their paths.  The maps of build
    types and of features are objects, with distinct property names. *)
Inductive env_sequence (raw : value) : list string -> list value -> Prop :=
| global_env xs :
    lookup raw "env" = VArr xs ->
    env_sequence raw ["env"] xs
| build_type_env bts name bt xs :
    lookup raw "buildTypes" = VObj bts -> NoDup (map fst bts) ->
    assoc name bts = Some bt -> lookup bt "env" = VArr xs ->
    env_sequence raw ["buildTypes"; name; "env"] xs
| feature_env fts name ft xs :
    lookup raw "features" = VObj fts -> NoDup (map fst fts) ->
    assoc name fts = Some ft -> lookup ft "env" = VArr xs ->
    env_sequence raw ["features"; name; "env"] xs.

(** The entries [object(schema)] yields for a value with own properties
    [fs]: the known keys, then the unknown ones. *)
Definition known_entries (v : value) (schema : list (string * Struct))
  : list (string * value * Struct) :=
  map (fun ks => (fst ks, lookup v (fst ks), snd ks)) schema.

Definition unknown_fields (schema : list (string * Struct))
    (fs : list (string * value)) : list (string * value) :=
  filter (fun kx => negb (existsb (String.eqb (fst kx)) (map fst schema))) fs.

Definition never_entries (us : list (string * value))
  : list (string * value * Struct) :=
  map (fun kx => (fst kx, snd kx, never)) us.

(** The entries [record(Key, Value)] yields. *)
Definition record_entries (Key Value : Struct) (fs : list (string * value))
  : list (string * value * Struct) :=
  flat_map (fun kx => [(fst kx, VStr (fst kx), Key); (fst kx, snd kx, Value)]) fs.

(** The values [fs] of a record at [p] all run valid against [Value],
    with results [ys]. *)
Definition values_valid (Value : Struct) (co : bool) (p : list string)
    (fs : list (string * value)) (ys : list value) : Prop :=
  Forall2 (fun kx y => run Value co (snd kx) (p ++ [fst kx])
                       = ([], Some (valid, y))) fs ys.

(** The struct of one element of an env sequence. *)
Definition EnvEntry : Struct := union [string_; EnvDefinitionStruct].

(** The schema of an env entry in object form. *)
Definition entry_schema : list (string * Struct) :=
  [("key", string_); ("value", unknown)].

(** An env entry already in canonical form: an object with exactly the
    properties [key], a string, and [value]. *)
Definition canonical_entry (x : value) : bool :=
  match x with
  | VObj [(a, u); (b, w)] =>
      (String.eqb a "key" && String.eqb b "value" && is_string u)
      || (String.eqb a "value" && String.eqb b "key" && is_string w)
  | _ => false
  end.

(** What the object schema of an entry accepts: [key] is a string and
    there is no other property than [key] and [value]. *)
Definition accepted_entry (x : value) : bool :=
  match x with
  | VObj fs =>
      is_string (lookup x "key")
      && match unknown_fields entry_schema fs with
         | [] => true
         | _ :: _ => false
         end
  | _ => false
  end.

(** The failure of a union of [string()] and an object struct on an
    object that is no valid entry. *)
Definition not_an_entry (x : value) (p : list string) : list Failure :=
  fail_here p ("Expected the value to satisfy a union of `string | object`, "
               ++ "but received: " ++ print x)%string
  :: fail_here p ("Expected a string, but received: " ++ print x)%string
  :: fst (run (object entry_schema) false x p).

(** The key an entry of an env sequence declares: a bare string is its
    own key, an object with one property declares the name of that
    property, a canonical entry its [key]. *)
Definition declared_key (x : value) : option string :=
  match x with
  | VStr s => Some s
  | VObj [(k, _)] => Some k
  | VObj _ =>
      if canonical_entry x then
        match lookup x "key" with VStr k => Some k | _ => None end
      else None
  | _ => None
  end.

(** What validation makes of such an entry. *)
Definition normal_entry (x : value) : value :=
  match x with
  | VObj [(k, v)] => VObj [("key", VStr k); ("value", v)]
  | _ => x
  end.

(** The entries [xs] of an env sequence declare the keys [ks]. *)
Definition declare (xs : list value) (ks : list string) : Prop :=
  Forall2 (fun x k => declared_key x = Some k) xs ks.

(** The normalized entries [ys] carry the keys [ks]. *)
Definition keyed (ys : list value) (ks : list string) : Prop :=
  Forall2 (fun y k => key_of y = Some (VStr k)) ys ks.

(** [uniq_onto] on the keys alone. *)
Fixpoint uniq_keys (seen ks : list string) : list string :=
  match ks with
  | [] => seen
  | k :: r =>
      if existsb (String.eqb k) seen then uniq_keys seen r
      else uniq_keys (seen ++ [k]) r
  end.

(** The failure of the uniqueness refinement at [p]. *)
Definition duplicated_at (p : list string) : Failure :=
  mkFailure duplicated p (Some "unique").

(** The two canonical forms of an asset. *)
Definition exclusive_include (path : string) : value :=
  VObj [("exclusiveInclude", VStr path)].

Definition copy_asset (src dest : string) : value :=
  VObj [("src", VStr src); ("dest", VStr dest)].

(** The assets a feature can be given in its three forms. *)
Inductive asset_form : value -> Prop :=
| bare_asset path : asset_form (VStr path)
| exclusive_asset path : asset_form (exclusive_include path)
| copy_rule src dest : asset_form (copy_asset src dest).

(** A normalized entry of an env sequence: a bare string, or an object
    whose [key] is a string. *)
Definition entry_like (e : value) : Prop :=
  is_string e = true \/ exists k, get e "key" = Some (VStr k).

(** A normalized feature: its env is absent or a sequence of normalized
    entries, [es] here. *)
Definition feature_like (f : value) (es : list value) : Prop :=
  env_of f = Some es /\ Forall entry_like es.

(** The keys of the entries in object form, in order. *)
Definition object_keys (es : list value) : list value :=
  flat_map (fun e => if is_string e then [] else [lookup e "key"]) es.

(** How many of the keys [ks] are in [seen] or occur earlier in [ks]. *)
Fixpoint repeated (seen ks : list value) : nat :=
  match ks with
  | [] => 0
  | k :: r =>
      if includes seen k then S (repeated seen r)
      else repeated (seen ++ [k]) r
  end.

(** *** Canonical documents *)

(** The properties [fs] of an object all have one of the [allowed]
    names. *)
Definition only_keys (allowed : list string) (fs : list (string * value))
  : Prop :=
  Forall (fun kx => In (fst kx) allowed) fs.

(** An optional field is absent, or as [P] wants it. *)
Definition absent_or (P : value -> Prop) (v : value) : Prop :=
  v = VUndefined \/ P v.

(** An env sequence in canonical form: every entry is a [{key, value}]
    object, and the keys are pairwise distinct. *)
Definition canonical_env (v : value) : Prop :=
  exists xs ks,
    v = VArr xs /\ Forall (fun x => canonical_entry x = true) xs
    /\ declare xs ks /\ NoDup ks.

(** A path, or [false]. *)
Definition override (v : value) : Prop :=
  (exists path, v = VStr path) \/ v = VBool false.

Definition canonical_build_type (bt : value) : Prop :=
  exists fs,
    bt = VObj fs
    /\ only_keys ["features"; "env"; "isPrerelease"; "manifestOverrides";
                  "buildNameOverride"] fs
    /\ absent_or (fun v => exists names, v = VArr (map VStr names)
                                         /\ NoDup names)
         (lookup bt "features")
    /\ absent_or canonical_env (lookup bt "env")
    /\ absent_or (fun v => exists b, v = VBool b) (lookup bt "isPrerelease")
    /\ override (lookup bt "manifestOverrides")
    /\ override (lookup bt "buildNameOverride").

(** An asset in canonical form: an exclusive-include rule or a copy
    rule. *)
Definition canonical_asset (x : value) : Prop :=
  (exists path, x = exclusive_include path)
  \/ (exists src dest, x = copy_asset src dest)
  \/ (exists src dest, x = VObj [("dest", VStr dest); ("src", VStr src)]).

Definition canonical_feature (ft : value) : Prop :=
  exists fs,
    ft = VObj fs
    /\ only_keys ["env"; "assets"] fs
    /\ absent_or canonical_env (lookup ft "env")
    /\ absent_or canonical_asset (lookup ft "assets").

(** The env entries of a canonical feature. *)
Definition feature_entries (ft : value) : list value :=
  match lookup ft "env" with
  | VArr xs => xs
  | _ => []
  end.

(** A [BuildTypesDocument] in canonical form: the four fields and nothing
    else, every build type and feature canonical, the default naming a
    build type, and no env key declared twice among all the features. *)
Definition canonical_document (raw : value) : Prop :=
  exists fs d bts fts,
    raw = VObj fs
    /\ only_keys ["default"; "buildTypes"; "features"; "env"] fs
    /\ lookup raw "default" = VStr d
    /\ lookup raw "buildTypes" = VObj bts
    /\ NoDup (map fst bts)
    /\ Forall (fun kx => canonical_build_type (snd kx)) bts
    /\ In d (map fst bts)
    /\ lookup raw "features" = VObj fts
    /\ NoDup (map fst fts)
    /\ Forall (fun kx => canonical_feature (snd kx)) fts
    /\ (exists ks, declare (flat_map feature_entries (map snd fts)) ks
                   /\ NoDup ks)
    /\ canonical_env (lookup raw "env").

(** No feature of the document has assets. *)
Definition no_assets (raw : value) : Prop :=
  forall fts, lookup raw "features" = VObj fts ->
              Forall (fun kx => lookup (snd kx) "assets" = VUndefined) fts.

(** A small valid document and the same document with a default that
    names no build type. *)
Definition a_build_type : value :=
  VObj [("manifestOverrides", VBool false); ("buildNameOverride", VBool false)].

Definition a_document (default : string) (env : list value) : value :=
  VObj [("default", VStr default);
        ("buildTypes", VObj [("stable", a_build_type)]);
        ("features", VObj []);
        ("env", VArr env)].

(** A document with one feature, [a], that has the assets [assets] and
    nothing else. *)
Definition a_document_with_assets (assets : value) (env : list value) : value :=
  VObj [("default", VStr "stable");
        ("buildTypes", VObj [("stable", a_build_type)]);
        ("features", VObj [("a", VObj [("assets", assets)])]);
        ("env", VArr env)].

End Notions.

(** ** Callers of the loader and shapes of documents *)

Module Uses.
Import Superstruct BuildConfig Loader Notions.

(** A caller that calls [loadBuildTypesConfig()] once for every element
    of [files], going on after a call that throws; each element is what
    the file holds at the time of that call. *)
Fixpoint load_all (BUILDS_YML_PATH : string) (files : list (option value))
    (st : process) : list completion * process :=
  match files with
  | [] => ([], st)
  | file :: rest =>
      let '(c, st1) := loadBuildTypesConfig BUILDS_YML_PATH file st in
      let '(cs, st2) := load_all BUILDS_YML_PATH rest st1 in
      (c :: cs, st2)
  end.

(** The calls that returned, and those that threw. *)
Definition returned (c : completion) : bool :=
  match c with Returned _ => true | _ => false end.

(** One line of the report: the message of the failure, the file and
    the path of the failure joined by [/]. *)
Definition failure_line (BUILDS_YML_PATH : string) (f : Failure) : string :=
  (message f ++ " (" ++ BUILDS_YML_PATH ++ ":." ++ String.concat "/" (path f)
   ++ ")")%string.

(** The report with one arrow line for each of the failures [fs]. *)
Fixpoint arrow_lines (BUILDS_YML_PATH : string) (fs : list Failure) : string :=
  match fs with
  | [] => newline
  | f :: rest =>
      (newline ++ "  -> " ++ failure_line BUILDS_YML_PATH f
       ++ arrow_lines BUILDS_YML_PATH rest)%string
  end.

(** The shape of a build type: an object with no other properties than
    the five of [BuildTypeStruct], of which the two overrides are
    present. *)
Definition build_type_shape (bt : value) : Prop :=
  exists fs,
    bt = VObj fs
    /\ only_keys ["features"; "env"; "isPrerelease"; "manifestOverrides";
                  "buildNameOverride"] fs
    /\ absent_or (fun v => exists names, v = VArr (map VStr names)
                                         /\ NoDup names)
         (lookup bt "features")
    /\ absent_or (fun v => is_array v = true) (lookup bt "env")
    /\ absent_or (fun v => exists b, v = VBool b) (lookup bt "isPrerelease")
    /\ override (lookup bt "manifestOverrides")
    /\ override (lookup bt "buildNameOverride").

(** The shape of a feature: [null], or a value with own properties of
    which none is named otherwise than [env] and [assets], the env being
    absent or an array. *)
Definition feature_shape (ft : value) : Prop :=
  ft = VNull
  \/ exists fs,
       own_entries ft = Some fs
       /\ only_keys ["env"; "assets"] fs
       /\ absent_or (fun v => is_array v = true) (lookup ft "env").

(** The shape of a document: an object with no other properties than
    the four of [BuildTypesStruct], all four present. *)
Definition document_shape (raw : value) : Prop :=
  exists fs d,
    raw = VObj fs
    /\ only_keys ["default"; "buildTypes"; "features"; "env"] fs
    /\ lookup raw "default" = VStr d
    /\ isObject (lookup raw "buildTypes") = true
    /\ isObject (lookup raw "features") = true
    /\ is_array (lookup raw "env") = true.

(** A document with one build type, named by the default, that asks for
    the features [names], and with no feature declared at all. *)
Definition asks_for (default : string) (names : list string) : value :=
  VObj [("default", VStr default);
        ("buildTypes",
         VObj [(default,
                VObj [("features", VArr (map VStr names));
                      ("manifestOverrides", VBool false);
                      ("buildNameOverride", VBool false)])]);
        ("features", VObj []);
        ("env", VArr [])].

(** A document in which the global env, the env of the build type
    [default] and the env of the feature [feature] each declare the key
    [k], in object form. *)
Definition declared_everywhere (default feature k : string) (v1 v2 v3 : value)
  : value :=
  VObj [("default", VStr default);
        ("buildTypes",
         VObj [(default,
                VObj [("env", VArr [VObj [("key", VStr k); ("value", v1)]]);
                      ("manifestOverrides", VBool false);
                      ("buildNameOverride", VBool false)])]);
        ("features",
         VObj [(feature,
                VObj [("env", VArr [VObj [("key", VStr k); ("value", v2)]])])]);
        ("env", VArr [VObj [("key", VStr k); ("value", v3)]])].

(** What a struct returns for a valid value, it returns again when run on
    that result, at any path: its results are in normal form. *)
Definition returns_fixed (s : Struct) : Prop :=
  forall x p y q,
    run s true x p = ([], Some (valid, y)) ->
    run s true y q = ([], Some (valid, y)).


End Uses.

(** * Properties of the model *)

Import Superstruct BuildConfig Loader.

(** ** The traversal *)

Lemma run_unfold s co v p :
  run s co v p =
  (v1 <- lift (if co then coercer s v else Some v) ;;
   vf <- lift (validator s v1 p) ;;
   _ <- yield_all vf ;;
   ' (st, cur) <- run_children co p (entries s v1)
                    (match vf with [] => valid | _ :: _ => not_valid end) v1 ;;
   run_refiner s st cur p).
Proof. destruct s; reflexivity. Qed.

Lemma run_eq s co v p :
  run s co v p =
  match (if co then coercer s v else Some v) with
  | None => ([], None)
  | Some v1 =>
      match validator s v1 p with
      | None => ([], None)
      | Some vf =>
          match run_children co p (entries s v1)
                  (match vf with [] => valid | _ :: _ => not_valid end) v1 with
          | (cfs, None) => (vf ++ cfs, None)
          | (cfs, Some (st, cur)) =>
              (vf ++ cfs ++ fst (run_refiner s st cur p),
               snd (run_refiner s st cur p))
          end
      end
  end.
Proof.
  rewrite run_unfold. unfold bind, lift, yield_all.
  destruct (if co then coercer s v else Some v) as [v1|]; [|reflexivity].
  destruct (validator s v1 p) as [vf|]; [|reflexivity].
  cbn [app].
  destruct (run_children co p (entries s v1) _ v1) as [cfs [[st cur]|]];
    [|reflexivity].
  destruct (run_refiner s st cur p) as [rfs r]. reflexivity.
Qed.

Lemma child_status_cons st f fs :
  child_status st (f :: fs) =
  child_status (match refinement f with
                | Some _ => not_refined
                | None => not_valid
                end) fs.
Proof. reflexivity. Qed.

Lemma child_status_valid st fs :
  child_status st fs = valid <-> st = valid /\ fs = [].
Proof.
  split.
  - revert st. induction fs as [|f fs IH]; intros st H; [now split|].
    rewrite child_status_cons in H. apply IH in H as [H _].
    destruct (refinement f); discriminate.
  - intros [-> ->]. reflexivity.
Qed.

Lemma run_children_cons co p k x s' es st cur :
  run_children co p ((k, x, s') :: es) st cur =
  match run s' co x (p ++ [k]) with
  | (fs, None) => (fs, None)
  | (fs, Some (st', x')) =>
      (fs ++ fst (run_children co p es (child_status st fs)
                    (write_back co st' cur k x')),
       snd (run_children co p es (child_status st fs)
              (write_back co st' cur k x')))
  end.
Proof.
  cbn [run_children]. destruct (run s' co x (p ++ [k])) as [fs [[st' x']|]];
    [|reflexivity].
  unfold bind, yield_all.
  destruct (run_children co p es _ _) as [fs' r]. reflexivity.
Qed.

Lemma run_children_app co p es1 es2 st cur :
  run_children co p (es1 ++ es2) st cur =
  match run_children co p es1 st cur with
  | (fs, None) => (fs, None)
  | (fs, Some (st', cur')) =>
      (fs ++ fst (run_children co p es2 st' cur'),
       snd (run_children co p es2 st' cur'))
  end.
Proof.
  revert st cur. induction es1 as [|[[k x] s'] es1 IH]; intros st cur.
  - cbn. destruct (run_children co p es2 st cur). reflexivity.
  - rewrite <- app_comm_cons, !run_children_cons.
    destruct (run s' co x (p ++ [k])) as [fs [[st' x']|]]; [|reflexivity].
    rewrite IH.
    destruct (run_children co p es1 _ _) as [fs1 [[st1 cur1]|]]; cbn [fst snd].
    + now rewrite app_assoc.
    + reflexivity.
Qed.

(** The status the loop over the entries ends with is [valid] exactly
    when it started so and no child failed. *)
Lemma run_children_status co p es st cur fs st' cur' :
  run_children co p es st cur = (fs, Some (st', cur')) ->
  (st' = valid <-> st = valid /\ fs = []) /\ (fs = [] -> st' = st).
Proof.
  revert st cur fs. induction es as [|[[k x] s'] es IH]; intros st cur fs.
  - cbn. intros [= <- <- <-]. tauto.
  - rewrite run_children_cons.
    destruct (run s' co x (p ++ [k])) as [fs1 [[st1 x1]|]]; [|discriminate].
    destruct (run_children co p es _ _) as [fs2 [[st2 cur2]|]] eqn:E;
      cbn [fst snd]; [|discriminate].
    intros [= <- <- <-]. apply IH in E as [E1 E2]. split.
    + rewrite E1, child_status_valid. split.
      * intros [[-> ->] ->]. now split.
      * intros [-> H]. apply app_eq_nil in H as [-> ->]. now split.
    + intros H. apply app_eq_nil in H as [-> ->]. now apply E2.
Qed.

Lemma run_refiner_status s st cur p fs st' cur' :
  run_refiner s st cur p = (fs, Some (st', cur')) ->
  cur' = cur /\ (st' = valid <-> st = valid /\ fs = []).
Proof.
  unfold run_refiner. destruct st.
  - destruct (refiner s cur p) as [rf [u|]]; [|discriminate].
    cbn. rewrite app_nil_r. intros [= <- <- <-]. split; [reflexivity|].
    destruct rf; split; try tauto; try (intros [_ ?]; discriminate);
      discriminate.
  - destruct (refiner s cur p) as [rf [u|]]; [|discriminate].
    cbn. rewrite app_nil_r. intros [= <- <- <-]. split; [reflexivity|].
    destruct rf; split; try discriminate; intros [? _]; discriminate.
  - cbn. intros [= <- <- <-]. split; [reflexivity|].
    split; [discriminate | intros [? _]; discriminate].
Qed.

(** [run] ends [valid] exactly when it yielded no failure. *)
Lemma run_status s co v p fs st r :
  run s co v p = (fs, Some (st, r)) -> (st = valid <-> fs = []).
Proof.
  rewrite run_eq.
  destruct (if co then coercer s v else Some v) as [v1|]; [|discriminate].
  destruct (validator s v1 p) as [vf|]; [|discriminate].
  destruct (run_children _ _ _ _ _) as [cfs [[st1 cur]|]] eqn:E; [|discriminate].
  destruct (run_refiner s st1 cur p) as [rfs [[st2 cur2]|]] eqn:R;
    cbn [fst snd]; [|discriminate].
  intros [= <- <- <-].
  apply run_children_status in E as [E _].
  apply run_refiner_status in R as [_ R].
  rewrite R, E. split.
  - intros [[H ->] ->]. destruct vf; [reflexivity | discriminate].
  - intros H. apply app_eq_nil in H as [-> H].
    apply app_eq_nil in H as [-> ->]. now repeat split.
Qed.

Lemma run_refiner_fields s st cur p :
  run_refiner (fields_of s) st cur p = ([], Some (st, cur)).
Proof. destruct st; reflexivity. Qed.

(** [run] is the run of the struct without its refiner, then the
    refinement step. *)
Lemma run_fields s co v p :
  run s co v p =
  match run (fields_of s) co v p with
  | (fs, None) => (fs, None)
  | (fs, Some (st, cur)) =>
      (fs ++ fst (run_refiner s st cur p), snd (run_refiner s st cur p))
  end.
Proof.
  rewrite !run_eq. cbn [fields_of coercer validator entries].
  destruct (if co then coercer s v else Some v) as [v1|]; [|reflexivity].
  destruct (validator s v1 p) as [vf|]; [|reflexivity].
  destruct (run_children _ _ _ _ _) as [cfs [[st1 cur]|]]; [|reflexivity].
  rewrite run_refiner_fields. cbn [fst snd].
  now rewrite !app_nil_r, app_assoc.
Qed.

Lemma fields_of_refine s name f : fields_of (refine s name f) = fields_of s.
Proof. reflexivity. Qed.

Lemma run_define name check co v p :
  run (define name check) co v p =
  match check v with
  | None => ([], Some (valid, v))
  | Some msg => ([fail_here p msg], Some (not_valid, v))
  end.
Proof.
  rewrite run_eq. cbn. destruct co; destruct (check v); reflexivity.
Qed.

(** ** Association lists and array indices *)

Lemma string_of_nat_inj n m : string_of_nat n = string_of_nat m -> n = m.
Proof.
  unfold string_of_nat. intros H.
  assert (N : forall k, Nat.to_uint k <> Decimal.Nil).
  { intros k E. pose proof (DecimalNat.Unsigned.of_to k) as O.
    rewrite E in O. cbn in O. subst k. discriminate. }
  apply DecimalNat.Unsigned.to_uint_inj.
  pose proof (NilZero.usu _ (N n)) as A. pose proof (NilZero.usu _ (N m)) as B.
  rewrite H in A. rewrite A in B. now injection B.
Qed.

Lemma assoc_indexed_from n xs i :
  assoc (string_of_nat (n + i)) (indexed_from n xs) = nth_error xs i.
Proof.
  revert n i. induction xs as [|x xs IH]; intros n i.
  - now destruct i.
  - cbn. destruct i as [|i].
    + rewrite Nat.add_0_r, String.eqb_refl. reflexivity.
    + destruct (String.eqb_spec (string_of_nat (n + S i)) (string_of_nat n))
        as [E|E].
      * apply string_of_nat_inj in E. lia.
      * rewrite <- Nat.add_succ_comm. apply IH.
Qed.

Lemma assoc_In k fs x : assoc k fs = Some x -> In (k, x) fs.
Proof.
  induction fs as [|[k' y] fs IH]; [discriminate|]. cbn.
  destruct (String.eqb_spec k k') as [->|E].
  - intros [= ->]. now left.
  - intros H. right. now apply IH.
Qed.

Lemma assoc_None k fs : assoc k fs = None <-> ~ In k (map fst fs).
Proof.
  induction fs as [|[k' y] fs IH]; [cbn; tauto|]. cbn.
  destruct (String.eqb_spec k k') as [->|E].
  - split; [discriminate | intros H; exfalso; apply H; now left].
  - rewrite IH. split; [intros H [A|A]; congruence | tauto].
Qed.

Lemma assoc_set_same k x fs : assoc k fs = Some x -> assoc_set k x fs = fs.
Proof.
  induction fs as [|[k' y] fs IH]; [discriminate|]. cbn.
  destruct (String.eqb_spec k k') as [->|E].
  - now intros [= ->].
  - intros H. now rewrite IH.
Qed.

Lemma assoc_assoc_set k x fs k' :
  assoc k' (assoc_set k x fs) = if String.eqb k' k then Some x else assoc k' fs.
Proof.
  induction fs as [|[k0 y] fs IH]; cbn.
  - destruct (String.eqb k' k); reflexivity.
  - destruct (String.eqb_spec k k0) as [->|E]; cbn.
    + destruct (String.eqb k' k0); reflexivity.
    + destruct (String.eqb_spec k' k0) as [->|E'].
      * destruct (String.eqb_spec k0 k); [congruence | reflexivity].
      * exact IH.
Qed.

Lemma assoc_set_app_r k x pre fs :
  ~ In k (map fst pre) ->
  assoc_set k x (pre ++ fs) = pre ++ assoc_set k x fs.
Proof.
  induction pre as [|[k0 y] pre IH]; [reflexivity|]. cbn. intros H.
  destruct (String.eqb_spec k k0) as [->|E]; [tauto|].
  rewrite IH; tauto.
Qed.

Import Notions.

Lemma map_assign_later k y n l :
  k < n ->
  map (fun ix : string * value =>
         if String.eqb (string_of_nat k) (fst ix) then y else snd ix)
      (indexed_from n l) = l.
Proof.
  revert n. induction l as [|x l IH]; intros n H; [reflexivity|]. cbn.
  destruct (String.eqb_spec (string_of_nat k) (string_of_nat n)) as [E|E].
  - apply string_of_nat_inj in E. lia.
  - now rewrite IH by lia.
Qed.

Lemma map_assign_at y pre x r n :
  map (fun ix : string * value =>
         if String.eqb (string_of_nat (n + length pre)) (fst ix) then y
         else snd ix)
      (indexed_from n (pre ++ x :: r)) = pre ++ y :: r.
Proof.
  revert n. induction pre as [|a pre IH]; intros n; cbn.
  - rewrite Nat.add_0_r, String.eqb_refl, map_assign_later by lia. reflexivity.
  - destruct (String.eqb_spec (string_of_nat (n + S (length pre)))
                (string_of_nat n)) as [E|E].
    + apply string_of_nat_inj in E. lia.
    + now rewrite <- Nat.add_succ_comm, IH.
Qed.

Lemma store_index pre x r y :
  store (VArr (pre ++ x :: r)) (string_of_nat (length pre)) y
  = VArr (pre ++ y :: r).
Proof.
  assert (A : assign (VArr (pre ++ x :: r)) (string_of_nat (length pre)) y
              = VArr (pre ++ y :: r)).
  { cbn [assign]. unfold indexed. f_equal.
    exact (map_assign_at y pre x r 0). }
  unfold store. destruct y; try exact A.
  unfold has_key. cbn [own_entries]. unfold indexed.
  pose proof (assoc_indexed_from 0 (pre ++ x :: r) (length pre)) as L.
  cbn [Nat.add] in L. rewrite L, nth_error_app2, Nat.sub_diag by lia.
  exact A.
Qed.

Lemma run_array co E p xs :
  run (array E) co (VArr xs) p =
  run_children co p (map (fun kx => (fst kx, snd kx, E)) (indexed xs)) valid
    (VArr xs).
Proof.
  rewrite run_eq. cbn [array coercer validator entries is_array].
  replace (if co then Some (VArr xs) else Some (VArr xs)) with (Some (VArr xs))
    by now destruct co.
  destruct (run_children _ _ _ _ _) as [cfs [[st cur]|]]; [|reflexivity].
  cbn [app]. destruct st; cbn; now rewrite app_nil_r.
Qed.

(** The loop over the elements of an array yields no failure exactly when
    every element runs valid; the coerced elements then replace the
    original ones. *)
Lemma array_children_valid co E p xs pre st r :
  run_children co p
    (map (fun kx => (fst kx, snd kx, E)) (indexed_from (length pre) xs))
    valid (VArr (pre ++ xs)) = ([], Some (st, r)) <->
  st = valid /\
  exists ys, elements_valid E co p (length pre) xs ys
             /\ r = VArr (pre ++ if co then ys else xs).
Proof.
  revert pre st r. induction xs as [|x xs IH]; intros pre st r.
  - cbn. split.
    + intros [= <- <-]. split; [reflexivity|]. exists []. split; [constructor|].
      now destruct co.
    + intros [-> (ys & H & ->)]. inversion H; subst. now destruct co.
  - cbn [indexed_from map fst snd]. rewrite run_children_cons. split.
    + destruct (run E co x _) as [fs [[st1 y]|]] eqn:R; [|discriminate].
      intros H. injection H as H1 H2.
      apply app_eq_nil in H1 as [-> H1].
      pose proof (proj2 (run_status _ _ _ _ _ _ _ R) eq_refl) as ->.
      cbn [child_status fold_left write_back] in *.
      destruct (run_children _ _ _ _ _) as [fs2 [[st2 r2]|]] eqn:C;
        cbn [fst snd] in *; [|discriminate].
      injection H2 as -> ->. subst fs2.
      assert (W : (if co then store (VArr (pre ++ x :: xs))
                                 (string_of_nat (length pre)) y
                   else VArr (pre ++ x :: xs))
                  = VArr ((pre ++ [if co then y else x]) ++ xs)).
      { rewrite <- app_assoc. cbn. destruct co; [apply store_index | reflexivity]. }
      rewrite W in C.
      replace (S (length pre)) with (length (pre ++ [if co then y else x])) in C
        by (rewrite length_app; cbn; lia).
      apply IH in C as [-> (ys & V & ->)]. split; [reflexivity|].
      exists (y :: ys). split.
      * constructor; [exact R|].
        rewrite length_app in V. cbn in V.
        now rewrite Nat.add_1_r in V.
      * rewrite <- app_assoc. cbn. now destruct co.
    + intros [-> (ys & V & ->)]. inversion V as [|? ? y ? ys' R V']; subst.
      rewrite R. cbn [child_status fold_left write_back app].
      assert (W : (if co then store (VArr (pre ++ x :: xs))
                                 (string_of_nat (length pre)) y
                   else VArr (pre ++ x :: xs))
                  = VArr ((pre ++ [if co then y else x]) ++ xs)).
      { rewrite <- app_assoc. cbn. destruct co; [apply store_index | reflexivity]. }
      rewrite W.
      replace (S (length pre)) with (length (pre ++ [if co then y else x])) in *
        by (rewrite length_app; cbn; lia).
      pose proof (proj2 (IH (pre ++ [if co then y else x]) valid
                    (VArr ((pre ++ [if co then y else x])
                           ++ if co then ys' else xs)))) as I.
      rewrite I.
      * cbn. rewrite <- app_assoc. cbn. now destruct co.
      * split; [reflexivity|]. exists ys'. split; [exact V' | reflexivity].
Qed.

Lemma run_array_valid co E p xs st r :
  run (array E) co (VArr xs) p = ([], Some (st, r)) <->
  st = valid /\
  exists ys, elements_valid E co p 0 xs ys /\ r = VArr (if co then ys else xs).
Proof.
  rewrite run_array. exact (array_children_valid co E p xs [] st r).
Qed.

Lemma elements_valid_length E co p n xs ys :
  elements_valid E co p n xs ys -> length ys = length xs.
Proof. induction 1; cbn; congruence. Qed.

Lemma elements_valid_nth E co p n xs ys i x :
  elements_valid E co p n xs ys -> nth_error xs i = Some x ->
  exists y, nth_error ys i = Some y
            /\ run E co x (p ++ [string_of_nat (n + i)]) = ([], Some (valid, y)).
Proof.
  intros H. revert i. induction H as [|n x0 y0 xs ys R _ IH]; intros i.
  - now destruct i.
  - destruct i as [|i]; cbn.
    + intros [= <-]. exists y0. now rewrite Nat.add_0_r.
    + intros Hx. apply IH in Hx as (y & A & B). exists y.
      now rewrite <- Nat.add_succ_comm.
Qed.

(** ** Objects and records *)

Lemma lookup_store_same c k y : lookup (store (VObj c) k y) k = y.
Proof.
  assert (A : lookup (assign (VObj c) k y) k = y).
  { unfold lookup. cbn. now rewrite assoc_assoc_set, String.eqb_refl. }
  unfold store. destruct y; try exact A.
  unfold has_key. cbn [own_entries].
  destruct (assoc k c) eqn:E; [exact A|].
  unfold lookup. cbn. now rewrite E.
Qed.

Lemma store_is_object c k y : exists c', store (VObj c) k y = VObj c'.
Proof.
  unfold store, has_key. cbn.
  destruct y; try (eexists; reflexivity).
  destruct (assoc k c); eexists; reflexivity.
Qed.

Lemma lookup_store_other c k y k' :
  k' <> k -> lookup (store (VObj c) k y) k' = lookup (VObj c) k'.
Proof.
  intros N.
  assert (A : lookup (assign (VObj c) k y) k' = lookup (VObj c) k').
  { unfold lookup. cbn. rewrite assoc_assoc_set.
    destruct (String.eqb_spec k' k); [contradiction | reflexivity]. }
  unfold store. destruct y; try exact A.
  destruct (has_key (VObj c) k); [exact A | reflexivity].
Qed.

(** Writing back what is already there changes nothing. *)
Lemma store_lookup c k : store (VObj c) k (lookup (VObj c) k) = VObj c.
Proof.
  unfold lookup, store, has_key. cbn [own_entries assign].
  destruct (assoc k c) as [x|] eqn:E.
  - destruct x; rewrite ?E; now rewrite assoc_set_same.
  - reflexivity.
Qed.

Lemma store_present pre k x r y :
  ~ In k (map fst pre) ->
  store (VObj (pre ++ (k, x) :: r)) k y = VObj (pre ++ (k, y) :: r).
Proof.
  intros N.
  assert (A : assign (VObj (pre ++ (k, x) :: r)) k y = VObj (pre ++ (k, y) :: r)).
  { cbn. rewrite assoc_set_app_r by exact N. cbn. now rewrite String.eqb_refl. }
  unfold store. destruct y; try exact A.
  unfold has_key. cbn [own_entries].
  destruct (assoc k (pre ++ (k, x) :: r)) eqn:E; [exact A|].
  apply assoc_None in E. exfalso. apply E. rewrite map_app. apply in_or_app.
  right. now left.
Qed.

Lemma run_never co v p :
  run never co v p = ([fail_here p (expected "never" v)], Some (not_valid, v)).
Proof. unfold never. now rewrite run_define. Qed.

Lemma never_children co p us st cur :
  run_children co p (never_entries us) st cur =
  (map (fun kx => fail_here (p ++ [fst kx]) (expected "never" (snd kx))) us,
   Some (match us with [] => st | _ :: _ => not_valid end, cur)).
Proof.
  revert st. induction us as [|[k x] us IH]; intros st; [reflexivity|].
  cbn [never_entries map fst snd]. rewrite run_children_cons, run_never.
  fold (never_entries us). rewrite IH. cbn. now destruct us.
Qed.

Lemma run_object_not_object co schema v p :
  own_entries v = None ->
  run (object schema) co v p =
  ([fail_here p ("Expected an object, but received: " ++ print v)%string],
   Some (not_valid, v)).
Proof.
  intros H. rewrite run_eq.
  cbn [object coercer validator entries]. unfold object_validator, isObject.
  rewrite H. replace (if co then Some v else Some v) with (Some v)
    by now destruct co.
  now rewrite H.
Qed.

(** The run of [object(schema)] on an object: the known keys, then one
    failure for every unknown key. *)
Lemma run_object co schema v p fs :
  own_entries v = Some fs ->
  run (object schema) co v p =
  match run_children co p (known_entries (if co then VObj fs else v) schema)
          valid (if co then VObj fs else v) with
  | (kfs, None) => (kfs, None)
  | (kfs, Some (st, cur)) =>
      (kfs ++ map (fun kx => fail_here (p ++ [fst kx])
                               (expected "never" (snd kx)))
                (unknown_fields schema fs),
       Some (match unknown_fields schema fs with
             | [] => st
             | _ :: _ => not_valid
             end, cur))
  end.
Proof.
  intros H. rewrite run_eq.
  cbn [object coercer validator entries]. unfold object_validator, isObject, spread.
  rewrite H.
  replace (if co then Some (VObj fs) else Some v)
    with (Some (if co then VObj fs else v)) by now destruct co.
  assert (O : own_entries (if co then VObj fs else v) = Some fs)
    by now destruct co.
  rewrite O.
  change (map (fun ks => (fst ks, lookup ?w (fst ks), snd ks)) schema)
    with (known_entries w schema).
  change (map (fun kx : string * value => (fst kx, snd kx, never))
            (filter _ fs)) with (never_entries (unknown_fields schema fs)).
  rewrite run_children_app. cbn [app].
  destruct (run_children co p (known_entries _ schema) valid _)
    as [kfs [[st cur]|]]; [|reflexivity].
  rewrite never_children. cbn [fst snd].
  destruct (unknown_fields schema fs) eqn:U; cbn [map].
  - destruct st; cbn; now rewrite !app_nil_r.
  - cbn. now rewrite app_nil_r.
Qed.

(** When the known keys all run valid, the value they are written back
    into holds, under each key, what its struct made of it. *)
Lemma known_children_valid co p v1 schema :
  NoDup (map fst schema) ->
  forall c st r,
    run_children co p (known_entries v1 schema) valid (VObj c)
    = ([], Some (st, r)) ->
    st = valid /\
    exists c', r = VObj c' /\ (co = false -> c' = c) /\
      (forall k s, In (k, s) schema ->
         exists y, run s co (lookup v1 k) (p ++ [k]) = ([], Some (valid, y))
                   /\ (co = true -> lookup (VObj c') k = y)) /\
      (forall k, ~ In k (map fst schema) ->
         lookup (VObj c') k = lookup (VObj c) k).
Proof.
  induction schema as [|[k s] schema IH]; intros N c st r.
  - cbn. intros [= <- <-]. split; [reflexivity|]. exists c.
    repeat split; try reflexivity. intros k s [].
  - cbn [known_entries map fst snd]. rewrite run_children_cons.
    inversion N as [|? ? N1 N2]; subst.
    destruct (run s co (lookup v1 k) (p ++ [k])) as [fs [[st1 y]|]] eqn:R;
      [|discriminate].
    intros H. injection H as H1 H2. apply app_eq_nil in H1 as [-> H1].
    pose proof (proj2 (run_status _ _ _ _ _ _ _ R) eq_refl) as ->.
    cbn [child_status fold_left write_back] in *.
    assert (W : exists c1, (if co then store (VObj c) k y else VObj c) = VObj c1
                /\ (co = false -> c1 = c)
                /\ (co = true -> lookup (VObj c1) k = y)
                /\ (forall k', k' <> k -> lookup (VObj c1) k' = lookup (VObj c) k')).
    { destruct co.
      - destruct (store_is_object c k y) as [c1 E]. exists c1. rewrite E.
        split; [reflexivity|]. split; [discriminate|]. split.
        + intros _. rewrite <- E. apply lookup_store_same.
        + intros k' D. rewrite <- E. now apply lookup_store_other.
      - exists c. repeat split; try reflexivity. discriminate. }
    destruct W as (c1 & W & W0 & W1 & W2). rewrite W in *.
    fold (known_entries v1 schema) in *.
    destruct (run_children co p (known_entries v1 schema) valid (VObj c1))
      as [fs2 [[st2 r2]|]] eqn:C; cbn [fst snd] in *; [|discriminate].
    injection H2 as -> ->. subst fs2.
    apply (IH N2) in C as [-> (c' & -> & I0 & I1 & I2)].
    split; [reflexivity|]. exists c'. split; [reflexivity|]. split; [|split].
    + intros E. rewrite (I0 E). now apply W0.
    + intros k' s' [[= -> ->]|I].
      * exists y. split; [exact R|]. intros E. rewrite I2 by exact N1.
        now apply W1.
      * now apply I1.
    + intros k' D. cbn in D. rewrite I2 by tauto. apply W2. intros ->. tauto.
Qed.

(** When every known key runs valid to what the value already holds, the
    value comes back as it is. *)
Lemma known_children_fixed co p v1 c schema :
  (forall k s, In (k, s) schema ->
     run s co (lookup v1 k) (p ++ [k]) = ([], Some (valid, lookup (VObj c) k))) ->
  run_children co p (known_entries v1 schema) valid (VObj c)
  = ([], Some (valid, VObj c)).
Proof.
  induction schema as [|[k s] schema IH]; intros H; [reflexivity|].
  cbn [known_entries map fst snd]. rewrite run_children_cons.
  rewrite (H k s) by now left.
  cbn [child_status fold_left write_back app].
  replace (if co then store (VObj c) k (lookup (VObj c) k) else VObj c)
    with (VObj c) by (destruct co; now rewrite ?store_lookup).
  fold (known_entries v1 schema). rewrite IH; [reflexivity|].
  intros k' s' I. apply H. now right.
Qed.

Lemma run_record co K V v p fs :
  own_entries v = Some fs ->
  run (record K V) co v p = run_children co p (record_entries K V fs) valid v.
Proof.
  intros H. rewrite run_eq.
  cbn [record coercer validator entries]. unfold object_validator, isObject.
  replace (if co then Some v else Some v) with (Some v) by now destruct co.
  rewrite H. fold (record_entries K V fs). cbn [app].
  destruct (run_children co p (record_entries K V fs) valid v)
    as [cfs [[st cur]|]]; [|reflexivity].
  destruct st; cbn; now rewrite app_nil_r.
Qed.

Lemma run_record_not_object co K V v p :
  own_entries v = None ->
  run (record K V) co v p =
  ([fail_here p ("Expected an object, but received: " ++ print v)%string],
   Some (not_valid, v)).
Proof.
  intros H. rewrite run_eq.
  cbn [record coercer validator entries]. unfold object_validator, isObject.
  replace (if co then Some v else Some v) with (Some v) by now destruct co.
  rewrite H. reflexivity.
Qed.

Lemma run_string_str co s p : run string_ co (VStr s) p = ([], Some (valid, VStr s)).
Proof. unfold string_. now rewrite run_define. Qed.

Lemma write_back_property co pre k x fs y :
  ~ In k (map fst pre) ->
  write_back co valid
    (write_back co valid (VObj (pre ++ (k, x) :: fs)) k (VStr k)) k y
  = VObj ((pre ++ [(k, if co then y else x)]) ++ fs).
Proof.
  intros Nk. rewrite <- app_assoc. cbn [app write_back].
  destruct co; [|reflexivity].
  now rewrite (store_present pre k x fs (VStr k) Nk),
              (store_present pre k (VStr k) fs y Nk).
Qed.

(** The loop over the properties of a record with string keys yields no
    failure exactly when every value runs valid; the coerced values then
    replace the original ones. *)
Lemma record_children_valid co V p fs pre st r :
  NoDup (map fst (pre ++ fs)) ->
  run_children co p (record_entries string_ V fs) valid (VObj (pre ++ fs))
  = ([], Some (st, r)) <->
  st = valid /\
  exists ys, values_valid V co p fs ys
             /\ r = VObj (pre ++ if co then combine (map fst fs) ys else fs).
Proof.
  revert pre st r. induction fs as [|[k x] fs IH]; intros pre st r N.
  - cbn. split.
    + intros [= <- <-]. split; [reflexivity|]. exists []. split; [constructor|].
      now destruct co.
    + intros [-> (ys & H & ->)]. inversion H; subst. now destruct co.
  - assert (Nk : ~ In k (map fst pre)).
    { intros I. rewrite map_app in N. cbn in N.
      apply NoDup_remove_2 in N. apply N. apply in_or_app. now left. }
    assert (N' : forall z, NoDup (map fst ((pre ++ [(k, z)]) ++ fs))).
    { intros z. rewrite <- app_assoc. cbn. rewrite map_app in *. exact N. }
    change (record_entries string_ V ((k, x) :: fs))
      with ((k, VStr k, string_) :: (k, x, V) :: record_entries string_ V fs).
    rewrite run_children_cons, run_string_str.
    cbv beta iota. cbn [child_status fold_left app].
    rewrite run_children_cons.
    destruct (run V co x (p ++ [k])) as [fs1 [[st1 y]|]] eqn:R.
    2:{ split; [discriminate|]. intros [_ (ys & Vs & _)].
        inversion Vs as [|? y ? ys' R' Vs']; subst. cbn [fst snd] in R'.
        congruence. }
    destruct (run_status _ _ _ _ _ _ _ R) as [_ S2].
    destruct fs1 as [|f fs1].
    2:{ split; [discriminate|]. intros [_ (ys & Vs & _)].
        inversion Vs as [|? y' ? ys' R' Vs']; subst. cbn [fst snd] in R'.
        congruence. }
    rewrite (S2 eq_refl) in *.
    rewrite (write_back_property co pre k x fs y Nk).
    cbn [app child_status fold_left].
    destruct (run_children co p (record_entries string_ V fs) valid _)
      as [fs2 [[st2 r2]|]] eqn:C; cbn [fst snd].
    + split.
      * intros [= -> -> ->].
        apply IH in C as [-> (ys & Vs & ->)]; [|apply N'].
        split; [reflexivity|]. exists (y :: ys). split.
        -- constructor; [exact R | exact Vs].
        -- rewrite <- app_assoc. cbn. now destruct co.
      * intros [-> (ys & Vs & ->)]. inversion Vs as [|? y' ? ys' R' Vs']; subst.
        cbn [fst snd] in R'. rewrite R' in R. injection R as <-.
        pose proof (proj2 (IH (pre ++ [(k, if co then y' else x)]) valid
                      (VObj ((pre ++ [(k, if co then y' else x)])
                             ++ if co then combine (map fst fs) ys' else fs))
                      (N' _))) as I.
        rewrite I in C.
        -- injection C as <- <- <-. rewrite <- app_assoc. cbn. now destruct co.
        -- split; [reflexivity|]. exists ys'. split; [exact Vs' | reflexivity].
    + split; [discriminate|].
      intros [-> (ys & Vs & ->)]. inversion Vs as [|? y' ? ys' R' Vs']; subst.
      cbn [fst snd] in R'. rewrite R' in R. injection R as <-.
      pose proof (proj2 (IH (pre ++ [(k, if co then y' else x)]) valid
                    (VObj ((pre ++ [(k, if co then y' else x)])
                           ++ if co then combine (map fst fs) ys' else fs))
                    (N' _))) as I.
      rewrite I in C; [discriminate|].
      split; [reflexivity|]. exists ys'. split; [exact Vs' | reflexivity].
Qed.

Lemma run_record_valid co V p fs st r :
  NoDup (map fst fs) ->
  run (record string_ V) co (VObj fs) p = ([], Some (st, r)) <->
  st = valid /\
  exists ys, values_valid V co p fs ys
             /\ r = VObj (if co then combine (map fst fs) ys else fs).
Proof.
  intros N. rewrite (run_record co string_ V (VObj fs) p fs eq_refl).
  exact (record_children_valid co V p fs [] st r N).
Qed.

(** ** The combinators *)

Lemma run_coerce s cond f co v p :
  run (coerce s cond f) co v p =
  if co then
    match is_ v cond with
    | None => ([], None)
    | Some true => match f v with
                   | Some v' => run s true v' p
                   | None => ([], None)
                   end
    | Some false => run s true v p
    end
  else run s false v p.
Proof.
  rewrite run_eq. cbn [coerce coercer validator entries].
  destruct co; [|now rewrite run_eq].
  destruct (is_ v cond) as [[|]|]; [| |reflexivity].
  - destruct (f v) as [v'|]; [|reflexivity]. now rewrite (run_eq s true v' p).
  - now rewrite (run_eq s true v p).
Qed.

(** The refinement step of [refine(struct, name, f)] over a struct that
    has no refiner of its own. *)
Lemma run_refine s name f co v p :
  (forall w q, refiner s w q = ret tt) ->
  run (refine s name f) co v p =
  match run s co v p with
  | (fs, None) => (fs, None)
  | (fs, Some (not_valid, cur)) => (fs, Some (not_valid, cur))
  | (fs, Some (st, cur)) =>
      match f cur p with
      | (msgs, None) =>
          (fs ++ map (fun msg => mkFailure msg p (Some name)) msgs, None)
      | (msgs, Some _) =>
          (fs ++ map (fun msg => mkFailure msg p (Some name)) msgs,
           Some (match msgs with [] => st | _ :: _ => not_refined end, cur))
      end
  end.
Proof.
  intros T. rewrite (run_fields (refine s name f)), (run_fields s).
  rewrite fields_of_refine.
  destruct (run (fields_of s) co v p) as [fs [[st cur]|]]; [|reflexivity].
  assert (R : run_refiner s st cur p = ([], Some (st, cur))).
  { unfold run_refiner. rewrite T. now destruct st. }
  rewrite R. cbn [fst snd]. rewrite app_nil_r.
  unfold run_refiner. cbn [refine refiner]. rewrite T.
  unfold bind, ret. cbn [app].
  destruct st; try reflexivity;
    destruct (f cur p) as [msgs [u|]]; cbn [fst snd]; try reflexivity;
    unfold yield_all; rewrite app_nil_r; now destruct msgs.
Qed.

(** [optional(struct)] on [undefined], for a struct that leaves
    [undefined] alone. *)
Lemma run_optional_undefined s co p :
  coercer s VUndefined = Some VUndefined ->
  entries s VUndefined = [] ->
  run (optional s) co VUndefined p = ([], Some (valid, VUndefined)).
Proof.
  intros C E. rewrite run_eq. cbn [optional coercer validator entries].
  rewrite C.
  replace (if co then Some VUndefined else Some VUndefined)
    with (Some VUndefined) by now destruct co.
  cbv beta iota. now rewrite E.
Qed.

Lemma write_back_undefined co st cur k x :
  write_back co st cur k x = VUndefined <-> cur = VUndefined.
Proof.
  unfold write_back, store, assign.
  destruct st, co, x, cur; try tauto; try (split; discriminate);
    destruct (has_key _ _); split; discriminate.
Qed.

Lemma run_children_undefined co p es st cur fs st' cur' :
  run_children co p es st cur = (fs, Some (st', cur')) ->
  cur' = VUndefined <-> cur = VUndefined.
Proof.
  revert st cur fs. induction es as [|[[k x] s'] es IH]; intros st cur fs.
  - cbn. intros [= <- <- <-]. tauto.
  - rewrite run_children_cons.
    destruct (run s' co x (p ++ [k])) as [fs1 [[st1 x1]|]]; [|discriminate].
    destruct (run_children co p es _ _) as [fs2 [[st2 cur2]|]] eqn:C;
      cbn [fst snd]; [|discriminate].
    intros [= <- <- <-]. rewrite (IH _ _ _ C). apply write_back_undefined.
Qed.

(** [optional(struct)] on anything the coercer does not turn into
    [undefined] is the struct itself. *)
Lemma run_optional_defined (s : Struct) (co : bool) (v : value) p :
  (forall v1 : value,
     (if co then coercer s v else Some v) = Some v1 -> v1 <> VUndefined) ->
  run (optional s) co v p = run s co v p.
Proof.
  intros D. rewrite !run_eq. cbn [optional coercer validator entries].
  destruct (if co then coercer s v else Some v) as [v1|]; [|reflexivity].
  specialize (D v1 eq_refl).
  replace (match v1 with
           | VUndefined => Some (@nil Failure)
           | _ => validator s v1 p
           end)
    with (validator s v1 p) by (destruct v1; congruence).
  destruct (validator s v1 p) as [vf|]; [|reflexivity].
  destruct (run_children _ _ _ _ _) as [cfs [[st cur]|]] eqn:C; [|reflexivity].
  assert (cur <> VUndefined)
    by (intros E; apply D; now apply (run_children_undefined _ _ _ _ _ _ _ _ C)).
  unfold run_refiner. cbn [optional refiner].
  destruct cur; congruence.
Qed.

Lemma run_union Structs co v p :
  run (union Structs) co v p =
  match (if co then first_valid Structs v else Some v) with
  | None => ([], None)
  | Some v1 =>
      match union_failures Structs v1 p with
      | None => ([], None)
      | Some None => ([], Some (valid, v1))
      | Some (Some fs) =>
          (fail_here p ("Expected the value to satisfy a union of `"
                        ++ join_types Structs ++ "`, but received: "
                        ++ print v1)%string :: fs,
           Some (not_valid, v1))
      end
  end.
Proof.
  rewrite run_eq. cbn [union coercer validator entries].
  destruct (if co then first_valid Structs v else Some v) as [v1|];
    [|reflexivity].
  destruct (union_failures Structs v1 p) as [[fs|]|]; cbn; try reflexivity.
  now rewrite app_nil_r.
Qed.

(** ** Env entries *)

Lemma run_any co v p : run any co v p = ([], Some (valid, v)).
Proof. unfold any. now rewrite run_define. Qed.

Lemma run_unknown co v p : run unknown co v p = ([], Some (valid, v)).
Proof. unfold unknown. now rewrite run_define. Qed.

Lemma run_string_ co v p :
  run string_ co v p =
  if is_string v then ([], Some (valid, v))
  else ([fail_here p ("Expected a string, but received: " ++ print v)%string],
        Some (not_valid, v)).
Proof. unfold string_. rewrite run_define. now destruct (is_string v). Qed.

Lemma record_any_children p fs cur :
  run_children false p (record_entries string_ any fs) valid cur
  = ([], Some (valid, cur)).
Proof.
  induction fs as [|[k x] fs IH]; [reflexivity|].
  change (record_entries string_ any ((k, x) :: fs))
    with ((k, VStr k, string_) :: (k, x, any) :: record_entries string_ any fs).
  rewrite run_children_cons, run_string_str. cbv beta iota.
  rewrite run_children_cons, run_any.
  cbn [child_status fold_left write_back app]. now rewrite IH.
Qed.

Lemma coercer_EnvDefinitionStruct fs :
  coercer EnvDefinitionStruct (VObj fs) = Some (normal_entry (VObj fs)).
Proof.
  unfold EnvDefinitionStruct. cbn [coerce coercer]. unfold is_, validate.
  rewrite run_refine by reflexivity.
  rewrite (run_record false string_ any (VObj fs) [] fs eq_refl).
  rewrite record_any_children. cbn [keys own_entries].
  rewrite length_map.
  destruct fs as [|[k v] [|[k' v'] fs]]; reflexivity.
Qed.

Lemma run_EnvDefinitionStruct co fs p :
  run EnvDefinitionStruct co (VObj fs) p
  = run (object entry_schema) co (if co then normal_entry (VObj fs) else VObj fs) p.
Proof.
  destruct co.
  - rewrite !run_eq. rewrite coercer_EnvDefinitionStruct.
    cbn [object coercer]. unfold isObject, spread.
    destruct fs as [|[k v] [|[k' v'] fs]]; reflexivity.
  - unfold EnvDefinitionStruct. now rewrite run_coerce.
Qed.

(** The run of the object schema of an entry: a failure when [key] is not
    a string, and one for every other property than [key] and [value];
    the object itself comes back. *)
Lemma run_entry_schema co fs p :
  run (object entry_schema) co (VObj fs) p =
  ((if is_string (lookup (VObj fs) "key") then []
    else [fail_here (p ++ ["key"])
            ("Expected a string, but received: "
             ++ print (lookup (VObj fs) "key"))%string])
   ++ map (fun kx => fail_here (p ++ [fst kx]) (expected "never" (snd kx)))
        (unknown_fields entry_schema fs),
   Some (if is_string (lookup (VObj fs) "key")
         then match unknown_fields entry_schema fs with
              | [] => valid
              | _ :: _ => not_valid
              end
         else not_valid, VObj fs)).
Proof.
  rewrite (run_object co entry_schema (VObj fs) p fs eq_refl).
  replace (if co then VObj fs else VObj fs) with (VObj fs) by now destruct co.
  change (known_entries (VObj fs) entry_schema)
    with [("key", lookup (VObj fs) "key", string_);
          ("value", lookup (VObj fs) "value", unknown)].
  rewrite run_children_cons, run_string_.
  destruct (is_string (lookup (VObj fs) "key")) eqn:K.
  - rewrite run_children_cons, run_unknown.
    cbn [run_children ret fst snd app child_status fold_left write_back].
    replace (if co
             then store (if co then store (VObj fs) "key" (lookup (VObj fs) "key")
                         else VObj fs) "value" (lookup (VObj fs) "value")
             else if co then store (VObj fs) "key" (lookup (VObj fs) "key")
                  else VObj fs)
      with (VObj fs)
      by (destruct co; [now rewrite !store_lookup | reflexivity]).
    reflexivity.
  - rewrite run_children_cons, run_unknown.
    cbn [run_children ret fst snd app child_status fold_left write_back refinement
         fail_here].
    replace (if co then store (VObj fs) "value" (lookup (VObj fs) "value")
             else VObj fs)
      with (VObj fs)
      by (destruct co; [now rewrite store_lookup | reflexivity]).
    now destruct (unknown_fields entry_schema fs).
Qed.

Lemma run_entry_schema_accepted co fs p :
  accepted_entry (VObj fs) = true ->
  run (object entry_schema) co (VObj fs) p = ([], Some (valid, VObj fs)).
Proof.
  intros A. rewrite run_entry_schema. unfold accepted_entry in A.
  apply andb_prop in A as [A B]. rewrite A.
  now destruct (unknown_fields entry_schema fs).
Qed.

Lemma run_entry_schema_rejected co fs p :
  accepted_entry (VObj fs) = false ->
  exists f rest,
    run (object entry_schema) co (VObj fs) p
    = (f :: rest, Some (not_valid, VObj fs)).
Proof.
  intros A. rewrite run_entry_schema. unfold accepted_entry in A.
  destruct (is_string (lookup (VObj fs) "key")).
  - destruct (unknown_fields entry_schema fs) as [|u us]; [discriminate|].
    eexists _, _. reflexivity.
  - eexists _, _. reflexivity.
Qed.

Lemma accepted_normal_entry k v :
  accepted_entry (VObj [("key", VStr k); ("value", v)]) = true.
Proof. reflexivity. Qed.

Lemma canonical_accepted x : canonical_entry x = true -> accepted_entry x = true.
Proof.
  destruct x as [| | | | |?|fs]; try discriminate.
  destruct fs as [|[a u] [|[b w] [|? ?]]]; try discriminate.
  cbn [canonical_entry]. intros H. apply orb_prop in H as [H|H];
    apply andb_prop in H as [H H3]; apply andb_prop in H as [H1 H2];
    apply String.eqb_eq in H1, H2; subst; unfold accepted_entry, lookup;
    cbn; now rewrite H3.
Qed.



Lemma first_valid_entry fs :
  first_valid [string_; EnvDefinitionStruct] (VObj fs) =
  Some (if accepted_entry (normal_entry (VObj fs)) then normal_entry (VObj fs)
        else VObj fs).
Proof.
  cbn [first_valid]. unfold validate at 1. rewrite run_string_. cbn [is_string].
  unfold validate. rewrite run_EnvDefinitionStruct.
  assert (N : exists fs', normal_entry (VObj fs) = VObj fs')
    by (destruct fs as [|[k v] [|[k' v'] fs]]; eexists; reflexivity).
  destruct N as [fs' N]. rewrite N.
  destruct (accepted_entry (VObj fs')) eqn:A.
  - now rewrite run_entry_schema_accepted.
  - destruct (run_entry_schema_rejected true fs' [] A) as (f & rest & ->).
    reflexivity.
Qed.

(** An entry in object form runs valid, to its normal form, when the
    object schema accepts that form; it fails as a union otherwise. *)
Lemma run_EnvEntry_object fs p :
  run EnvEntry true (VObj fs) p =
  if accepted_entry (normal_entry (VObj fs))
  then ([], Some (valid, normal_entry (VObj fs)))
  else (not_an_entry (VObj fs) p, Some (not_valid, VObj fs)).
Proof.
  unfold EnvEntry. rewrite run_union, first_valid_entry.
  assert (N : exists fs', normal_entry (VObj fs) = VObj fs')
    by (destruct fs as [|[k v] [|[k' v'] fs]]; eexists; reflexivity).
  destruct N as [fs' N]. rewrite N.
  destruct (accepted_entry (VObj fs')) eqn:A.
  - cbn [union_failures]. rewrite run_string_. cbn [is_string].
    rewrite run_EnvDefinitionStruct, run_entry_schema_accepted by exact A.
    reflexivity.
  - assert (E : fs' = fs).
    { destruct fs as [|[k v] [|[k' v'] fs]]; cbn in N; try congruence.
      injection N as <-. discriminate. }
    subst fs'. cbn [union_failures]. rewrite run_string_. cbn [is_string].
    rewrite run_EnvDefinitionStruct.
    destruct (run_entry_schema_rejected false fs p A) as (f & rest & R).
    unfold not_an_entry. rewrite R. cbn [fst app]. rewrite app_nil_r.
    reflexivity.
Qed.

Lemma run_EnvEntry_string co s p :
  run EnvEntry co (VStr s) p = ([], Some (valid, VStr s)).
Proof.
  unfold EnvEntry. rewrite run_union. cbn [first_valid]. unfold validate.
  rewrite run_string_str.
  replace (if co then Some (VStr s) else Some (VStr s)) with (Some (VStr s))
    by now destruct co.
  cbn [union_failures]. now rewrite run_string_str.
Qed.

(** ** Env sequences *)

Lemma declared_key_run x k p :
  declared_key x = Some k ->
  run EnvEntry true x p = ([], Some (valid, normal_entry x))
  /\ key_of (normal_entry x) = Some (VStr k).
Proof.
  destruct x as [| | | |s|?|fs]; try discriminate.
  - intros [= ->]. split; [apply run_EnvEntry_string | reflexivity].
  - intros D. rewrite run_EnvEntry_object.
    destruct fs as [|[a u] [|[b w] fs]].
    + discriminate.
    + injection D as ->. split; reflexivity.
    + cbn [declared_key] in D.
      destruct (canonical_entry (VObj ((a, u) :: (b, w) :: fs))) eqn:C;
        [|discriminate].
      cbn [normal_entry]. rewrite (canonical_accepted _ C).
      split; [reflexivity|]. unfold key_of, get. cbn [is_string].
      destruct (lookup _ "key"); try discriminate. now injection D as ->.
Qed.

Lemma declare_elements_valid p xs ks n :
  declare xs ks ->
  elements_valid EnvEntry true p n xs (map normal_entry xs).
Proof.
  intros D. revert n. induction D as [|x k xs ks H _ IH]; intros n.
  - constructor.
  - cbn. constructor; [|apply IH].
    now apply (declared_key_run x k).
Qed.

Lemma declare_keyed xs ks : declare xs ks -> keyed (map normal_entry xs) ks.
Proof.
  induction 1 as [|x k xs ks H _ IH]; [constructor|].
  cbn. constructor; [|exact IH]. now apply (declared_key_run x k []).
Qed.

Lemma includes_with_keyed seen sks x k :
  keyed seen sks -> key_of x = Some (VStr k) ->
  includes_with same_key seen x = Some (existsb (String.eqb k) sks).
Proof.
  intros S X. induction S as [|y ky seen sks Y _ IH]; [reflexivity|].
  cbn. unfold same_key at 1. rewrite X, Y. cbn [same_value].
  destruct (String.eqb k ky); [reflexivity | exact IH].
Qed.

Lemma uniq_onto_keyed ys ks :
  keyed ys ks ->
  forall seen sks, keyed seen sks ->
  exists u, uniq_onto same_key seen ys = Some u /\ keyed u (uniq_keys sks ks).
Proof.
  induction 1 as [|y k ys ks Y _ IH]; intros seen sks S.
  - exists seen. now split.
  - cbn. rewrite (includes_with_keyed seen sks y k S Y).
    destruct (existsb (String.eqb k) sks).
    + now apply IH.
    + apply IH. apply Forall2_app; [exact S|]. now constructor.
Qed.

Lemma existsb_eqb_In k ks : existsb (String.eqb k) ks = true <-> In k ks.
Proof.
  rewrite existsb_exists. split.
  - intros (x & I & E). apply String.eqb_eq in E. now subst.
  - intros I. exists k. split; [exact I | apply String.eqb_refl].
Qed.

Lemma uniq_keys_length seen ks :
  length (uniq_keys seen ks) <= length seen + length ks.
Proof.
  revert seen. induction ks as [|k ks IH]; intros seen; cbn; [lia|].
  destruct (existsb (String.eqb k) seen).
  - specialize (IH seen). lia.
  - specialize (IH (seen ++ [k])). rewrite length_app in IH. cbn in IH. lia.
Qed.

(** Nothing is dropped exactly when the keys are pairwise distinct. *)
Lemma uniq_keys_full seen ks :
  NoDup seen ->
  length (uniq_keys seen ks) = length seen + length ks <-> NoDup (seen ++ ks).
Proof.
  revert seen. induction ks as [|k ks IH]; intros seen N; cbn.
  - rewrite app_nil_r. split; [intros _; exact N | lia].
  - destruct (existsb (String.eqb k) seen) eqn:E.
    + apply existsb_eqb_In in E. split.
      * pose proof (uniq_keys_length seen ks). lia.
      * intros D. apply NoDup_remove_2 in D. exfalso. apply D.
        apply in_or_app. now left.
    + assert (I : ~ In k seen)
        by (intros I; apply existsb_eqb_In in I; congruence).
      assert (N' : NoDup (seen ++ [k])).
      { apply NoDup_app; [exact N | repeat constructor; intros [] |].
        intros a Ia [<-|[]]. contradiction. }
      specialize (IH _ N'). rewrite length_app, <- app_assoc in IH.
      cbn in IH. split.
      * intros H. apply IH. lia.
      * intros D. apply IH in D. lia.
Qed.

Lemma keyed_length ys ks : keyed ys ks -> length ys = length ks.
Proof. induction 1; cbn; congruence. Qed.

(** The refiner of [unique] on normalized entries. *)
Lemma uniqWith_keyed ys ks :
  keyed ys ks ->
  exists u, uniqWith ys (Some same_key) = Some u
            /\ (length u = length ys <-> NoDup ks).
Proof.
  intros K. unfold uniqWith.
  destruct (uniq_onto_keyed ys ks K [] []) as (u & U & KU); [constructor|].
  exists u. split; [exact U|].
  rewrite (keyed_length _ _ KU), (keyed_length _ _ K).
  exact (uniq_keys_full [] ks (NoDup_nil _)).
Qed.

Lemma run_array_entries xs ks p :
  declare xs ks ->
  run (array EnvEntry) true (VArr xs) p
  = ([], Some (valid, VArr (map normal_entry xs))).
Proof.
  intros D. apply run_array_valid. split; [reflexivity|].
  exists (map normal_entry xs). split; [|reflexivity].
  now apply (declare_elements_valid p xs ks).
Qed.

(** An env sequence of well-formed entries: no failure when the declared
    keys are pairwise distinct, the one failure of [unique] at the path of
    the sequence otherwise. *)
Lemma run_EnvArrayStruct xs ks p :
  declare xs ks ->
  (NoDup ks ->
   run EnvArrayStruct true (VArr xs) p
   = ([], Some (valid, VArr (map normal_entry xs))))
  /\ (~ NoDup ks ->
      run EnvArrayStruct true (VArr xs) p
      = ([duplicated_at p], Some (not_refined, VArr (map normal_entry xs)))).
Proof.
  intros D. unfold EnvArrayStruct, unique.
  rewrite run_refine by reflexivity.
  change (union [string_; EnvDefinitionStruct]) with EnvEntry.
  rewrite (run_array_entries xs ks p D).
  destruct (uniqWith_keyed _ _ (declare_keyed xs ks D)) as (u & -> & L).
  destruct (Nat.eqb_spec (length u) (length (map normal_entry xs))) as [E|E].
  - split; [reflexivity|]. intros N. destruct N. now apply L.
  - split; [|reflexivity]. intros N. destruct E. now apply L.
Qed.

Lemma run_optional_EnvArrayStruct xs p :
  run (optional EnvArrayStruct) true (VArr xs) p
  = run EnvArrayStruct true (VArr xs) p.
Proof. apply run_optional_defined. intros v1 [= <-]. discriminate. Qed.

(** ** Where the failures lie *)

Lemma prefixb_refl p : prefixb p p = true.
Proof. induction p as [|a p IH]; cbn; [reflexivity|]. now rewrite String.eqb_refl. Qed.

Lemma prefixb_app p q r : prefixb (p ++ q) r = true -> prefixb p r = true.
Proof.
  revert r. induction p as [|a p IH]; intros r; [reflexivity|].
  destruct r as [|b r]; cbn; [discriminate|].
  intros H. apply andb_prop in H as [-> H]. now apply IH.
Qed.

Lemma prefixb_diverge p k k' r :
  k <> k' -> prefixb (p ++ [k]) r = true -> prefixb (p ++ [k']) r = false.
Proof.
  intros N. revert r. induction p as [|a p IH]; intros r.
  - destruct r as [|b r]; cbn; [discriminate|].
    intros H. apply andb_prop in H as [H _]. apply String.eqb_eq in H. subst b.
    destruct (String.eqb_spec k' k); [congruence | reflexivity].
  - destruct r as [|b r]; cbn; [discriminate|].
    intros H. apply andb_prop in H as [-> H]. now apply IH.
Qed.

Lemma prefixb_longer p k : prefixb (p ++ [k]) p = false.
Proof.
  induction p as [|a p IH]; cbn; [reflexivity|].
  now rewrite String.eqb_refl.
Qed.

Lemma below_here msg p r : below p (mkFailure msg p r) = true.
Proof. apply prefixb_refl. Qed.

Lemma below_app p q f : below (p ++ q) f = true -> below p f = true.
Proof. apply prefixb_app. Qed.

(** When no child throws, the loop yields the failures of its children,
    one child after the other. *)
Lemma run_children_complete co p es st cur fs r :
  run_children co p es st cur = (fs, Some r) ->
  fs = flat_map (child_failures co p) es.
Proof.
  revert st cur fs r. induction es as [|[[k x] s'] es IH]; intros st cur fs r.
  - cbn. now intros [= <- _].
  - rewrite run_children_cons. cbn [flat_map]. unfold child_failures at 1.
    cbn [fst snd].
    destruct (run s' co x (p ++ [k])) as [fs1 [[st1 x1]|]]; [|discriminate].
    destruct (run_children co p es _ _) as [fs2 [r2|]] eqn:C; cbn [fst snd];
      [|discriminate].
    intros [= <- _]. cbn [fst]. f_equal. now apply (IH _ _ _ _ C).
Qed.

Lemma run_children_In co p es st cur f :
  In f (fst (run_children co p es st cur)) ->
  exists e, In e es /\ In f (child_failures co p e).
Proof.
  revert st cur. induction es as [|[[k x] s'] es IH]; intros st cur.
  - intros [].
  - rewrite run_children_cons. unfold child_failures.
    destruct (run s' co x (p ++ [k])) as [fs1 [[st1 x1]|]] eqn:R; cbn [fst].
    + intros I. apply in_app_or in I as [I|I].
      * exists (k, x, s'). split; [now left|]. cbn [fst snd]. now rewrite R.
      * apply IH in I as (e & Ie & If). exists e. split; [now right | exact If].
    + intros I. exists (k, x, s'). split; [now left|]. cbn [fst snd].
      now rewrite R.
Qed.

(** A struct keeps its failures below the path of the run when its
    validator, its refiner and the structs of its entries do. *)
Lemma paths_below_intro s :
  (forall v p fs f, validator s v p = Some fs -> In f fs -> below p f = true) ->
  (forall v k x s', In (k, x, s') (entries s v) -> paths_below s') ->
  (forall v p f, In f (fst (refiner s v p)) -> below p f = true) ->
  paths_below s.
Proof.
  intros V E R co v p f. rewrite run_eq.
  destruct (if co then coercer s v else Some v) as [v1|]; [|intros []].
  destruct (validator s v1 p) as [vf|] eqn:Va; [|intros []].
  assert (C : forall st cur g,
             In g (fst (run_children co p (entries s v1) st cur)) ->
             below p g = true).
  { intros st cur g I. apply run_children_In in I as ([[k x] s'] & Ie & If).
    apply (below_app p [k]). exact (E v1 k x s' Ie co x (p ++ [k]) g If). }
  destruct (run_children co p (entries s v1) _ v1) as [cfs [[st cur]|]] eqn:Ch;
    cbn [fst].
  - intros I. apply in_app_or in I as [I|I]; [now apply (V v1 p vf)|].
    apply in_app_or in I as [I|I].
    + apply (C (match vf with [] => valid | _ :: _ => not_valid end) v1).
      now rewrite Ch.
    + unfold run_refiner in I. destruct st; cbn in I.
      * apply (R cur p). destruct (refiner s cur p) as [rf [u|]]; cbn in *;
          [now rewrite app_nil_r in I | exact I].
      * apply (R cur p). destruct (refiner s cur p) as [rf [u|]]; cbn in *;
          [now rewrite app_nil_r in I | exact I].
      * destruct I.
  - intros I. apply in_app_or in I as [I|I]; [now apply (V v1 p vf)|].
    apply (C (match vf with [] => valid | _ :: _ => not_valid end) v1).
    now rewrite Ch.
Qed.

Lemma paths_below_define name check : paths_below (define name check).
Proof.
  intros co v p f. rewrite run_define.
  destruct (check v); [|intros []]. intros [<-|[]]. apply below_here.
Qed.

Lemma paths_below_array E : paths_below E -> paths_below (array E).
Proof.
  intros H. apply paths_below_intro.
  - intros v p fs f [= <-]. destruct (is_array v); [intros []|].
    intros [<-|[]]. apply below_here.
  - intros v k x s'. cbn [array entries]. destruct v; try (intros []).
    intros I. apply in_map_iff in I as (kx & [= _ _ <-] & _). exact H.
  - intros v p f [].
Qed.

Lemma paths_below_object schema :
  Forall (fun ks => paths_below (snd ks)) schema -> paths_below (object schema).
Proof.
  intros H. apply paths_below_intro.
  - intros v p fs f [= <-]. destruct (isObject v); [intros []|].
    intros [<-|[]]. apply below_here.
  - intros v k x s'. cbn [object entries]. destruct (own_entries v); [|intros []].
    intros I. apply in_app_or in I as [I|I].
    + apply in_map_iff in I as (ks & [= _ _ <-] & I).
      rewrite Forall_forall in H. now apply H.
    + apply in_map_iff in I as (kx & [= _ _ <-] & _). apply paths_below_define.
  - intros v p f [].
Qed.

Lemma paths_below_record K V :
  paths_below K -> paths_below V -> paths_below (record K V).
Proof.
  intros HK HV. apply paths_below_intro.
  - intros v p fs f [= <-]. destruct (isObject v); [intros []|].
    intros [<-|[]]. apply below_here.
  - intros v k x s'. cbn [record entries]. destruct (own_entries v); [|intros []].
    intros I. apply in_flat_map in I as (kx & _ & [[= _ _ <-]|[[= _ _ <-]|[]]]);
      assumption.
  - intros v p f [].
Qed.

Lemma paths_below_fields s : paths_below s -> paths_below (fields_of s).
Proof.
  intros H co v p f I. apply (H co v p). rewrite run_fields.
  destruct (run (fields_of s) co v p) as [fs [[st cur]|]]; cbn [fst] in *;
    [apply in_or_app; now left | exact I].
Qed.

Lemma refiner_refine s name f v p :
  refiner (refine s name f) v p =
  match refiner s v p with
  | (rf, None) => (rf, None)
  | (rf, Some _) =>
      (rf ++ map (fun msg => mkFailure msg p (Some name)) (fst (f v p)),
       snd (f v p))
  end.
Proof.
  cbn [refine refiner]. unfold bind.
  now destruct (refiner s v p) as [rf [u|]].
Qed.

Lemma paths_below_refine s name f :
  paths_below s -> paths_below (refine s name f).
Proof.
  intros H co v p g. rewrite run_fields, fields_of_refine.
  pose proof (paths_below_fields s H co v p) as F.
  pose proof (H co v p) as S. rewrite run_fields in S.
  destruct (run (fields_of s) co v p) as [fs [[st cur]|]]; cbn [fst] in *;
    [|exact (F g)].
  intros I. apply in_app_or in I as [I|I]; [now apply F|].
  assert (B : st <> not_valid ->
              In g (fst (refiner (refine s name f) cur p)) -> below p g = true).
  { intros N Ig. rewrite refiner_refine in Ig.
    assert (Sg : forall h, In h (fst (refiner s cur p)) -> below p h = true).
    { intros h Ih. apply S. apply in_or_app. right. unfold run_refiner.
      destruct st; [| |congruence];
        destruct (refiner s cur p) as [rf [u|]]; cbn in *;
          try (now rewrite app_nil_r); exact Ih. }
    destruct (refiner s cur p) as [rf [u|]]; cbn [fst] in *; [|now apply Sg].
    apply in_app_or in Ig as [Ig|Ig]; [now apply Sg|].
    apply in_map_iff in Ig as (msg & <- & _). apply below_here. }
  unfold run_refiner in I.
  destruct st; [| |destruct I];
    (apply B; [discriminate|]);
    destruct (refiner (refine s name f) cur p) as [rf [u|]]; cbn in *;
      try (now rewrite app_nil_r in I); exact I.
Qed.

Lemma run_optional_of_undefined (s : Struct) (co : bool) (v : value) p :
  (if co then coercer s v else Some v) = Some VUndefined ->
  entries s VUndefined = [] ->
  run (optional s) co v p = ([], Some (valid, VUndefined)).
Proof.
  intros C E. rewrite run_eq. cbn [optional coercer validator entries].
  now rewrite C, E.
Qed.

Lemma paths_below_optional s :
  entries s VUndefined = [] -> paths_below s -> paths_below (optional s).
Proof.
  intros E H co v p f.
  destruct (if co then coercer s v else Some v) as [v1|] eqn:C.
  - destruct v1;
      try (rewrite run_optional_defined;
           [apply H | rewrite C; intros ? [= <-]; discriminate]).
    rewrite (run_optional_of_undefined s co v p C E). intros [].
  - rewrite run_eq. cbn [optional coercer]. rewrite C. intros [].
Qed.

Lemma paths_below_coerce s cond f :
  paths_below s -> paths_below (coerce s cond f).
Proof.
  intros H co v p g. rewrite run_coerce. destruct co; [|apply H].
  destruct (is_ v cond) as [[|]|]; [|apply H|intros []].
  destruct (f v); [apply H | intros []].
Qed.

Lemma union_failures_below Structs v p fs f :
  Forall paths_below Structs ->
  union_failures Structs v p = Some (Some fs) -> In f fs -> below p f = true.
Proof.
  intros H. revert fs. induction H as [|St rest HS _ IH]; intros fs.
  - cbn. intros [= <-] [].
  - cbn [union_failures]. pose proof (HS false v p) as B.
    destruct (run St false v p) as [fs1 o]. cbn [fst] in B.
    destruct fs1 as [|f1 fs1].
    + destruct o as [[[| |] r]|]; discriminate.
    + destruct o as [[st r]|]; [|discriminate].
      destruct (union_failures rest v p) as [[fs2|]|] eqn:U; try discriminate.
      intros [= <-] I. rewrite app_comm_cons in I.
      apply in_app_or in I as [I|I]; [now apply B|].
      now apply (IH fs2).
Qed.

Lemma paths_below_union Structs :
  Forall paths_below Structs -> paths_below (union Structs).
Proof.
  intros H co v p f. rewrite run_union.
  destruct (if co then first_valid Structs v else Some v) as [v1|]; [|intros []].
  destruct (union_failures Structs v1 p) as [[fs|]|] eqn:U;
    [|intros []|intros []].
  intros [<-|I]; [apply below_here|].
  now apply (union_failures_below Structs v1 p fs).
Qed.

Ltac below_paths :=
  repeat first
    [ assumption
    | apply paths_below_define
    | apply paths_below_coerce
    | apply paths_below_refine
    | apply paths_below_optional; [reflexivity|]
    | apply paths_below_array
    | apply paths_below_record
    | apply paths_below_object; repeat constructor; cbn [snd]
    | apply paths_below_union; repeat constructor ].

Lemma paths_below_string : paths_below string_.
Proof. apply paths_below_define. Qed.

Lemma paths_below_EnvDefinitionStruct : paths_below EnvDefinitionStruct.
Proof. unfold EnvDefinitionStruct, string_, unknown. below_paths. Qed.

Lemma paths_below_EnvArrayStruct : paths_below EnvArrayStruct.
Proof.
  pose proof paths_below_EnvDefinitionStruct. pose proof paths_below_string.
  unfold EnvArrayStruct, unique. below_paths.
Qed.

Lemma paths_below_BuildTypeStruct : paths_below BuildTypeStruct.
Proof.
  pose proof paths_below_EnvArrayStruct. pose proof paths_below_string.
  unfold BuildTypeStruct, unique, boolean, literal. below_paths.
Qed.

(** [optional] of the struct that is not there: valid on [undefined], a
    throw on anything else, and no failure either way. *)
Lemma run_assets_field co v p :
  run (optional_of AssetStruct) co v p
  = match v with
    | VUndefined => ([], Some (valid, VUndefined))
    | _ => ([], None)
    end.
Proof. destruct v, co; reflexivity. Qed.

Lemma paths_below_AssetStruct : paths_below (optional_of AssetStruct).
Proof.
  intros co v p f. rewrite run_assets_field. now destruct v.
Qed.

Lemma paths_below_FeatureStruct : paths_below FeatureStruct.
Proof.
  pose proof paths_below_EnvArrayStruct. pose proof paths_below_AssetStruct.
  unfold FeatureStruct. below_paths.
Qed.

Lemma paths_below_FeaturesStruct : paths_below FeaturesStruct.
Proof.
  pose proof paths_below_FeatureStruct. pose proof paths_below_string.
  unfold FeaturesStruct. below_paths.
Qed.

Lemma under_app p a b : under p (a ++ b) = under p a ++ under p b.
Proof. apply filter_app. Qed.

Lemma under_all p fs :
  (forall f, In f fs -> below p f = true) -> under p fs = fs.
Proof.
  unfold under. induction fs as [|f fs IH]; intros H; [reflexivity|].
  cbn [filter]. rewrite (H f) by now left. f_equal. apply IH.
  intros g I. apply H. now right.
Qed.

Lemma under_none p fs :
  (forall f, In f fs -> below p f = false) -> under p fs = [].
Proof.
  unfold under. induction fs as [|f fs IH]; intros H; [reflexivity|].
  cbn [filter]. rewrite (H f) by now left. apply IH.
  intros g I. apply H. now right.
Qed.

Lemma under_under p q fs : under (p ++ q) (under p fs) = under (p ++ q) fs.
Proof.
  unfold under. induction fs as [|f fs IH]; [reflexivity|]. cbn [filter].
  destruct (below p f) eqn:B; cbn [filter]; rewrite IH.
  - reflexivity.
  - destruct (below (p ++ q) f) eqn:B'; [|reflexivity].
    apply below_app in B'. congruence.
Qed.

Lemma under_child s co x p k k0 :
  paths_below s ->
  under (p ++ [k0]) (fst (run s co x (p ++ [k]))) =
  if String.eqb k k0 then fst (run s co x (p ++ [k])) else [].
Proof.
  intros H. destruct (String.eqb_spec k k0) as [->|N].
  - apply under_all. apply H.
  - apply under_none. intros f I. apply (prefixb_diverge p k k0 _ N).
    now apply (H co x (p ++ [k])).
Qed.

(** The failures below the key [k0], among those of the children. *)
Lemma children_under co p es k0 :
  Forall (fun e => paths_below (snd e)) es ->
  under (p ++ [k0]) (flat_map (child_failures co p) es) =
  flat_map (child_failures co p)
    (filter (fun e => String.eqb (fst (fst e)) k0) es).
Proof.
  induction 1 as [|[[k x] s] es H _ IH]; [reflexivity|].
  cbn [flat_map filter fst snd]. rewrite under_app, IH.
  unfold child_failures at 1. cbn [fst snd] in *.
  rewrite (under_child s co x p k k0 H).
  destruct (String.eqb k k0); [reflexivity|]. reflexivity.
Qed.

Lemma filter_known v schema k0 s0 :
  NoDup (map fst schema) -> In (k0, s0) schema ->
  filter (fun e : string * value * Struct => String.eqb (fst (fst e)) k0)
    (known_entries v schema) = [(k0, lookup v k0, s0)].
Proof.
  induction schema as [|[k s] schema IH]; intros N I; [destruct I|].
  inversion N as [|? ? N1 N2]; subst. cbn [known_entries map filter fst snd].
  fold (known_entries v schema). destruct I as [[= -> ->]|I].
  - rewrite String.eqb_refl. f_equal.
    assert (F : forall l, ~ In k0 (map fst l) ->
                filter (fun e : string * value * Struct =>
                          String.eqb (fst (fst e)) k0) (known_entries v l) = []).
    { induction l as [|[k' s'] l IHl]; intros Nl; [reflexivity|]. cbn.
      destruct (String.eqb_spec k' k0) as [->|_].
      - exfalso. apply Nl. now left.
      - apply IHl. intros X. apply Nl. now right. }
    now apply F.
  - destruct (String.eqb_spec k k0) as [->|_].
    + exfalso. apply N1. apply (in_map fst) in I. exact I.
    + now apply IH.
Qed.

Lemma unknown_fields_not_known schema fs k x s :
  In (k, s) schema -> ~ In (k, x) (unknown_fields schema fs).
Proof.
  intros I U. apply filter_In in U as [_ U]. cbn [fst] in U.
  apply negb_true_iff in U.
  assert (E : existsb (String.eqb k) (map fst schema) = true).
  { apply existsb_exists. exists k. split; [|apply String.eqb_refl].
    apply (in_map fst) in I. exact I. }
  congruence.
Qed.

Lemma run_children_no_throw co p es st cur fs r e :
  run_children co p es st cur = (fs, Some r) -> In e es ->
  exists r0, run (snd e) co (snd (fst e)) (p ++ [fst (fst e)])
             = (child_failures co p e, Some r0).
Proof.
  revert st cur fs r. induction es as [|[[k x] s'] es IH]; intros st cur fs r.
  - intros _ [].
  - rewrite run_children_cons.
    destruct (run s' co x (p ++ [k])) as [fs1 [[st1 x1]|]] eqn:R; [|discriminate].
    destruct (run_children co p es _ _) as [fs2 [r2|]] eqn:C; cbn [fst snd];
      [|discriminate].
    intros _ [<-|I].
    + unfold child_failures. cbn [fst snd]. rewrite R. now eexists.
    + exact (IH _ _ _ _ C I).
Qed.

(** The failures of an object below one of its known keys are those of
    the struct of that key. *)
Lemma object_under co schema v p ofs fs r k0 s0 :
  own_entries v = Some ofs ->
  NoDup (map fst schema) ->
  Forall (fun ks => paths_below (snd ks)) schema ->
  In (k0, s0) schema ->
  run (object schema) co v p = (fs, Some r) ->
  exists r0, run s0 co (lookup v k0) (p ++ [k0])
             = (under (p ++ [k0]) fs, Some r0).
Proof.
  intros O N P I. rewrite (run_object co schema v p ofs O).
  assert (L : lookup (if co then VObj ofs else v) k0 = lookup v k0).
  { destruct co; [|reflexivity]. unfold lookup. now rewrite O. }
  destruct (run_children co p (known_entries _ schema) valid _)
    as [kfs [[st cur]|]] eqn:C; [|discriminate].
  intros [= <- _]. rewrite under_app.
  destruct (run_children_no_throw _ _ _ _ _ _ _
              (k0, lookup (if co then VObj ofs else v) k0, s0) C) as [r0 R0].
  { unfold known_entries. apply in_map_iff. exists (k0, s0). now split. }
  cbn [fst snd] in R0. rewrite L in R0. exists r0. rewrite R0. f_equal.
  rewrite (run_children_complete _ _ _ _ _ _ _ C), children_under.
  - rewrite (filter_known _ schema k0 s0 N I). cbn [flat_map].
    rewrite app_nil_r, L.
    rewrite under_none; [now rewrite app_nil_r|].
    intros f If. apply in_map_iff in If as ([k x] & <- & U).
    unfold below. cbn [path fail_here fst].
    apply (prefixb_diverge p k k0); [|apply prefixb_refl].
    intros ->. exact (unknown_fields_not_known schema ofs k0 x s0 I U).
  - unfold known_entries. apply Forall_map. cbn [snd].
    exact P.
Qed.

Lemma filter_record V fs k0 x :
  NoDup (map fst fs) -> assoc k0 fs = Some x ->
  filter (fun e : string * value * Struct => String.eqb (fst (fst e)) k0)
    (record_entries string_ V fs) = [(k0, VStr k0, string_); (k0, x, V)].
Proof.
  induction fs as [|[k y] fs IH]; intros N A; [discriminate|].
  inversion N as [|? ? N1 N2]; subst.
  change (record_entries string_ V ((k, y) :: fs))
    with ((k, VStr k, string_) :: (k, y, V) :: record_entries string_ V fs).
  cbn [filter fst snd]. cbn [assoc] in A.
  rewrite (String.eqb_sym k k0).
  destruct (String.eqb_spec k0 k) as [->|D].
  - injection A as ->. do 2 f_equal.
    assert (F : forall l, ~ In k (map fst l) ->
                filter (fun e : string * value * Struct =>
                          String.eqb (fst (fst e)) k) (record_entries string_ V l)
                = []).
    { induction l as [|[k' y'] l IHl]; intros Nl; [reflexivity|].
      change (record_entries string_ V ((k', y') :: l))
        with ((k', VStr k', string_) :: (k', y', V) :: record_entries string_ V l).
      cbn [filter fst snd].
      destruct (String.eqb_spec k' k) as [->|_].
      - exfalso. apply Nl. now left.
      - apply IHl. intros X. apply Nl. now right. }
    now apply F.
  - now apply IH.
Qed.

(** The failures of a record below one of its keys are those of its
    value. *)
Lemma record_under co V fs p fs' r k0 x :
  NoDup (map fst fs) -> paths_below V -> assoc k0 fs = Some x ->
  run (record string_ V) co (VObj fs) p = (fs', Some r) ->
  exists r0, run V co x (p ++ [k0]) = (under (p ++ [k0]) fs', Some r0).
Proof.
  intros N P A. rewrite (run_record co string_ V (VObj fs) p fs eq_refl).
  intros C.
  destruct (run_children_no_throw _ _ _ _ _ _ _ (k0, x, V) C) as [r0 R0].
  { unfold record_entries. apply in_flat_map. exists (k0, x).
    split; [now apply assoc_In | right; now left]. }
  cbn [fst snd] in R0. exists r0. rewrite R0. f_equal.
  rewrite (run_children_complete _ _ _ _ _ _ _ C), children_under.
  - rewrite (filter_record V fs k0 x N A). cbn [flat_map].
    unfold child_failures at 2. cbn [fst snd]. rewrite run_string_str.
    cbn [fst app]. now rewrite app_nil_r.
  - unfold record_entries. apply Forall_flat_map. apply Forall_forall.
    intros kx _. repeat constructor; cbn [snd];
      [apply paths_below_string | exact P].
Qed.

(** A refinement adds failures at the path of the value only. *)
Lemma refine_under s name f co v p fs r q k :
  (forall w q', refiner s w q' = ret tt) ->
  run (refine s name f) co v p = (fs, Some r) ->
  exists fs' r', run s co v p = (fs', Some r')
                 /\ under (p ++ k :: q) fs = under (p ++ k :: q) fs'.
Proof.
  intros T. rewrite (run_refine s name f co v p T).
  assert (U : forall msgs,
             under (p ++ k :: q)
               (map (fun msg => mkFailure msg p (Some name)) msgs) = []).
  { intros msgs. apply under_none. intros g I.
    apply in_map_iff in I as (msg & <- & _). unfold below. cbn [path].
    destruct (prefixb (p ++ k :: q) p) eqn:E; [|reflexivity].
    change (k :: q) with ([k] ++ q) in E. rewrite app_assoc in E.
    apply prefixb_app in E. now rewrite prefixb_longer in E. }
  destruct (run s co v p) as [fs' [[st cur]|]]; [|discriminate].
  destruct st.
  - destruct (f cur p) as [msgs [u|]]; [|discriminate].
    intros [= <- _]. eexists _, _. split; [reflexivity|].
    now rewrite under_app, U, app_nil_r.
  - destruct (f cur p) as [msgs [u|]]; [|discriminate].
    intros [= <- _]. eexists _, _. split; [reflexivity|].
    now rewrite under_app, U, app_nil_r.
  - intros [= <- _]. eexists _, _. split; reflexivity.
Qed.

(** ** The env sequences of a document *)

Ltac distinct_keys :=
  cbn [map fst]; repeat constructor; cbn [In]; intuition discriminate.

Lemma lookup_own v k :
  lookup v k <> VUndefined -> exists ofs, own_entries v = Some ofs.
Proof.
  unfold lookup. destruct (own_entries v) as [ofs|]; [now exists ofs|].
  now intros [].
Qed.

Lemma lookup_spread v k ofs :
  own_entries v = Some ofs -> lookup (VObj ofs) k = lookup v k.
Proof. intros O. unfold lookup. now rewrite O. Qed.

Lemma is_null v :
  is_ v (nullable never) = Some (match v with VNull => true | _ => false end).
Proof. destruct v; reflexivity. Qed.

(** A feature that is not [null] runs against [FeatureStruct]. *)
Lemma run_feature f ft p :
  ft <> VNull ->
  run (coerce FeatureStruct (nullable never) f) true ft p
  = run FeatureStruct true ft p.
Proof.
  intros N. rewrite run_coerce, is_null. destruct ft; congruence.
Qed.

Lemma distinct_document_keys :
  NoDup (map fst
    [("default", string_);
     ("buildTypes", record string_ BuildTypeStruct);
     ("features", FeaturesStruct);
     ("env", EnvArrayStruct)]).
Proof. distinct_keys. Qed.

Lemma distinct_build_type_keys :
  NoDup (map fst
    [("features", optional (unique (array string_) None));
     ("env", optional EnvArrayStruct);
     ("isPrerelease", optional boolean);
     ("manifestOverrides", union [string_; literal (VBool false)]);
     ("buildNameOverride", union [string_; literal (VBool false)])]).
Proof. distinct_keys. Qed.

Lemma distinct_feature_keys :
  NoDup (map fst
    [("env", optional EnvArrayStruct); ("assets", optional_of AssetStruct)]).
Proof. distinct_keys. Qed.

Lemma paths_below_document_schema :
  Forall (fun ks : string * Struct => paths_below (snd ks))
    [("default", string_);
     ("buildTypes", record string_ BuildTypeStruct);
     ("features", FeaturesStruct);
     ("env", EnvArrayStruct)].
Proof.
  repeat constructor; cbn [snd].
  - apply paths_below_string.
  - apply paths_below_record;
      [apply paths_below_string | apply paths_below_BuildTypeStruct].
  - apply paths_below_FeaturesStruct.
  - apply paths_below_EnvArrayStruct.
Qed.

Lemma paths_below_build_type_schema :
  Forall (fun ks : string * Struct => paths_below (snd ks))
    [("features", optional (unique (array string_) None));
     ("env", optional EnvArrayStruct);
     ("isPrerelease", optional boolean);
     ("manifestOverrides", union [string_; literal (VBool false)]);
     ("buildNameOverride", union [string_; literal (VBool false)])].
Proof.
  pose proof paths_below_EnvArrayStruct. pose proof paths_below_string.
  unfold unique, boolean, literal. repeat constructor; cbn [snd]; below_paths.
Qed.

Lemma paths_below_feature_schema :
  Forall (fun ks : string * Struct => paths_below (snd ks))
    [("env", optional EnvArrayStruct); ("assets", optional_of AssetStruct)].
Proof.
  pose proof paths_below_EnvArrayStruct. pose proof paths_below_AssetStruct.
  repeat constructor; cbn [snd]; below_paths.
Qed.

Lemma refined_object_under schema name f co v p fs r q k :
  run (refine (object schema) name f) co v p = (fs, Some r) ->
  exists fs' r', run (object schema) co v p = (fs', Some r')
                 /\ under (p ++ k :: q) fs = under (p ++ k :: q) fs'.
Proof. apply refine_under. reflexivity. Qed.

Lemma refined_record_under K V name f co v p fs r q k :
  run (refine (record K V) name f) co v p = (fs, Some r) ->
  exists fs' r', run (record K V) co v p = (fs', Some r')
                 /\ under (p ++ k :: q) fs = under (p ++ k :: q) fs'.
Proof. apply refine_under. reflexivity. Qed.

(** In a traversal of the fields of a document that does not throw, the
    failures at and below the path of an env sequence are those of the
    run of [EnvArrayStruct] on that sequence. *)
Lemma env_sequence_fields raw fs' r' p xs :
  run (object [("default", string_);
               ("buildTypes", record string_ BuildTypeStruct);
               ("features", FeaturesStruct);
               ("env", EnvArrayStruct)]) true raw [] = (fs', Some r') ->
  env_sequence raw p xs ->
  exists r0, run EnvArrayStruct true (VArr xs) p = (under p fs', Some r0).
Proof.
  intros R' E.
  destruct E as [xs G | bts name bt xs B N A L | fts name ft xs F N A L].
  - assert (exists ofs0, own_entries raw = Some ofs0) as [ofs O]
      by (apply (lookup_own raw "env"); rewrite G; discriminate).
    destruct (object_under _ _ _ _ ofs _ _ "env" EnvArrayStruct O
                distinct_document_keys paths_below_document_schema
                ltac:(cbn; tauto) R') as [r0 R0].
    rewrite G in R0. now exists r0.
  - assert (exists ofs0, own_entries raw = Some ofs0) as [ofs O]
      by (apply (lookup_own raw "buildTypes"); rewrite B; discriminate).
    destruct (object_under _ _ _ _ ofs _ _ "buildTypes"
                (record string_ BuildTypeStruct) O
                distinct_document_keys paths_below_document_schema
                ltac:(cbn; tauto) R') as [r1 R1].
    rewrite B in R1.
    destruct (record_under _ _ _ _ _ _ name bt N paths_below_BuildTypeStruct A R1)
      as [r2 R2].
    assert (exists ofs0, own_entries bt = Some ofs0) as [ofs' O']
      by (apply (lookup_own bt "env"); rewrite L; discriminate).
    unfold BuildTypeStruct in R2.
    destruct (object_under _ _ _ _ ofs' _ _ "env" (optional EnvArrayStruct) O'
                distinct_build_type_keys paths_below_build_type_schema
                ltac:(cbn; tauto) R2) as [r3 R3].
    rewrite L, run_optional_EnvArrayStruct in R3. cbn [app] in R3.
    exists r3. rewrite R3. f_equal.
    rewrite (under_under ["buildTypes"; name] ["env"]).
    now rewrite (under_under ["buildTypes"] [name; "env"]).
  - assert (exists ofs0, own_entries raw = Some ofs0) as [ofs O]
      by (apply (lookup_own raw "features"); rewrite F; discriminate).
    destruct (object_under _ _ _ _ ofs _ _ "features" FeaturesStruct O
                distinct_document_keys paths_below_document_schema
                ltac:(cbn; tauto) R') as [r1 R1].
    rewrite F in R1. unfold FeaturesStruct in R1.
    destruct (refined_record_under _ _ _ _ _ _ ["features"] _ _ ["env"] name R1)
      as (fs2 & r2 & R2 & U2).
    destruct (record_under _ _ _ _ _ _ name ft N
                (paths_below_coerce _ _ _ paths_below_FeatureStruct) A R2)
      as [r3 R3].
    assert (exists ofs0, own_entries ft = Some ofs0) as [ofs' O']
      by (apply (lookup_own ft "env"); rewrite L; discriminate).
    rewrite run_feature in R3 by (intros ->; discriminate).
    unfold FeatureStruct in R3.
    destruct (object_under _ _ _ _ ofs' _ _ "env" (optional EnvArrayStruct) O'
                distinct_feature_keys paths_below_feature_schema
                ltac:(cbn; tauto) R3) as [r4 R4].
    rewrite L, run_optional_EnvArrayStruct in R4. cbn [app] in R4.
    exists r4. rewrite R4. f_equal.
    cbn [app] in U2.
    rewrite (under_under ["features"; name] ["env"] fs2 : 
               under ["features"; name; "env"] (under ["features"; name] fs2) = _).
    cbn [app]. rewrite <- U2.
    exact (under_under ["features"] [name; "env"] fs').
Qed.

Lemma env_sequence_path raw p xs :
  env_sequence raw p xs -> exists k q, p = k :: q.
Proof. intros []; now eexists _, _. Qed.

(** The same for the whole traversal, when it does not throw. *)
Lemma env_sequence_run raw failures r p xs :
  run BuildTypesStruct true raw [] = (failures, Some r) ->
  env_sequence raw p xs ->
  exists r0, run EnvArrayStruct true (VArr xs) p = (under p failures, Some r0).
Proof.
  intros R E. unfold BuildTypesStruct in R.
  destruct (env_sequence_path raw p xs E) as (k & q & P).
  destruct (refined_object_under _ _ _ _ _ [] _ _ q k R)
    as (fs' & r' & R' & U).
  cbn [app] in U. rewrite <- P in U. rewrite U.
  exact (env_sequence_fields raw fs' r' p xs R' E).
Qed.

(** The failures of the refinement of the document lie at its root. *)
Lemma document_refinement_at_root st cur k q :
  under (k :: q) (fst (run_refiner BuildTypesStruct st cur [])) = [].
Proof.
  assert (U : forall msgs,
             under (k :: q)
               (map (fun msg => mkFailure msg [] (Some "BuildTypes")) msgs) = []).
  { intros msgs. induction msgs as [|m msgs IH]; [reflexivity | exact IH]. }
  unfold run_refiner.
  destruct st; [| |reflexivity];
    cbn [BuildTypesStruct refine refiner object bind ret];
    destruct (default_exists cur []) as [msgs [[]|]];
    unfold yield_all, bind, ret; cbn [fst snd app];
    rewrite ?app_nil_r; apply U.
Qed.

(** ** What a valid document holds *)

Lemma validate_Valid v s co doc :
  validate v s co = Valid doc <-> run s co v [] = ([], Some (valid, doc)).
Proof.
  unfold validate. destruct (run s co v []) as [[|f fs] [[[| |] r]|]];
    split; intros H; try discriminate; try congruence.
Qed.

Lemma refine_valid s name f co v p r :
  (forall w q, refiner s w q = ret tt) ->
  run (refine s name f) co v p = ([], Some (valid, r)) ->
  run s co v p = ([], Some (valid, r)) /\ fst (f r p) = [].
Proof.
  intros T. rewrite (run_refine s name f co v p T).
  destruct (run s co v p) as [fs [[st cur]|]] eqn:R; [|discriminate].
  pose proof (run_status _ _ _ _ _ _ _ R) as S.
  destruct st; try discriminate.
  - destruct (f cur p) as [msgs [u|]] eqn:F; [|discriminate].
    intros [= H1 H2 ->]. apply app_eq_nil in H1 as [-> H1].
    apply map_eq_nil in H1. subst msgs. rewrite F. now split.
  - destruct (f cur p) as [msgs [u|]] eqn:F; [|discriminate].
    intros [= H1 H2 ->]. apply app_eq_nil in H1 as [-> H1].
    destruct S as [_ S]. now specialize (S eq_refl).
Qed.

(** A valid object holds, under each known key, what the struct of the
    key made of the value found there. *)
Lemma object_valid_lookup schema v p r k0 s0 ofs :
  own_entries v = Some ofs ->
  NoDup (map fst schema) ->
  In (k0, s0) schema ->
  run (object schema) true v p = ([], Some (valid, r)) ->
  run s0 true (lookup v k0) (p ++ [k0]) = ([], Some (valid, lookup r k0)).
Proof.
  intros O N I. rewrite (run_object true schema v p ofs O).
  destruct (run_children true p (known_entries (VObj ofs) schema) valid _)
    as [kfs [[st cur]|]] eqn:C; [|discriminate].
  intros [= H1 H2 ->]. apply app_eq_nil in H1 as [-> _].
  apply (known_children_valid true p (VObj ofs) schema N) in C
    as [_ (c' & -> & _ & K & _)].
  destruct (K k0 s0 I) as (y & R & L).
  rewrite (lookup_spread v k0 ofs O) in R. now rewrite (L eq_refl).
Qed.

Lemma values_valid_lookup V co p fs ys k0 x :
  values_valid V co p fs ys -> NoDup (map fst fs) -> assoc k0 fs = Some x ->
  run V co x (p ++ [k0])
  = ([], Some (valid, lookup (VObj (combine (map fst fs) ys)) k0)).
Proof.
  unfold lookup. cbn [own_entries].
  induction 1 as [|[k z] y fs ys R _ IH]; [discriminate|].
  intros N A. inversion N as [|? ? N1 N2]; subst. cbn [map combine fst assoc] in *.
  destruct (String.eqb_spec k0 k) as [->|D].
  - injection A as ->. exact R.
  - now apply IH.
Qed.

(** A valid record holds, under each key, what the struct of the values
    made of the value found there. *)
Lemma record_valid_lookup V fs p r k0 x :
  NoDup (map fst fs) -> assoc k0 fs = Some x ->
  run (record string_ V) true (VObj fs) p = ([], Some (valid, r)) ->
  run V true x (p ++ [k0]) = ([], Some (valid, lookup r k0)).
Proof.
  intros N A R. apply (run_record_valid true V p fs valid r N) in R
    as [_ (ys & Vs & ->)].
  now apply values_valid_lookup.
Qed.

(** In a valid document, the run of [EnvArrayStruct] on an env sequence
    is valid, and the document holds its result at the path of the
    sequence. *)
Lemma env_sequence_valid raw doc p xs :
  validate raw BuildTypesStruct true = Valid doc ->
  env_sequence raw p xs ->
  run EnvArrayStruct true (VArr xs) p = ([], Some (valid, at_path doc p)).
Proof.
  intros V E. apply validate_Valid in V. unfold BuildTypesStruct in V.
  apply refine_valid in V as [V _]; [|reflexivity].
  destruct E as [xs G | bts name bt xs B N A L | fts name ft xs F N A L].
  - assert (exists ofs0, own_entries raw = Some ofs0) as [ofs O]
      by (apply (lookup_own raw "env"); rewrite G; discriminate).
    pose proof (object_valid_lookup _ _ _ _ "env" EnvArrayStruct ofs O
                  distinct_document_keys ltac:(cbn; tauto) V) as R.
    now rewrite G in R.
  - assert (exists ofs0, own_entries raw = Some ofs0) as [ofs O]
      by (apply (lookup_own raw "buildTypes"); rewrite B; discriminate).
    pose proof (object_valid_lookup _ _ _ _ "buildTypes"
                  (record string_ BuildTypeStruct) ofs O
                  distinct_document_keys ltac:(cbn; tauto) V) as R1.
    rewrite B in R1.
    pose proof (record_valid_lookup _ _ _ _ name bt N A R1) as R2.
    assert (exists ofs0, own_entries bt = Some ofs0) as [ofs' O']
      by (apply (lookup_own bt "env"); rewrite L; discriminate).
    unfold BuildTypeStruct in R2.
    pose proof (object_valid_lookup _ _ _ _ "env" (optional EnvArrayStruct)
                  ofs' O' distinct_build_type_keys ltac:(cbn; tauto) R2) as R3.
    now rewrite L, run_optional_EnvArrayStruct in R3.
  - assert (exists ofs0, own_entries raw = Some ofs0) as [ofs O]
      by (apply (lookup_own raw "features"); rewrite F; discriminate).
    pose proof (object_valid_lookup _ _ _ _ "features" FeaturesStruct ofs O
                  distinct_document_keys ltac:(cbn; tauto) V) as R1.
    rewrite F in R1. unfold FeaturesStruct in R1.
    apply refine_valid in R1 as [R1 _]; [|reflexivity].
    pose proof (record_valid_lookup _ _ _ _ name ft N A R1) as R2.
    assert (exists ofs0, own_entries ft = Some ofs0) as [ofs' O']
      by (apply (lookup_own ft "env"); rewrite L; discriminate).
    rewrite run_feature in R2 by (intros ->; discriminate).
    unfold FeatureStruct in R2.
    pose proof (object_valid_lookup _ _ _ _ "env" (optional EnvArrayStruct)
                  ofs' O' distinct_feature_keys ltac:(cbn; tauto) R2) as R3.
    now rewrite L, run_optional_EnvArrayStruct in R3.
Qed.

Lemma EnvArrayStruct_valid xs p r :
  run EnvArrayStruct true (VArr xs) p = ([], Some (valid, r)) ->
  exists ys, r = VArr ys /\ elements_valid EnvEntry true p 0 xs ys.
Proof.
  unfold EnvArrayStruct, unique. intros R.
  apply refine_valid in R as [R _]; [|reflexivity].
  apply run_array_valid in R as [_ (ys & V & ->)]. now exists ys.
Qed.

Lemma valid_no_failures raw failures r doc :
  run BuildTypesStruct true raw [] = (failures, Some r) ->
  validate raw BuildTypesStruct true = Valid doc -> failures = [].
Proof.
  intros R. unfold validate. rewrite R.
  destruct failures as [|f fs]; [reflexivity|]. discriminate.
Qed.

(** ** The default build type *)



Lemma run_children_object co p es st c fs st' cur' :
  run_children co p es st (VObj c) = (fs, Some (st', cur')) ->
  exists c', cur' = VObj c'.
Proof.
  revert st c fs. induction es as [|[[k x] s'] es IH]; intros st c fs.
  - cbn. intros [= <- <- <-]. now exists c.
  - rewrite run_children_cons.
    destruct (run s' co x (p ++ [k])) as [fs1 [[st1 x1]|]]; [|discriminate].
    assert (W : exists c1, write_back co st1 (VObj c) k x1 = VObj c1).
    { unfold write_back. destruct st1, co; try (now exists c).
      apply store_is_object. }
    destruct W as [c1 ->].
    destruct (run_children co p es _ _) as [fs2 [[st2 cur2]|]] eqn:C;
      cbn [fst snd]; [|discriminate].
    intros [= <- <- <-]. exact (IH _ _ _ C).
Qed.



Lemma map_fst_combine (ks : list string) (ys : list value) :
  length ys = length ks -> map fst (combine ks ys) = ks.
Proof.
  revert ys. induction ks as [|k ks IH]; intros [|y ys]; cbn; try discriminate;
    try reflexivity.
  intros [= H]. now rewrite IH.
Qed.

Lemma includes_strings ks d :
  includes (map VStr ks) (VStr d) = true <-> In d ks.
Proof.
  unfold includes. rewrite existsb_exists. split.
  - intros (y & I & E). apply in_map_iff in I as (k & <- & I).
    cbn in E. apply String.eqb_eq in E. now subst.
  - intros I. exists (VStr d). split; [now apply in_map|].
    cbn. apply String.eqb_refl.
Qed.



(** ** The feature check *)

Lemma scan_env_app a b defs :
  scan_env (a ++ b) defs =
  match scan_env a defs with
  | (msgs, None) => (msgs, None)
  | (msgs, Some defs') =>
      (msgs ++ fst (scan_env b defs'), snd (scan_env b defs'))
  end.
Proof.
  revert defs. induction a as [|e a IH]; intros defs.
  - cbn. now destruct (scan_env b defs).
  - cbn [app scan_env]. destruct (is_string e); [apply IH|].
    destruct (get e "key") as [k|]; [|reflexivity].
    rewrite IH. destruct (scan_env a _) as [msgs [defs'|]]; cbn [fst snd];
      [|reflexivity].
    now rewrite app_assoc.
Qed.

(** The set of the keys seen so far is carried from one feature to the
    next: the scan of the features is the scan of their entries put end
    to end. *)
Lemma scan_features_concat features envs defs :
  Forall2 (fun f es => env_of f = Some es) features envs ->
  scan_features features defs = scan_env (concat envs) defs.
Proof.
  intros H. revert defs. induction H as [|f es features envs E _ IH]; intros defs.
  - reflexivity.
  - cbn [scan_features concat]. rewrite E, scan_env_app.
    destruct (scan_env es defs) as [msgs [defs'|]]; [|reflexivity].
    rewrite IH. now destruct (scan_env (concat envs) defs').
Qed.

Lemma get_key e k : get e "key" = Some k -> k = lookup e "key".
Proof. unfold get. destruct e; congruence. Qed.

(** On normalized entries the scan does not throw, and yields one
    message for every key in object form that was seen before. *)
Lemma scan_env_entries es defs :
  Forall entry_like es ->
  exists msgs defs',
    scan_env es defs = (msgs, Some defs')
    /\ length msgs = repeated defs (object_keys es)
    /\ (forall k, includes defs k = true -> includes defs' k = true).
Proof.
  intros H. revert defs. induction H as [|e es E _ IH]; intros defs.
  - exists [], defs. now repeat split.
  - cbn [scan_env object_keys flat_map].
    fold (object_keys es).
    destruct (is_string e) eqn:S.
    + destruct (IH defs) as (msgs & defs' & R & L & M).
      exists msgs, defs'. now repeat split.
    + destruct E as [E|[k E]]; [congruence|]. rewrite E.
      rewrite <- (get_key e (VStr k) E). cbn [app repeated].
      destruct (IH (if includes defs (VStr k) then defs else defs ++ [VStr k]))
        as (msgs & defs' & R & L & M).
      rewrite R. eexists _, defs'. split; [reflexivity|]. split.
      * rewrite length_app, L. now destruct (includes defs (VStr k)).
      * intros k' I. apply M. destruct (includes defs (VStr k)); [exact I|].
        unfold includes in *. rewrite existsb_app, I. reflexivity.
Qed.

Lemma includes_added defs k :
  includes (if includes defs (VStr k) then defs else defs ++ [VStr k]) (VStr k)
  = true.
Proof.
  destruct (includes defs (VStr k)) eqn:I; [exact I|].
  unfold includes. rewrite existsb_app. cbn. now rewrite String.eqb_refl, orb_true_r.
Qed.

(** Two entries in object form with the same key, anywhere in the
    scanned entries: the second one is reported. *)
Lemma scan_env_repeated pre e1 mid e2 post defs k :
  Forall entry_like (pre ++ e1 :: mid) ->
  is_string e1 = false -> get e1 "key" = Some (VStr k) ->
  is_string e2 = false -> get e2 "key" = Some (VStr k) ->
  In (conflict e2) (fst (scan_env (pre ++ e1 :: mid ++ e2 :: post) defs)).
Proof.
  intros F S1 K1 S2 K2. apply Forall_app in F as [Fp F].
  inversion F as [|? ? _ Fm]; subst.
  rewrite scan_env_app.
  destruct (scan_env_entries pre defs Fp) as (m0 & d0 & -> & _ & _).
  cbn [fst]. apply in_or_app. right.
  cbn [scan_env]. rewrite S1, K1.
  change (e1 :: mid ++ e2 :: post) with ([e1] ++ mid ++ e2 :: post).
  destruct (scan_env (mid ++ e2 :: post) _) as [msgs r] eqn:R. cbn [fst].
  apply in_or_app. right.
  rewrite scan_env_app in R.
  destruct (scan_env_entries mid
              (if includes d0 (VStr k) then d0 else d0 ++ [VStr k]) Fm)
    as (m1 & d1 & R1 & _ & M).
  rewrite R1 in R. cbn [scan_env] in R. rewrite S2, K2 in R.
  rewrite (M (VStr k) (includes_added d0 k)) in R.
  destruct (scan_env post d1) as [m2 r2]. cbn [fst snd app] in R.
  injection R as <- _. apply in_or_app. right. now left.
Qed.

Lemma feature_definitions_scan fts envs p :
  Forall2 feature_like (map snd fts) envs ->
  feature_definitions (VObj fts) p
  = (fst (scan_env (concat envs) []),
     match snd (scan_env (concat envs) []) with
     | Some _ => Some tt
     | None => None
     end).
Proof.
  intros F. unfold feature_definitions. cbn [values own_entries].
  rewrite (scan_features_concat (map snd fts) envs []).
  - now destruct (scan_env (concat envs) []) as [msgs [d|]].
  - eapply Forall2_impl; [|exact F]. now intros f es [E _].
Qed.

Lemma refiner_FeaturesStruct v p :
  refiner FeaturesStruct v p
  = (map (fun msg => mkFailure msg p (Some "feature definitions"))
       (fst (feature_definitions v p)),
     snd (feature_definitions v p)).
Proof. unfold FeaturesStruct. rewrite refiner_refine. reflexivity. Qed.


(** ** The loader *)

Section LoaderProperties.
Variable BUILDS_YML_PATH : string.

Let load := loadBuildTypesConfig BUILDS_YML_PATH.

Lemma load_cached st r file :
  cachedBuildTypes st = Some r -> load file st = (Returned r, st).
Proof. intros H. unfold load, loadBuildTypesConfig. now rewrite H. Qed.

Lemma load_valid st tree doc :
  cachedBuildTypes st = None ->
  validate tree BuildTypesStruct true = Valid doc ->
  load (Some tree) st =
  (Returned (length (heap st)),
   mkProcess (Some (S (length (heap st))))
     (heap st ++ [written_in_place tree doc; doc]) (S (reads st))).
Proof.
  intros C V. unfold load, loadBuildTypesConfig, alloc. rewrite C, V.
  cbn. rewrite length_app, <- app_assoc. cbn. now rewrite Nat.add_1_r.
Qed.

Lemma load_not_valid st file :
  cachedBuildTypes st = None ->
  (forall tree doc, file = Some tree ->
                    validate tree BuildTypesStruct true <> Valid doc) ->
  exists c h,
    load file st = (c, mkProcess None h (S (reads st)))
    /\ forall r, c <> Returned r.
Proof.
  intros C V. unfold load, loadBuildTypesConfig, alloc. rewrite C.
  destruct file as [tree|]; cbn.
  - destruct (validate tree BuildTypesStruct true) as [doc|err|] eqn:E.
    + now destruct (V tree doc eq_refl).
    + destruct (constructFailureMessage BUILDS_YML_PATH err);
        eexists _, _; (split; [reflexivity | discriminate]).
    + eexists _, _. split; [reflexivity | discriminate].
  - eexists _, _. split; [reflexivity | discriminate].
Qed.

(** The first call returns the tree it decoded, as validation left it,
    the second the validated copy; the file is read once. *)
Lemma load_twice st tree doc file' :
  cachedBuildTypes st = None ->
  validate tree BuildTypesStruct true = Valid doc ->
  let '(first, st1) := load (Some tree) st in
  let '(second, st2) := load file' st1 in
  first = Returned (length (heap st))
  /\ second = Returned (S (length (heap st)))
  /\ deref st2 (length (heap st)) = Some (written_in_place tree doc)
  /\ deref st2 (S (length (heap st))) = Some doc
  /\ reads st2 = S (reads st).
Proof.
  intros C V. rewrite (load_valid st tree doc C V).
  rewrite (load_cached _ (S (length (heap st)))) by reflexivity.
  unfold deref. cbn [heap reads].
  repeat split.
  - rewrite nth_error_app2, Nat.sub_diag by lia. reflexivity.
  - rewrite nth_error_app2 by lia.
    replace (S (length (heap st)) - length (heap st)) with 1 by lia.
    reflexivity.
Qed.

End LoaderProperties.

(** ** The shape of what is valid *)

Lemma entry_schema_valid_key v p r :
  run (object entry_schema) false v p = ([], Some (valid, r)) ->
  exists k, get v "key" = Some (VStr k).
Proof.
  destruct (own_entries v) as [ofs|] eqn:O;
    [|now rewrite (run_object_not_object _ _ _ _ O)].
  rewrite (run_object false entry_schema v p ofs O).
  change (known_entries v entry_schema)
    with [("key", lookup v "key", string_); ("value", lookup v "value", unknown)].
  rewrite run_children_cons, run_string_.
  destruct (lookup v "key") as [| | | |k| |] eqn:K; cbn [is_string];
    try (destruct (run_children _ _ _ _ _) as [? [[? ?]|]]; discriminate).
  intros _. exists k. unfold get. rewrite K.
  destruct v; try reflexivity; discriminate.
Qed.

Lemma EnvEntry_valid_like x p y :
  run EnvEntry true x p = ([], Some (valid, y)) -> entry_like y.
Proof.
  unfold EnvEntry. rewrite run_union.
  destruct (first_valid [string_; EnvDefinitionStruct] x) as [v1|];
    [|discriminate].
  destruct (union_failures _ v1 p) as [[fs|]|] eqn:U; try discriminate.
  intros [= <-]. cbn [union_failures] in U. rewrite run_string_ in U.
  destruct (is_string v1) eqn:S; [now left|]. right.
  unfold EnvDefinitionStruct in U. rewrite run_coerce in U.
  destruct (run (object [("key", string_); ("value", unknown)]) false v1 p)
    as [[|f fs] [[[| |] r]|]] eqn:R; try discriminate.
  exact (entry_schema_valid_key v1 p r R).
Qed.

Lemma elements_valid_like p n xs ys :
  elements_valid EnvEntry true p n xs ys -> Forall entry_like ys.
Proof.
  induction 1 as [|n x y xs ys R _ IH]; constructor; [|exact IH].
  exact (EnvEntry_valid_like x _ y R).
Qed.

Lemma run_array_not_array co E v p :
  is_array v = false ->
  run (array E) co v p =
  ([fail_here p ("Expected an array value, but received: " ++ print v)%string],
   Some (not_valid, v)).
Proof.
  intros A. rewrite run_eq. cbn [array coercer validator entries].
  replace (if co then Some v else Some v) with (Some v) by now destruct co.
  rewrite A. now destruct v.
Qed.

(** A valid optional env sequence is absent, or an array of normalized
    entries that validation made of an array. *)
Lemma optional_env_valid v p r :
  run (optional EnvArrayStruct) true v p = ([], Some (valid, r)) ->
  (v = VUndefined /\ r = VUndefined)
  \/ exists xs ys, v = VArr xs /\ r = VArr ys
                   /\ elements_valid EnvEntry true p 0 xs ys.
Proof.
  destruct (is_array v) eqn:A.
  - destruct v; try discriminate. rewrite run_optional_EnvArrayStruct.
    intros R. apply EnvArrayStruct_valid in R as (ys & -> & EV).
    right. now exists xs, ys.
  - destruct v; try discriminate;
      try (rewrite run_optional_defined by (intros ? [= <-]; discriminate);
           unfold EnvArrayStruct, unique; intros R;
           apply refine_valid in R as [R _]; [|reflexivity];
           now rewrite run_array_not_array in R).
    intros R. left. split; [reflexivity|].
    rewrite run_optional_undefined in R by reflexivity. now injection R as <-.
Qed.

Lemma object_valid_is_object schema v p fs st r :
  run (object schema) true v p = (fs, Some (st, r)) -> st <> not_valid ->
  exists c, r = VObj c.
Proof.
  destruct (own_entries v) as [ofs|] eqn:O.
  - rewrite (run_object true schema v p ofs O).
    destruct (run_children true p _ valid (VObj ofs)) as [kfs [[st1 cur]|]] eqn:C;
      [|discriminate].
    intros [= _ _ <-] _. exact (run_children_object _ _ _ _ _ _ _ _ C).
  - rewrite (run_object_not_object true schema v p O). intros [= _ <- _].
    congruence.
Qed.

(** A valid feature is normalized. *)
Lemma feature_valid_like f ft p y :
  run (coerce FeatureStruct (nullable never) f) true ft p
  = ([], Some (valid, y)) ->
  f ft = Some (VObj []) ->
  exists es, feature_like y es.
Proof.
  intros R Ff.
  assert (R' : exists ft', run FeatureStruct true ft' p = ([], Some (valid, y))).
  { rewrite run_coerce, is_null in R. destruct ft; try (now exists (VObj []));
      try (eexists; exact R). rewrite Ff in R. now exists (VObj []). }
  clear R. destruct R' as [ft' R]. unfold FeatureStruct in R.
  destruct (object_valid_is_object _ _ _ _ _ _ R ltac:(discriminate)) as [c ->].
  destruct (own_entries ft') as [ofs|] eqn:O;
    [|now rewrite (run_object_not_object _ _ _ _ O) in R].
  pose proof (object_valid_lookup _ _ _ _ "env" (optional EnvArrayStruct)
                ofs O distinct_feature_keys ltac:(cbn; tauto) R) as E.
  apply optional_env_valid in E as [[_ E]|(xs & ys & _ & E & EV)].
  - exists []. split; [|constructor]. unfold env_of. now rewrite E.
  - exists ys. split; [unfold env_of; now rewrite E|].
    exact (elements_valid_like _ _ _ _ EV).
Qed.

Lemma values_valid_like f p fs ys :
  (forall v, f v = Some (VObj [])) ->
  values_valid (coerce FeatureStruct (nullable never) f) true p fs ys ->
  exists envs, Forall2 feature_like ys envs.
Proof.
  intros Ff. induction 1 as [|[k x] y fs ys R _ [envs IH]].
  - exists []. constructor.
  - destruct (feature_valid_like f x _ y R (Ff x)) as [es E].
    exists (es :: envs). now constructor.
Qed.

(** ** Bare strings in an env sequence (C1) *)

(** C1, as the code has it.  In a valid document, every env sequence (the
    global one, the one of a build type, the one of a feature) comes back
    with as many entries; a bare string ["FOO"] stays the bare string at
    its position, and an object with one property [{FOO: v}] becomes
    [{key: "FOO", value: v}]. *)
Theorem bare_string_entries_stay raw doc p xs :
  validate raw BuildTypesStruct true = Valid doc ->
  env_sequence raw p xs ->
  exists ys,
    at_path doc p = VArr ys
    /\ length ys = length xs
    /\ (forall i s, nth_error xs i = Some (VStr s) ->
                    nth_error ys i = Some (VStr s))
    /\ (forall i k v, nth_error xs i = Some (VObj [(k, v)]) ->
                      nth_error ys i
                      = Some (VObj [("key", VStr k); ("value", v)])).
Proof.
  intros V E. pose proof (env_sequence_valid raw doc p xs V E) as R.
  apply EnvArrayStruct_valid in R as (ys & -> & EV). exists ys.
  split; [reflexivity|]. split; [now apply (elements_valid_length _ _ _ _ _ _ EV)|].
  split.
  - intros i s I.
    destruct (elements_valid_nth _ _ _ _ _ _ i _ EV I) as (y & Y & Ry).
    rewrite run_EnvEntry_string in Ry. now injection Ry as <-.
  - intros i k v I.
    destruct (elements_valid_nth _ _ _ _ _ _ i _ EV I) as (y & Y & Ry).
    rewrite run_EnvEntry_object in Ry. cbn [normal_entry] in Ry.
    rewrite accepted_normal_entry in Ry. now injection Ry as <-.
Qed.

Lemma bare_string_entries_stay_witness :
  let raw := a_document "stable" [VStr "FOO"] in
  validate raw BuildTypesStruct true = Valid raw
  /\ env_sequence raw ["env"] [VStr "FOO"]
  /\ exists ys, at_path raw ["env"] = VArr ys
                /\ nth_error ys 0 = Some (VStr "FOO").
Proof.
  cbv zeta.
  assert (V : validate (a_document "stable" [VStr "FOO"]) BuildTypesStruct true
              = Valid (a_document "stable" [VStr "FOO"]))
    by (vm_compute; reflexivity).
  assert (E : env_sequence (a_document "stable" [VStr "FOO"]) ["env"] [VStr "FOO"])
    by (constructor; reflexivity).
  split; [exact V|]. split; [exact E|].
  destruct (bare_string_entries_stay _ _ _ _ V E) as (ys & A & _ & S & _).
  exists ys. split; [exact A|]. now apply S.
Defined.

(** C1 as stated fails: validation leaves the bare string ["FOO"] in the
    global env sequence, and turns [{FOO: undefined}] into
    [{key: "FOO", value: undefined}]; the two results differ. *)
Lemma bare_string_counterexample :
  let canonical := VObj [("key", VStr "FOO"); ("value", VUndefined)] in
  validate (a_document "stable" [VStr "FOO"]) BuildTypesStruct true
  = Valid (a_document "stable" [VStr "FOO"])
  /\ validate (a_document "stable" [VObj [("FOO", VUndefined)]])
       BuildTypesStruct true
     = Valid (a_document "stable" [canonical])
  /\ at_path (a_document "stable" [VStr "FOO"]) ["env"; "0"] = VStr "FOO"
  /\ at_path (a_document "stable" [canonical]) ["env"; "0"] = canonical
  /\ VStr "FOO" <> canonical.
Proof.
  cbv zeta. repeat split; try (vm_compute; reflexivity). discriminate.
Qed.

(** ** Conflicts between features (C2) *)

Lemma run_fields_plain s co v p :
  (forall w q, refiner s w q = ret tt) ->
  run (fields_of s) co v p = run s co v p.
Proof.
  intros T. rewrite (run_fields s).
  destruct (run (fields_of s) co v p) as [fs [[st cur]|]]; [|reflexivity].
  unfold run_refiner. rewrite T. destruct st; cbn; now rewrite ?app_nil_r.
Qed.

Lemma map_snd_combine (ks : list string) (ys : list value) :
  length ys = length ks -> map snd (combine ks ys) = ys.
Proof.
  revert ys. induction ks as [|k ks IH]; intros [|y ys]; cbn; try discriminate;
    try reflexivity.
  intros [= H]. now rewrite IH.
Qed.

Lemma Forall2_concat_like nfs envs :
  Forall2 feature_like nfs envs -> Forall entry_like (concat envs).
Proof.
  induction 1 as [|f es fs ess [_ E] _ IH]; [constructor|].
  cbn. apply Forall_app. now split.
Qed.

(** The valid features of a map come back normalized, under the same
    names. *)
Lemma features_fields_valid fts p cur :
  NoDup (map fst fts) ->
  run (fields_of FeaturesStruct) true (VObj fts) p = ([], Some (valid, cur)) ->
  exists nfs envs,
    values_valid (coerce FeatureStruct (nullable never) (fun _ => Some (VObj [])))
      true p fts nfs
    /\ cur = VObj (combine (map fst fts) nfs)
    /\ Forall2 feature_like nfs envs.
Proof.
  intros N. unfold FeaturesStruct. rewrite fields_of_refine.
  rewrite run_fields_plain by reflexivity. intros R.
  apply (run_record_valid true _ p fts valid cur N) in R as [_ (nfs & Vs & ->)].
  destruct (values_valid_like _ p fts nfs (fun _ => eq_refl) Vs) as [envs L].
  now exists nfs, envs.
Qed.

(** The run of [FeaturesStruct] on a map of valid features: one failure
    of the feature check for every entry in object form whose key was
    seen in such an entry before. *)
Lemma run_FeaturesStruct_valid_fields fts p nfs envs :
  NoDup (map fst fts) ->
  run (fields_of FeaturesStruct) true (VObj fts) p
  = ([], Some (valid, VObj (combine (map fst fts) nfs))) ->
  length nfs = length fts ->
  Forall2 feature_like nfs envs ->
  exists msgs defs,
    scan_env (concat envs) [] = (msgs, Some defs)
    /\ length msgs = repeated [] (object_keys (concat envs))
    /\ run FeaturesStruct true (VObj fts) p
       = (map (fun msg => mkFailure msg p (Some "feature definitions")) msgs,
          Some (match msgs with [] => valid | _ :: _ => not_refined end,
                VObj (combine (map fst fts) nfs))).
Proof.
  intros N R Ln L.
  destruct (scan_env_entries (concat envs) [] (Forall2_concat_like _ _ L))
    as (msgs & defs & S & Lm & _).
  exists msgs, defs. split; [exact S|]. split; [exact Lm|].
  rewrite run_fields, R. unfold run_refiner.
  rewrite refiner_FeaturesStruct.
  rewrite (feature_definitions_scan _ envs p)
    by (rewrite map_snd_combine; [exact L | now rewrite length_map]).
  rewrite S. cbn [fst snd app]. unfold bind, yield_all, ret. cbn.
  rewrite app_nil_r. now destruct msgs.
Qed.

Lemma feature_entry_normalized f ft q y es xs k v :
  run (coerce FeatureStruct (nullable never) f) true ft q
  = ([], Some (valid, y)) ->
  feature_like y es ->
  lookup ft "env" = VArr xs -> In (VObj [(k, v)]) xs ->
  In (VObj [("key", VStr k); ("value", v)]) es.
Proof.
  intros R [E _] L I.
  assert (exists ofs0, own_entries ft = Some ofs0) as [ofs O]
    by (apply (lookup_own ft "env"); rewrite L; discriminate).
  rewrite run_feature in R by (intros ->; discriminate).
  unfold FeatureStruct in R.
  destruct (object_valid_is_object _ _ _ _ _ _ R ltac:(discriminate)) as [c ->].
  pose proof (object_valid_lookup _ _ _ _ "env" (optional EnvArrayStruct)
                ofs O distinct_feature_keys ltac:(cbn; tauto) R) as Ev.
  rewrite L, run_optional_EnvArrayStruct in Ev.
  apply EnvArrayStruct_valid in Ev as (ys & Ey & EV).
  unfold env_of in E. rewrite Ey in E. cbn in E. injection E as <-.
  apply In_nth_error in I as [i I].
  destruct (elements_valid_nth _ _ _ _ _ _ i _ EV I) as (z & Z & Rz).
  rewrite run_EnvEntry_object in Rz. cbn [normal_entry] in Rz.
  rewrite accepted_normal_entry in Rz. injection Rz as <-.
  exact (nth_error_In _ _ Z).
Qed.

Lemma values_valid_app V co p fs1 fs2 ys :
  values_valid V co p (fs1 ++ fs2) ys ->
  exists ys1 ys2, ys = ys1 ++ ys2 /\ values_valid V co p fs1 ys1
                  /\ values_valid V co p fs2 ys2.
Proof.
  intros H. apply Forall2_app_inv_l in H as (ys1 & ys2 & H1 & H2 & ->).
  now exists ys1, ys2.
Qed.

(** Two features, the second after the first in the map, each with an
    entry in object form declaring [k]: the normalized entry of the
    second is reported. *)
Lemma later_feature_reported V fa n1 f1 fb n2 f2 fc p nfs envs xs1 xs2 k v1 v2 :
  V = coerce FeatureStruct (nullable never) (fun _ => Some (VObj [])) ->
  values_valid V true p (fa ++ (n1, f1) :: fb ++ (n2, f2) :: fc) nfs ->
  Forall2 feature_like nfs envs ->
  lookup f1 "env" = VArr xs1 -> In (VObj [(k, v1)]) xs1 ->
  lookup f2 "env" = VArr xs2 -> In (VObj [(k, v2)]) xs2 ->
  In (conflict (VObj [("key", VStr k); ("value", v2)]))
     (fst (scan_env (concat envs) [])).
Proof.
  intros -> Vs L L1 I1 L2 I2.
  apply values_valid_app in Vs as (na & nr & -> & Va & Vr).
  inversion Vr as [|? y1 ? nr' R1 Vr']; subst. cbn [fst snd] in R1.
  apply values_valid_app in Vr' as (nb & nr2 & -> & Vb & Vr2).
  inversion Vr2 as [|? y2 ? nc R2 Vc]; subst. cbn [fst snd] in R2.
  apply Forall2_app_inv_l in L as (ea & er & La & Lr & ->).
  inversion Lr as [|? ? ? er' F1 Lr']; subst.
  apply Forall2_app_inv_l in Lr' as (eb & er2 & Lb & Lr2 & ->).
  inversion Lr2 as [|? ? ? ec F2 Lc]; subst.
  pose proof (feature_entry_normalized _ _ _ _ _ _ _ _ R1 F1 L1 I1) as J1.
  pose proof (feature_entry_normalized _ _ _ _ _ _ _ _ R2 F2 L2 I2) as J2.
  apply in_split in J1 as (pre1 & post1 & ->).
  apply in_split in J2 as (pre2 & post2 & ->).
  assert (All : Forall entry_like
                  (concat (ea ++ (pre1 ++ VObj [("key", VStr k); ("value", v1)]
                                        :: post1)
                              :: eb ++ (pre2 ++ VObj [("key", VStr k); ("value", v2)]
                                             :: post2) :: ec))).
  { apply Forall2_concat_like with (nfs := na ++ y1 :: nb ++ y2 :: nc).
    apply Forall2_app; [exact La|]. constructor; [exact F1|].
    apply Forall2_app; [exact Lb|]. constructor; [exact F2 | exact Lc]. }
  rewrite concat_app in *. cbn [concat] in *. rewrite concat_app in *.
  cbn [concat] in *.
  replace (concat ea ++ (pre1 ++ VObj [("key", VStr k); ("value", v1)] :: post1)
           ++ concat eb ++ (pre2 ++ VObj [("key", VStr k); ("value", v2)] :: post2)
           ++ concat ec)
    with ((concat ea ++ pre1)
          ++ VObj [("key", VStr k); ("value", v1)]
          :: (post1 ++ concat eb ++ pre2)
          ++ VObj [("key", VStr k); ("value", v2)] :: (post2 ++ concat ec)) in *
    by (repeat (rewrite <- app_assoc || rewrite <- app_comm_cons); reflexivity).
  apply (scan_env_repeated _ _ _ _ _ [] k); try reflexivity.
  apply Forall_app in All as [A1 A2]. apply Forall_app. split; [exact A1|].
  inversion A2 as [|? ? A3 A4]; subst. constructor; [exact A3|].
  apply Forall_app in A4 as [A4 _]. exact A4.
Qed.

Lemma two_features_in_order (fts : list (string * value)) n1 f1 n2 f2 :
  n1 <> n2 -> In (n1, f1) fts -> In (n2, f2) fts ->
  (exists fa fb fc, fts = fa ++ (n1, f1) :: fb ++ (n2, f2) :: fc)
  \/ (exists fa fb fc, fts = fa ++ (n2, f2) :: fb ++ (n1, f1) :: fc).
Proof.
  intros D I1 I2. apply in_split in I1 as (l1 & l2 & ->).
  apply in_app_or in I2 as [I2|[I2|I2]].
  - right. apply in_split in I2 as (a & b & ->). exists a, b, l2.
    now rewrite <- app_assoc.
  - congruence.
  - left. apply in_split in I2 as (a & b & ->). now exists l1, a, b.
Qed.

(** The run of [FeaturesStruct] on a features map whose features are all
    valid: one failure of the refinement "feature definitions" for every
    env entry in object form whose key was declared by such an entry
    before, and two distinct features declaring the same key in object
    form give at least one. *)
Lemma run_FeaturesStruct_conflicts fts p cur :
  NoDup (map fst fts) ->
  run (fields_of FeaturesStruct) true (VObj fts) p = ([], Some (valid, cur)) ->
  exists nfs envs msgs,
    cur = VObj (combine (map fst fts) nfs)
    /\ Forall2 feature_like nfs envs
    /\ run FeaturesStruct true (VObj fts) p
       = (map (fun msg => mkFailure msg p (Some "feature definitions")) msgs,
          Some (match msgs with [] => valid | _ :: _ => not_refined end, cur))
    /\ length msgs = repeated [] (object_keys (concat envs))
    /\ (forall n1 f1 xs1 v1 n2 f2 xs2 v2 k,
          n1 <> n2 ->
          assoc n1 fts = Some f1 -> lookup f1 "env" = VArr xs1 ->
          In (VObj [(k, v1)]) xs1 ->
          assoc n2 fts = Some f2 -> lookup f2 "env" = VArr xs2 ->
          In (VObj [(k, v2)]) xs2 ->
          msgs <> []).
Proof.
  intros N R.
  destruct (features_fields_valid fts p cur N R) as (nfs & envs & Vs & -> & L).
  assert (Ln : length nfs = length fts)
    by (symmetry; exact (Forall2_length Vs)).
  destruct (run_FeaturesStruct_valid_fields fts p nfs envs N R Ln L)
    as (msgs & defs & S & Lm & Rf).
  exists nfs, envs, msgs. split; [reflexivity|]. split; [exact L|].
  split; [exact Rf|]. split; [exact Lm|].
  intros n1 f1 xs1 v1 n2 f2 xs2 v2 k D A1 L1 I1 A2 L2 I2 E.
  assert (M : forall e, ~ In (conflict e) (fst (scan_env (concat envs) [])))
    by (intros e; rewrite S, E; intros []).
  destruct (two_features_in_order fts n1 f1 n2 f2 D (assoc_In _ _ _ A1)
              (assoc_In _ _ _ A2)) as [(fa & fb & fc & ->)|(fa & fb & fc & ->)].
  - apply (M (VObj [("key", VStr k); ("value", v2)])).
    exact (later_feature_reported _ fa n1 f1 fb n2 f2 fc p nfs envs xs1 xs2 k
             v1 v2 eq_refl Vs L L1 I1 L2 I2).
  - apply (M (VObj [("key", VStr k); ("value", v1)])).
    exact (later_feature_reported _ fa n2 f2 fb n1 f1 fc p nfs envs xs2 xs1 k
             v2 v1 eq_refl Vs L L2 I2 L1 I1).
Qed.

(** A document whose features map has two distinct features declaring
    the same key in object form is not valid. *)
Lemma conflicting_document_not_valid raw fts n1 f1 xs1 v1 n2 f2 xs2 v2 k doc :
  lookup raw "features" = VObj fts -> NoDup (map fst fts) ->
  n1 <> n2 ->
  assoc n1 fts = Some f1 -> lookup f1 "env" = VArr xs1 ->
  In (VObj [(k, v1)]) xs1 ->
  assoc n2 fts = Some f2 -> lookup f2 "env" = VArr xs2 ->
  In (VObj [(k, v2)]) xs2 ->
  validate raw BuildTypesStruct true <> Valid doc.
Proof.
  intros F N D A1 L1 I1 A2 L2 I2 V.
  apply validate_Valid in V. unfold BuildTypesStruct in V.
  apply refine_valid in V as [V _]; [|reflexivity].
  assert (exists ofs0, own_entries raw = Some ofs0) as [ofs O]
    by (apply (lookup_own raw "features"); rewrite F; discriminate).
  pose proof (object_valid_lookup _ _ _ _ "features" FeaturesStruct ofs O
                distinct_document_keys ltac:(cbn; tauto) V) as R.
  rewrite F in R. cbn [app] in R.
  pose proof R as R0. rewrite run_fields in R0.
  destruct (run (fields_of FeaturesStruct) true (VObj fts) ["features"])
    as [fs [[st cur]|]] eqn:Rf; [|discriminate].
  pose proof (run_status _ _ _ _ _ _ _ Rf) as St.
  injection R0 as E _. apply app_eq_nil in E as [-> _].
  rewrite (proj2 St eq_refl) in Rf.
  destruct (run_FeaturesStruct_conflicts fts ["features"] cur N Rf)
    as (nfs & envs & msgs & _ & _ & Rm & _ & Two).
  rewrite R in Rm. injection Rm as Em _.
  symmetry in Em. apply map_eq_nil in Em.
  exact (Two n1 f1 xs1 v1 n2 f2 xs2 v2 k D A1 L1 I1 A2 L2 I2 Em).
Qed.

(** C2, as the code has it.  Take a features map whose features are all
    valid.  Its validation yields one failure of the refinement "feature
    definitions", at the path of the map, for every env entry in object
    form whose key was declared by such an entry before, in any feature,
    and nothing else; the scan goes on after a conflict.  So two distinct
    features that each declare the key [k] in object form make the map
    invalid, and a document with such a features map is never valid.
    Bare strings take no part: [{a: {env: ["X"]}, b: {env: ["X"]}}] is
    valid. *)
Theorem object_form_conflicts_reported :
  (forall fts p cur,
     NoDup (map fst fts) ->
     run (fields_of FeaturesStruct) true (VObj fts) p = ([], Some (valid, cur)) ->
     exists nfs envs msgs,
       cur = VObj (combine (map fst fts) nfs)
       /\ Forall2 feature_like nfs envs
       /\ run FeaturesStruct true (VObj fts) p
          = (map (fun msg => mkFailure msg p (Some "feature definitions")) msgs,
             Some (match msgs with [] => valid | _ :: _ => not_refined end, cur))
       /\ length msgs = repeated [] (object_keys (concat envs))
       /\ (forall n1 f1 xs1 v1 n2 f2 xs2 v2 k,
             n1 <> n2 ->
             assoc n1 fts = Some f1 -> lookup f1 "env" = VArr xs1 ->
             In (VObj [(k, v1)]) xs1 ->
             assoc n2 fts = Some f2 -> lookup f2 "env" = VArr xs2 ->
             In (VObj [(k, v2)]) xs2 ->
             msgs <> []))
  /\ (forall raw fts n1 f1 xs1 v1 n2 f2 xs2 v2 k doc,
        lookup raw "features" = VObj fts -> NoDup (map fst fts) ->
        n1 <> n2 ->
        assoc n1 fts = Some f1 -> lookup f1 "env" = VArr xs1 ->
        In (VObj [(k, v1)]) xs1 ->
        assoc n2 fts = Some f2 -> lookup f2 "env" = VArr xs2 ->
        In (VObj [(k, v2)]) xs2 ->
        validate raw BuildTypesStruct true <> Valid doc)
  /\ validate (VObj [("a", VObj [("env", VArr [VStr "X"])]);
                     ("b", VObj [("env", VArr [VStr "X"])])])
       FeaturesStruct true
     = Valid (VObj [("a", VObj [("env", VArr [VStr "X"])]);
                    ("b", VObj [("env", VArr [VStr "X"])])]).
Proof.
  split; [exact run_FeaturesStruct_conflicts|].
  split; [exact conflicting_document_not_valid | vm_compute; reflexivity].
Qed.

Lemma object_form_conflicts_reported_witness :
  let fts := [("a", VObj [("env", VArr [VObj [("X", VNum 1)]])]);
              ("b", VObj [("env", VArr [VObj [("X", VNum 2)]])])] in
  NoDup (map fst fts)
  /\ exists cur nfs envs msgs,
       run (fields_of FeaturesStruct) true (VObj fts) ["features"]
       = ([], Some (valid, cur))
       /\ cur = VObj (combine (map fst fts) nfs)
       /\ Forall2 feature_like nfs envs
       /\ run FeaturesStruct true (VObj fts) ["features"]
          = (map (fun msg => mkFailure msg ["features"]
                               (Some "feature definitions")) msgs,
             Some (match msgs with [] => valid | _ :: _ => not_refined end, cur))
       /\ msgs <> [].
Proof.
  cbv zeta.
  assert (N : NoDup (map fst
                       [("a", VObj [("env", VArr [VObj [("X", VNum 1)]])]);
                        ("b", VObj [("env", VArr [VObj [("X", VNum 2)]])])]))
    by (cbn; repeat constructor; cbn; intuition discriminate).
  split; [exact N|].
  eexists.
  assert (R : run (fields_of FeaturesStruct) true
                (VObj [("a", VObj [("env", VArr [VObj [("X", VNum 1)]])]);
                       ("b", VObj [("env", VArr [VObj [("X", VNum 2)]])])])
                ["features"]
              = ([], Some (valid,
                   VObj [("a", VObj [("env",
                            VArr [VObj [("key", VStr "X"); ("value", VNum 1)]])]);
                         ("b", VObj [("env",
                            VArr [VObj [("key", VStr "X"); ("value", VNum 2)]])])])))
    by (vm_compute; reflexivity).
  destruct (proj1 object_form_conflicts_reported _ _ _ N R)
    as (nfs & envs & msgs & C & L & Rf & _ & Two).
  exists nfs, envs, msgs. split; [exact R|]. split; [exact C|].
  split; [exact L|]. split; [exact Rf|].
  apply (Two "a" (VObj [("env", VArr [VObj [("X", VNum 1)]])])
             [VObj [("X", VNum 1)]] (VNum 1)
             "b" (VObj [("env", VArr [VObj [("X", VNum 2)]])])
             [VObj [("X", VNum 2)]] (VNum 2) "X");
    try reflexivity; try (now left). discriminate.
Defined.

(** C2 as stated fails: the two features [a] and [b] both declare ["X"],
    as bare strings, and the document is valid. *)
Lemma bare_string_conflict_counterexample :
  let raw :=
    VObj [("default", VStr "stable");
          ("buildTypes", VObj [("stable", a_build_type)]);
          ("features", VObj [("a", VObj [("env", VArr [VStr "X"])]);
                             ("b", VObj [("env", VArr [VStr "X"])])]);
          ("env", VArr [])] in
  validate raw BuildTypesStruct true = Valid raw.
Proof. vm_compute. reflexivity. Qed.

(** The message of a conflict between [{X: 1}] in one feature and
    [{X: 2}] in another: the entry is interpolated, not its key. *)
Example conflict_message_example :
  fst (run FeaturesStruct true
         (VObj [("a", VObj [("env", VArr [VObj [("X", VNum 1)]])]);
                ("b", VObj [("env", VArr [VObj [("X", VNum 2)]])])])
         ["features"])
  = [mkFailure
       ("Multiple defined features have a definition of " ++ dquote
        ++ "[object Object]" ++ dquote
        ++ " env variable, resulting in a conflict")%string
       ["features"] (Some "feature definitions")].
Proof. vm_compute. reflexivity. Qed.

(** ** Two loads in a row (C3) *)

(** C3.  Two calls in a row on a valid [builds.yml] with the entry
    [{FOO: 1}] in its env: the file is read once, but the first call
    returns the decoded tree and the second the validated copy, two
    objects with different contents. *)
Theorem two_loads_return_different_objects BUILDS_YML_PATH :
  let tree := a_document "stable" [VObj [("FOO", VNum 1)]] in
  let doc := a_document "stable" [VObj [("key", VStr "FOO"); ("value", VNum 1)]] in
  let st1 := mkProcess (Some 1) [tree; doc] 1 in
  validate tree BuildTypesStruct true = Valid doc
  /\ loadBuildTypesConfig BUILDS_YML_PATH (Some tree) start = (Returned 0, st1)
  /\ loadBuildTypesConfig BUILDS_YML_PATH (Some tree) st1 = (Returned 1, st1)
  /\ deref st1 0 = Some tree
  /\ deref st1 1 = Some doc
  /\ tree <> doc.
Proof.
  cbv zeta.
  assert (V : validate (a_document "stable" [VObj [("FOO", VNum 1)]])
                BuildTypesStruct true
              = Valid (a_document "stable"
                         [VObj [("key", VStr "FOO"); ("value", VNum 1)]]))
    by (vm_compute; reflexivity).
  split; [exact V|].
  split; [exact (load_valid BUILDS_YML_PATH start _ _ eq_refl V)|].
  split; [reflexivity|]. split; [reflexivity|]. split; [reflexivity|].
  discriminate.
Qed.
(** ** Assets (C4) *)

Lemma feature_of_document raw doc fts name ft :
  validate raw BuildTypesStruct true = Valid doc ->
  lookup raw "features" = VObj fts -> NoDup (map fst fts) ->
  assoc name fts = Some ft -> ft <> VNull ->
  run FeatureStruct true ft ["features"; name]
  = ([], Some (valid, at_path doc ["features"; name])).
Proof.
  intros V F N A Nn. apply validate_Valid in V. unfold BuildTypesStruct in V.
  apply refine_valid in V as [V _]; [|reflexivity].
  assert (exists ofs0, own_entries raw = Some ofs0) as [ofs O]
    by (apply (lookup_own raw "features"); rewrite F; discriminate).
  pose proof (object_valid_lookup _ _ _ _ "features" FeaturesStruct ofs O
                distinct_document_keys ltac:(cbn; tauto) V) as R1.
  rewrite F in R1. unfold FeaturesStruct in R1.
  apply refine_valid in R1 as [R1 _]; [|reflexivity].
  pose proof (record_valid_lookup _ _ _ _ name ft N A R1) as R2.
  now rewrite run_feature in R2.
Qed.

(** C4, where the code diverges from it.  [FeatureStruct] hands
    [optional] the name [AssetStruct], which is bound to no struct when
    the module runs.  So the assets of a feature are not normalized: in
    each of their three forms, the bare string, [{exclusiveInclude}] and
    [{src, dest}], the run of the field throws, the validation of a
    feature with these assets throws, and so does the load of a document
    with such a feature, which leaves the cache empty.  No valid
    document has a feature with assets. *)
Theorem defined_assets_throw :
  (forall x p,
     asset_form x ->
     run (optional_of AssetStruct) true x p = ([], None)
     /\ validate (VObj [("assets", x)]) FeatureStruct true = Thrown)
  /\ (forall BUILDS_YML_PATH st x env,
        asset_form x -> cachedBuildTypes st = None ->
        validate (a_document_with_assets x env) BuildTypesStruct true = Thrown
        /\ loadBuildTypesConfig BUILDS_YML_PATH
             (Some (a_document_with_assets x env)) st
           = (OtherError, mkProcess None (heap st) (S (reads st))))
  /\ (forall raw doc fts name ft,
        validate raw BuildTypesStruct true = Valid doc ->
        lookup raw "features" = VObj fts -> NoDup (map fst fts) ->
        assoc name fts = Some ft ->
        lookup ft "assets" = VUndefined).
Proof.
  split; [|split].
  - intros x p Fx. split; destruct Fx; reflexivity.
  - intros P st x env Fx C.
    assert (V : validate (a_document_with_assets x env) BuildTypesStruct true
                = Thrown) by (destruct Fx; reflexivity).
    split; [exact V|].
    unfold loadBuildTypesConfig. now rewrite C, V.
  - intros raw doc fts name ft V F N A.
    destruct (lookup ft "assets") eqn:L; [reflexivity|exfalso..].
    all: assert (Nn : lookup ft "assets" <> VUndefined)
           by (rewrite L; discriminate).
    all: destruct (lookup_own ft "assets" Nn) as [ofs O].
    all: assert (Nf : ft <> VNull) by (intros ->; discriminate).
    all: pose proof (feature_of_document raw doc fts name ft V F N A Nf) as R.
    all: unfold FeatureStruct in R.
    all: pose proof (object_valid_lookup _ _ _ _ "assets"
                       (optional_of AssetStruct) ofs O distinct_feature_keys
                       ltac:(cbn; tauto) R) as R'.
    all: rewrite L, run_assets_field in R'; discriminate.
Qed.

Lemma defined_assets_throw_witness :
  let a := VObj [("env", VArr [VStr "FOO"])] in
  let raw := VObj [("default", VStr "stable");
                   ("buildTypes", VObj [("stable", a_build_type)]);
                   ("features", VObj [("a", a)]);
                   ("env", VArr [])] in
  asset_form (VStr "src/**")
  /\ validate (VObj [("assets", VStr "src/**")]) FeatureStruct true = Thrown
  /\ validate (a_document_with_assets (VStr "src/**") []) BuildTypesStruct true
     = Thrown
  /\ loadBuildTypesConfig "builds.yml"
       (Some (a_document_with_assets (VStr "src/**") [])) start
     = (OtherError, mkProcess None [] 1)
  /\ validate raw BuildTypesStruct true = Valid raw
  /\ lookup a "assets" = VUndefined.
Proof.
  cbv zeta. split; [constructor|].
  split; [apply (proj1 defined_assets_throw (VStr "src/**") []
                   (bare_asset "src/**"))|].
  split; [|split].
  - apply (proj1 (proj2 defined_assets_throw) "builds.yml" start
             (VStr "src/**") [] (bare_asset "src/**") eq_refl).
  - apply (proj2 (proj1 (proj2 defined_assets_throw) "builds.yml" start
                    (VStr "src/**") [] (bare_asset "src/**") eq_refl)).
  - match goal with |- ?a = ?b /\ _ =>
      assert (V : a = b) by (vm_compute; reflexivity) end.
    split; [exact V|].
    apply (proj2 (proj2 defined_assets_throw) _ _
             [("a", VObj [("env", VArr [VStr "FOO"])])] "a" _ V eq_refl);
      [repeat constructor; intros [] | reflexivity].
Defined.

(** ** The default-exists rule (C5) *)


(** ** Uniqueness of the keys of an env sequence (C6) *)

Lemma repeated_key_not_distinct (ks : list string) i j k :
  i <> j -> nth_error ks i = Some k -> nth_error ks j = Some k -> ~ NoDup ks.
Proof.
  intros D I J N. apply D.
  apply (proj1 (NoDup_nth_error ks) N).
  - apply nth_error_Some. congruence.
  - congruence.
Qed.

(** What the whole traversal yields at and below the path of an env
    sequence, when the traversal of the fields does not throw: what
    [EnvArrayStruct] yields for the sequence. *)
Lemma env_sequence_failures raw fields r p xs :
  run (fields_of BuildTypesStruct) true raw [] = (fields, Some r) ->
  env_sequence raw p xs ->
  exists r0,
    run EnvArrayStruct true (VArr xs) p
    = (under p (fst (run BuildTypesStruct true raw [])), Some r0).
Proof.
  intros F E.
  destruct (env_sequence_fields raw fields r p xs F E) as [r0 R0].
  exists r0. rewrite R0.
  assert (U : under p (fst (run BuildTypesStruct true raw []))
              = under p fields); [|now rewrite U].
  rewrite (run_fields BuildTypesStruct true raw []), F. destruct r as [st cur].
  cbn [fst]. rewrite under_app.
  destruct (env_sequence_path raw p xs E) as (k & q & ->).
  now rewrite document_refinement_at_root, app_nil_r.
Qed.

(** C6, and where the code diverges from it.  Take a document whose
    fields are traversed without a throw, and one of its env sequences:
    the global one, the one of a build type or the one of a feature,
    made of bare strings and of entries in object form.  When two of its
    entries declare the same key, the bare string being its own key,
    the only failure at or below the path of the sequence is "Array
    contains duplicated values", once, and the document is not valid;
    when the keys are pairwise distinct there is no failure at or below
    that path.  But the traversal throws at the assets of a feature,
    whose struct is not there when the module runs, and then yields
    nothing for the sequences that come after: a global env that repeats
    a key gets no failure. *)
Theorem duplicated_keys_fail_once_where_reached :
  (forall raw fields r p xs ks,
     run (fields_of BuildTypesStruct) true raw [] = (fields, Some r) ->
     env_sequence raw p xs ->
     declare xs ks ->
     (forall i j k,
        i <> j -> nth_error ks i = Some k -> nth_error ks j = Some k ->
        under p (fst (run BuildTypesStruct true raw []))
        = [mkFailure "Array contains duplicated values" p (Some "unique")]
        /\ forall doc, validate raw BuildTypesStruct true <> Valid doc)
     /\ (NoDup ks -> under p (fst (run BuildTypesStruct true raw [])) = []))
  /\ (let env := [VStr "FOO"; VObj [("FOO", VNum 1)]] in
      let raw := a_document_with_assets (VStr "src/**") env in
      env_sequence raw ["env"] env
      /\ declare env ["FOO"; "FOO"]
      /\ run BuildTypesStruct true raw [] = ([], None)).
Proof.
  split.
  - intros raw fields r p xs ks F E D.
    destruct (env_sequence_failures raw fields r p xs F E) as [r0 R0].
    destruct (run_EnvArrayStruct xs ks p D) as [Distinct Repeated].
    apply (f_equal fst) in R0. cbn [fst] in R0. split.
    + intros i j k Dij I J.
      pose proof (repeated_key_not_distinct ks i j k Dij I J) as N.
      rewrite (Repeated N) in R0. cbn [fst] in R0.
      split; [now rewrite <- R0|].
      intros doc V. apply validate_Valid in V. rewrite V in R0. discriminate.
    + intros N. rewrite (Distinct N) in R0. cbn [fst] in R0. now rewrite <- R0.
  - cbv zeta. split; [constructor; reflexivity|].
    split; [repeat constructor | reflexivity].
Qed.

Lemma duplicated_keys_fail_once_where_reached_witness :
  let env := [VStr "FOO"; VObj [("FOO", VNum 1)]] in
  let raw := a_document "stable" env in
  run (fields_of BuildTypesStruct) true raw []
  = ([mkFailure "Array contains duplicated values" ["env"] (Some "unique")],
     Some (not_refined, raw))
  /\ env_sequence raw ["env"] env
  /\ declare env ["FOO"; "FOO"]
  /\ under ["env"] (fst (run BuildTypesStruct true raw []))
     = [mkFailure "Array contains duplicated values" ["env"] (Some "unique")].
Proof.
  cbv zeta.
  assert (R : run (fields_of BuildTypesStruct) true
                (a_document "stable" [VStr "FOO"; VObj [("FOO", VNum 1)]]) []
              = ([mkFailure "Array contains duplicated values" ["env"]
                    (Some "unique")],
                 Some (not_refined,
                       a_document "stable" [VStr "FOO"; VObj [("FOO", VNum 1)]]))).
  { vm_compute. reflexivity. }
  assert (E : env_sequence
                (a_document "stable" [VStr "FOO"; VObj [("FOO", VNum 1)]])
                ["env"] [VStr "FOO"; VObj [("FOO", VNum 1)]])
    by (constructor; reflexivity).
  assert (D : declare [VStr "FOO"; VObj [("FOO", VNum 1)]] ["FOO"; "FOO"])
    by (repeat constructor).
  split; [exact R|]. split; [exact E|]. split; [exact D|].
  apply (proj1 (proj1 duplicated_keys_fail_once_where_reached _ _ _ _ _ _ R E D)
           0 1 "FOO"); [lia | reflexivity | reflexivity].
Defined.
(** ** Entries in object form (C7) *)




(** ** Canonical documents come back as they are (C8) *)

Lemma only_keys_unknown schema fs :
  only_keys (map fst schema) fs -> unknown_fields schema fs = [].
Proof.
  induction 1 as [|[k x] fs H _ IH]; [reflexivity|].
  cbn [unknown_fields filter fst]. fold (unknown_fields schema fs).
  cbn [fst] in H. apply existsb_eqb_In in H. now rewrite H.
Qed.

Lemma run_object_fixed schema fs p :
  only_keys (map fst schema) fs ->
  (forall k s, In (k, s) schema ->
     run s true (lookup (VObj fs) k) (p ++ [k])
     = ([], Some (valid, lookup (VObj fs) k))) ->
  run (object schema) true (VObj fs) p = ([], Some (valid, VObj fs)).
Proof.
  intros K H. rewrite (run_object true schema (VObj fs) p fs eq_refl).
  rewrite (known_children_fixed true p (VObj fs) fs schema H).
  now rewrite (only_keys_unknown schema fs K).
Qed.

Lemma combine_fst_snd (fs : list (string * value)) :
  combine (map fst fs) (map snd fs) = fs.
Proof. induction fs as [|[k x] fs IH]; cbn; congruence. Qed.

Lemma run_record_fixed V fs p :
  NoDup (map fst fs) ->
  (forall k x, In (k, x) fs -> run V true x (p ++ [k]) = ([], Some (valid, x))) ->
  run (record string_ V) true (VObj fs) p = ([], Some (valid, VObj fs)).
Proof.
  intros N H. apply (run_record_valid true V p fs valid (VObj fs) N).
  split; [reflexivity|]. exists (map snd fs). split.
  - unfold values_valid. clear N. induction fs as [|[k x] fs IH]; constructor.
    + cbn. apply H. now left.
    + apply IH. intros k' x' I. apply H. now right.
  - now rewrite combine_fst_snd.
Qed.

Lemma canonical_normal x : canonical_entry x = true -> normal_entry x = x.
Proof.
  destruct x as [| | | | |?|fs]; try reflexivity.
  destruct fs as [|[a u] [|[b w] fs]]; try reflexivity. discriminate.
Qed.

Lemma canonical_env_run v p :
  canonical_env v ->
  run EnvArrayStruct true v p = ([], Some (valid, v)).
Proof.
  intros (xs & ks & -> & C & D & N).
  rewrite (proj1 (run_EnvArrayStruct xs ks p D) N).
  assert (M : map normal_entry xs = xs).
  { clear D N. induction C as [|x xs Cx _ IH]; [reflexivity|].
    cbn [map]. now rewrite IH, (canonical_normal x Cx). }
  now rewrite M.
Qed.

Lemma optional_env_run v p :
  absent_or canonical_env v ->
  run (optional EnvArrayStruct) true v p = ([], Some (valid, v)).
Proof.
  intros [->|C]; [now apply run_optional_undefined|].
  pose proof C as (xs & ks & -> & _). rewrite run_optional_EnvArrayStruct.
  now apply canonical_env_run.
Qed.

Lemma uniq_onto_agree eq1 eq2 seen xs :
  (forall x y, In x (seen ++ xs) -> In y (seen ++ xs) -> eq1 x y = eq2 x y) ->
  uniq_onto eq1 seen xs = uniq_onto eq2 seen xs.
Proof.
  revert seen. induction xs as [|x xs IH]; intros seen H; [reflexivity|].
  cbn [uniq_onto].
  assert (I : includes_with eq1 seen x = includes_with eq2 seen x).
  { assert (S : forall y, In y seen -> In y (seen ++ x :: xs))
      by (intros y Iy; apply in_or_app; now left).
    assert (X : In x (seen ++ x :: xs)) by (apply in_or_app; right; now left).
    clear IH. induction seen as [|y seen IHs]; [reflexivity|]. cbn.
    rewrite (H x y X (S y (or_introl eq_refl))).
    destruct (eq2 x y) as [[|]|]; try reflexivity.
    apply IHs.
    - intros a b Ia Ib. apply H; now right.
    - intros z Iz. apply in_or_app. now left.
    - apply in_or_app. right. now left. }
  rewrite I. destruct (includes_with eq2 seen x) as [[|]|]; [| |reflexivity].
  - apply IH. intros a b Ia Ib. apply H.
    + apply in_app_or in Ia as [Ia|Ia]; apply in_or_app; [now left | right; now right].
    + apply in_app_or in Ib as [Ib|Ib]; apply in_or_app; [now left | right; now right].
  - apply IH. intros a b Ia Ib.
    apply H; rewrite <- app_assoc in *; assumption.
Qed.

Lemma keyed_strings names : keyed (map VStr names) names.
Proof. induction names; constructor; [reflexivity | assumption]. Qed.

(** The names of the features of a build type, when distinct. *)
Lemma feature_names_run names p :
  NoDup names ->
  run (optional (unique (array string_) None)) true (VArr (map VStr names)) p
  = ([], Some (valid, VArr (map VStr names))).
Proof.
  intros N. rewrite run_optional_defined by (intros ? [= <-]; discriminate).
  unfold unique. rewrite run_refine by reflexivity.
  assert (A : run (array string_) true (VArr (map VStr names)) p
              = ([], Some (valid, VArr (map VStr names)))).
  { apply run_array_valid. split; [reflexivity|]. exists (map VStr names).
    split; [|reflexivity]. generalize 0.
    induction names as [|a names IH]; intros n; [constructor|].
    cbn. inversion N; subst. constructor; [apply run_string_str | now apply IH]. }
  rewrite A. unfold uniqWith.
  rewrite (uniq_onto_agree _ same_key [] (map VStr names)).
  - destruct (uniqWith_keyed _ _ (keyed_strings names)) as (u & U & L).
    unfold uniqWith in U. rewrite U.
    apply L in N. rewrite N, Nat.eqb_refl. reflexivity.
  - intros x y Ix Iy. cbn [app] in *.
    apply in_map_iff in Ix as (a & <- & _). apply in_map_iff in Iy as (b & <- & _).
    reflexivity.
Qed.

Lemma optional_names_run v p :
  absent_or (fun v => exists names, v = VArr (map VStr names) /\ NoDup names) v ->
  run (optional (unique (array string_) None)) true v p = ([], Some (valid, v)).
Proof.
  intros [->|(names & -> & N)]; [now apply run_optional_undefined|].
  now apply feature_names_run.
Qed.

Lemma optional_boolean_run v p :
  absent_or (fun v => exists b, v = VBool b) v ->
  run (optional boolean) true v p = ([], Some (valid, v)).
Proof. intros [->|[b ->]]; reflexivity. Qed.

Lemma override_run v p :
  override v ->
  run (union [string_; literal (VBool false)]) true v p = ([], Some (valid, v)).
Proof. intros [[s ->]| ->]; reflexivity. Qed.

Lemma canonical_build_type_run bt p :
  canonical_build_type bt ->
  run BuildTypeStruct true bt p = ([], Some (valid, bt)).
Proof.
  intros (fs & -> & K & F & E & P & M & B). unfold BuildTypeStruct.
  apply run_object_fixed; [exact K|].
  intros k s [[= <- <-]|[[= <- <-]|[[= <- <-]|[[= <- <-]|[[= <- <-]|[]]]]]].
  - now apply optional_names_run.
  - now apply optional_env_run.
  - now apply optional_boolean_run.
  - now apply override_run.
  - now apply override_run.
Qed.

Lemma canonical_feature_run ft p :
  canonical_feature ft -> lookup ft "assets" = VUndefined ->
  run (coerce FeatureStruct (nullable never) (fun _ => Some (VObj []))) true ft p
  = ([], Some (valid, ft)).
Proof.
  intros (fs & -> & K & E & _) A. rewrite run_feature by discriminate.
  unfold FeatureStruct. apply run_object_fixed; [exact K|].
  intros k s [[= <- <-]|[[= <- <-]|[]]].
  - now apply optional_env_run.
  - now rewrite A, run_assets_field.
Qed.

Lemma canonical_feature_entries ft :
  canonical_feature ft -> env_of ft = Some (feature_entries ft).
Proof.
  intros (fs & -> & _ & E & _). unfold env_of, feature_entries.
  destruct E as [->|(xs & ks & -> & _)]; reflexivity.
Qed.

(** Entries in object form with distinct keys, none of them seen before:
    the scan reports nothing. *)
Lemma scan_env_distinct es ks seen :
  declare es ks -> Forall (fun x => canonical_entry x = true) es ->
  NoDup (seen ++ ks) ->
  scan_env es (map VStr seen) = ([], Some (map VStr (seen ++ ks))).
Proof.
  intros D. revert seen. induction D as [|e k es ks Dk _ IH]; intros seen C N.
  - now rewrite app_nil_r.
  - inversion C as [|? ? Ce Ces]; subst.
    pose proof (canonical_normal e Ce) as Ne.
    destruct (declared_key_run e k [] Dk) as [_ Ke]. rewrite Ne in Ke.
    assert (S : is_string e = false) by (destruct e; try discriminate; reflexivity).
    unfold key_of in Ke. rewrite S in Ke.
    cbn [scan_env]. rewrite S, Ke.
    assert (I : includes (map VStr seen) (VStr k) = false).
    { destruct (includes (map VStr seen) (VStr k)) eqn:I; [|reflexivity].
      apply includes_strings in I. apply NoDup_remove_2 in N.
      exfalso. apply N. apply in_or_app. now left. }
    rewrite I.
    replace (map VStr seen ++ [VStr k]) with (map VStr (seen ++ [k]))
      by now rewrite map_app.
    rewrite (IH (seen ++ [k]) Ces) by now rewrite <- app_assoc.
    now rewrite <- app_assoc.
Qed.

Lemma canonical_features_check fts p :
  Forall (fun kx => canonical_feature (snd kx)) fts ->
  (exists ks, declare (flat_map feature_entries (map snd fts)) ks /\ NoDup ks) ->
  feature_definitions (VObj fts) p = ([], Some tt).
Proof.
  intros C (ks & D & N). unfold feature_definitions. cbn [values own_entries].
  rewrite (scan_features_concat (map snd fts) (map feature_entries (map snd fts))).
  - rewrite <- flat_map_concat_map.
    assert (A : Forall (fun x => canonical_entry x = true)
                  (flat_map feature_entries (map snd fts))).
    { apply Forall_flat_map. apply Forall_map.
      eapply Forall_impl; [|exact C]. intros [k ft] (fs & -> & _ & E & _).
      cbn [snd]. unfold feature_entries.
      destruct E as [->|(xs & ks' & -> & Cx & _)]; [constructor | exact Cx]. }
    pose proof (scan_env_distinct _ ks [] D A N) as S. cbn [map app] in S.
    now rewrite S.
  - clear D N. induction C as [|[k ft] fts Cf _ IH]; [constructor|].
    cbn. constructor; [|exact IH]. now apply canonical_feature_entries.
Qed.

(** The traversal of a canonical document in which no feature has
    assets. *)
Lemma canonical_document_run raw :
  canonical_document raw -> no_assets raw ->
  run BuildTypesStruct true raw [] = ([], Some (valid, raw)).
Proof.
  intros (fs & d & bts & fts & -> & K & D & B & Nb & Cb & Id & F & Nf & Cf
          & Conf & E) NA.
  specialize (NA fts F).
  unfold BuildTypesStruct. rewrite run_refine by reflexivity.
  assert (R : run (object
                     [("default", string_);
                      ("buildTypes", record string_ BuildTypeStruct);
                      ("features", FeaturesStruct);
                      ("env", EnvArrayStruct)]) true (VObj fs) []
              = ([], Some (valid, VObj fs))).
  { apply run_object_fixed; [exact K|].
    intros k s [[= <- <-]|[[= <- <-]|[[= <- <-]|[[= <- <-]|[]]]]].
    - rewrite D. apply run_string_str.
    - rewrite B. apply run_record_fixed; [exact Nb|].
      intros k x I. apply canonical_build_type_run.
      rewrite Forall_forall in Cb. exact (Cb (k, x) I).
    - rewrite F. unfold FeaturesStruct. rewrite run_refine by reflexivity.
      rewrite run_record_fixed; [|exact Nf|].
      + now rewrite (canonical_features_check fts _ Cf Conf).
      + intros k x I. rewrite Forall_forall in Cf, NA.
        apply canonical_feature_run; [exact (Cf (k, x) I) | exact (NA (k, x) I)].
    - now apply canonical_env_run. }
  rewrite R. unfold default_exists, get. rewrite B, D. cbn [keys own_entries].
  now rewrite (proj2 (includes_strings (map fst bts) d) Id).
Qed.

Lemma canonical_with_assets x env :
  canonical_asset x -> canonical_env (VArr env) ->
  canonical_document (a_document_with_assets x env).
Proof.
  intros A E. eexists _, "stable", _, _. split; [reflexivity|].
  split; [repeat constructor; cbn; tauto|].
  split; [reflexivity|]. split; [reflexivity|].
  split; [repeat constructor; intros []|].
  split.
  { repeat constructor. cbn [snd]. eexists. split; [reflexivity|].
    split; [repeat constructor; cbn; tauto|].
    split; [now left|]. split; [now left|]. split; [now left|].
    split; now right. }
  split; [cbn; tauto|]. split; [reflexivity|].
  split; [repeat constructor; intros []|].
  split.
  { repeat constructor. cbn [snd]. eexists. split; [reflexivity|].
    split; [repeat constructor; cbn; tauto|].
    split; [now left | now right]. }
  split; [exists []; split; constructor|]. exact E.
Qed.

(** C8, and where the code diverges from it.  A document already in
    canonical form (the four fields and no other; every env entry a
    [{key, value}] object, with distinct keys in each sequence; the
    features declaring each key once among them; the default naming a
    build type) in which no feature has assets is valid, and validation
    returns it as it is.  A canonical document with a feature that has
    assets, an exclusive-include or a copy rule, is not returned: its
    validation throws, because the struct of the assets is not there
    when the module runs. *)
Theorem canonical_document_unchanged_without_assets :
  (forall raw,
     canonical_document raw -> no_assets raw ->
     validate raw BuildTypesStruct true = Valid raw)
  /\ (forall x env,
        canonical_asset x -> canonical_env (VArr env) ->
        canonical_document (a_document_with_assets x env)
        /\ validate (a_document_with_assets x env) BuildTypesStruct true
           = Thrown).
Proof.
  split.
  - intros raw C NA. apply validate_Valid. now apply canonical_document_run.
  - intros x env A E. split; [now apply canonical_with_assets|].
    destruct A as [[path ->]|[(src & dest & ->)|(src & dest & ->)]];
      reflexivity.
Qed.

Lemma canonical_document_unchanged_without_assets_witness :
  let raw :=
    VObj [("default", VStr "stable");
          ("buildTypes",
           VObj [("stable",
                  VObj [("features", VArr [VStr "a"]);
                        ("env", VArr [VObj [("key", VStr "FOO");
                                            ("value", VNum 1)]]);
                        ("isPrerelease", VBool false);
                        ("manifestOverrides", VStr "m.json");
                        ("buildNameOverride", VBool false)])]);
          ("features",
           VObj [("a", VObj [("env", VArr [VObj [("key", VStr "BAR");
                                                 ("value", VNull)]])]);
                 ("b", VObj [])]);
          ("env", VArr [VObj [("key", VStr "BAZ"); ("value", VUndefined)]])] in
  let failing := a_document_with_assets (exclusive_include "src/**") [] in
  (canonical_document raw /\ no_assets raw
   /\ validate raw BuildTypesStruct true = Valid raw)
  /\ (canonical_asset (exclusive_include "src/**") /\ canonical_env (VArr [])
      /\ canonical_document failing
      /\ validate failing BuildTypesStruct true = Thrown).
Proof.
  cbv zeta. split.
  - match goal with |- canonical_document ?r /\ _ =>
      assert (C : canonical_document r) end.
    { eexists _, "stable", _, _. split; [reflexivity|].
      split; [repeat constructor; cbn; tauto|].
      split; [reflexivity|]. split; [reflexivity|].
      split; [cbn; repeat constructor; cbn; tauto|].
      split.
      { repeat constructor. cbn [snd]. eexists. split; [reflexivity|].
        split; [repeat constructor; cbn; tauto|].
        split.
        { right. exists ["a"]. split; [reflexivity|].
          repeat constructor. cbn. tauto. }
        split.
        { right. exists [VObj [("key", VStr "FOO"); ("value", VNum 1)]], ["FOO"].
          split; [reflexivity|]. split; [repeat constructor|].
          split; [repeat constructor|]. repeat constructor. cbn. tauto. }
        split; [right; now exists false|].
        split; [left; now exists "m.json" | now right]. }
      split; [cbn; tauto|]. split; [reflexivity|].
      split; [cbn; repeat constructor; cbn; intuition discriminate|].
      split.
      { constructor; [|constructor; [|constructor]]; cbn [snd].
        - eexists. split; [reflexivity|].
          split; [repeat constructor; cbn; tauto|]. split.
          + right. exists [VObj [("key", VStr "BAR"); ("value", VNull)]], ["BAR"].
            split; [reflexivity|]. split; [repeat constructor|].
            split; [repeat constructor|]. repeat constructor. cbn. tauto.
          + now left.
        - eexists. split; [reflexivity|].
          split; [constructor|]. split; now left. }
      split.
      { exists ["BAR"]. split; [repeat constructor|].
        repeat constructor. cbn. tauto. }
      exists [VObj [("key", VStr "BAZ"); ("value", VUndefined)]], ["BAZ"].
      split; [reflexivity|]. split; [repeat constructor|].
      split; [repeat constructor|]. repeat constructor. cbn. tauto. }
    match goal with |- _ /\ no_assets ?r /\ _ =>
      assert (NA : no_assets r) by (intros fts [= <-]; repeat constructor) end.
    split; [exact C|]. split; [exact NA|].
    exact (proj1 canonical_document_unchanged_without_assets _ C NA).
  - assert (A : canonical_asset (exclusive_include "src/**"))
      by (left; now exists "src/**").
    assert (E : canonical_env (VArr []))
      by (exists [], []; repeat split; constructor).
    split; [exact A|]. split; [exact E|].
    exact (proj2 canonical_document_unchanged_without_assets _ [] A E).
Defined.

(** ** A load that fails (C9) *)

(** C9.  When the validation of the loaded document fails,
    [loadBuildTypesConfig] throws and leaves [cachedBuildTypes] at [null];
    the next call reads the file again and validates what it finds, so a
    valid file is then loaded and its validated document cached.  The
    cache is written only when validation succeeds. *)
Theorem failed_load_keeps_cache_empty BUILDS_YML_PATH st tree :
  cachedBuildTypes st = None ->
  (forall doc, validate tree BuildTypesStruct true <> Valid doc) ->
  exists c st',
    loadBuildTypesConfig BUILDS_YML_PATH (Some tree) st = (c, st')
    /\ (forall r, c <> Returned r)
    /\ cachedBuildTypes st' = None
    /\ reads st' = S (reads st)
    /\ (forall file',
          reads (snd (loadBuildTypesConfig BUILDS_YML_PATH file' st'))
          = S (S (reads st)))
    /\ (forall tree' doc',
          validate tree' BuildTypesStruct true = Valid doc' ->
          exists r st'',
            loadBuildTypesConfig BUILDS_YML_PATH (Some tree') st'
            = (Returned r, st'')
            /\ exists cached, cachedBuildTypes st'' = Some cached
                              /\ deref st'' cached = Some doc')
    /\ (forall file' r,
          cachedBuildTypes
            (snd (loadBuildTypesConfig BUILDS_YML_PATH file' st')) = Some r ->
          exists tree' doc',
            file' = Some tree'
            /\ validate tree' BuildTypesStruct true = Valid doc').
Proof.
  intros C V.
  destruct (load_not_valid BUILDS_YML_PATH st (Some tree) C) as (c & h & L & N).
  { intros t d [= <-]. apply V. }
  exists c, (mkProcess None h (S (reads st))).
  split; [exact L|]. split; [exact N|]. split; [reflexivity|].
  split; [reflexivity|]. split; [|split].
  - intros file'. unfold loadBuildTypesConfig, alloc. cbn.
    destruct file' as [t|]; [|reflexivity].
    destruct (validate t BuildTypesStruct true) as [d|err|]; cbn;
      [reflexivity | | reflexivity].
    destruct (constructFailureMessage BUILDS_YML_PATH err); reflexivity.
  - intros tree' doc' V'.
    rewrite (load_valid BUILDS_YML_PATH (mkProcess None h (S (reads st)))
               tree' doc' eq_refl V').
    eexists _, _. split; [reflexivity|]. unfold deref. cbn [heap cachedBuildTypes].
    eexists. split; [reflexivity|].
    rewrite nth_error_app2 by lia.
    replace (S (length h) - length h) with 1 by lia. reflexivity.
  - intros file' r. unfold loadBuildTypesConfig, alloc. cbn.
    destruct file' as [t|]; [|discriminate].
    destruct (validate t BuildTypesStruct true) as [d|err|] eqn:E; cbn.
    + intros _. now exists t, d.
    + destruct (constructFailureMessage BUILDS_YML_PATH err); discriminate.
    + discriminate.
Qed.

Lemma failed_load_keeps_cache_empty_witness :
  cachedBuildTypes start = None
  /\ (forall doc,
        validate (a_document "missing" []) BuildTypesStruct true <> Valid doc)
  /\ exists c st',
       loadBuildTypesConfig "builds.yml" (Some (a_document "missing" [])) start
       = (c, st')
       /\ (forall r, c <> Returned r)
       /\ cachedBuildTypes st' = None
       /\ reads st' = 1.
Proof.
  assert (V : forall doc,
             validate (a_document "missing" []) BuildTypesStruct true
             <> Valid doc)
    by (intros doc; vm_compute; discriminate).
  split; [reflexivity|]. split; [exact V|].
  destruct (failed_load_keeps_cache_empty "builds.yml" start
              (a_document "missing" []) eq_refl V)
    as (c & st' & L & N & C & R & _).
  exists c, st'. repeat split; assumption.
Defined.

(** * Further properties of the code *)

Import Uses.

(** ** Sequences of calls of the loader *)

Lemma load_all_cached BUILDS_YML_PATH files st r :
  cachedBuildTypes st = Some r ->
  load_all BUILDS_YML_PATH files st = (map (fun _ => Returned r) files, st).
Proof.
  intros C. induction files as [|file files IH]; [reflexivity|].
  cbn [load_all map]. rewrite (load_cached BUILDS_YML_PATH st r file C).
  now rewrite IH.
Qed.



Lemma load_all_app BUILDS_YML_PATH a b st :
  load_all BUILDS_YML_PATH (a ++ b) st =
  let '(ca, st1) := load_all BUILDS_YML_PATH a st in
  let '(cb, st2) := load_all BUILDS_YML_PATH b st1 in
  (ca ++ cb, st2).
Proof.
  revert st. induction a as [|file a IH]; intros st; cbn [load_all app].
  - now destruct (load_all BUILDS_YML_PATH b st).
  - destruct (loadBuildTypesConfig BUILDS_YML_PATH file st) as [c st1].
    rewrite IH. destruct (load_all BUILDS_YML_PATH a st1) as [ca st2].
    now destruct (load_all BUILDS_YML_PATH b st2).
Qed.

(** One call: what happens to the cache, the objects and the count of
    reads. *)
Lemma load_step BUILDS_YML_PATH file st c st' :
  loadBuildTypesConfig BUILDS_YML_PATH file st = (c, st') ->
  (exists more, heap st' = heap st ++ more)
  /\ (forall r, cachedBuildTypes st = Some r ->
                c = Returned r /\ st' = st)
  /\ (cachedBuildTypes st = None ->
      reads st' = S (reads st)
      /\ (returned c = true <-> cachedBuildTypes st' <> None)
      /\ (forall r, cachedBuildTypes st' = Some r -> r < length (heap st'))).
Proof.
  unfold loadBuildTypesConfig, alloc.
  destruct (cachedBuildTypes st) as [cached|] eqn:C.
  - intros [= <- <-]. split; [exists []; now rewrite app_nil_r|].
    split; [|discriminate]. intros r [= <-]. now split.
  - destruct file as [tree|]; cbn.
    + destruct (validate tree BuildTypesStruct true) as [doc|err|]; cbn.
      * intros [= <- <-]. cbn.
        split; [exists [written_in_place tree doc; doc]; now rewrite <- app_assoc|].
        split; [discriminate|]. intros _. split; [reflexivity|].
        split; [split; [discriminate | reflexivity]|].
        intros r [= <-]. rewrite !length_app. cbn. lia.
      * destruct (constructFailureMessage BUILDS_YML_PATH err);
          intros [= <- <-]; cbn;
          (split; [exists []; now rewrite app_nil_r|]);
          (split; [discriminate|]); intros _; (split; [reflexivity|]);
          (split; [split; [discriminate | intros H; now destruct H]|]);
          discriminate.
      * intros [= <- <-]. cbn. split; [exists []; now rewrite app_nil_r|].
        split; [discriminate|]. intros _. split; [reflexivity|].
        split; [split; [discriminate | intros H; now destruct H]|].
        discriminate.
    + intros [= <- <-]. cbn. split; [exists []; now rewrite app_nil_r|].
      split; [discriminate|]. intros _. split; [reflexivity|].
      split; [split; [discriminate | intros H; now destruct H]|].
      discriminate.
Qed.

Lemma filter_map_const {A B} (f : B -> bool) (b : B) (l : list A) :
  f b = false -> filter f (map (fun _ => b) l) = [].
Proof. intros H. induction l as [|a l IH]; cbn; [|rewrite H]; auto. Qed.

(** X2. In a sequence of calls that starts with an empty cache, the file
    is read once by every call that throws and once by the first call
    that returns, and never after; and no object allocated before is
    changed by the calls. *)
Theorem file_reads_counted BUILDS_YML_PATH files st cs st' :
  cachedBuildTypes st = None ->
  load_all BUILDS_YML_PATH files st = (cs, st') ->
  reads st' = reads st + length (filter (fun c => negb (returned c)) cs)
              + (if existsb returned cs then 1 else 0)
  /\ (forall r v, deref st r = Some v -> deref st' r = Some v).
Proof.
  revert st cs st'. induction files as [|file files IH]; intros st cs st' C.
  - intros [= <- <-]. cbn. split; [lia | auto].
  - cbn [load_all].
    destruct (loadBuildTypesConfig BUILDS_YML_PATH file st) as [c st1] eqn:L.
    destruct (load_step _ _ _ _ _ L) as ([more H] & _ & S).
    destruct (S C) as (R & Ret & _).
    assert (D1 : forall r v, deref st r = Some v -> deref st1 r = Some v).
    { intros r v. unfold deref. rewrite H. intros E.
      rewrite nth_error_app1; [exact E|]. apply nth_error_Some. congruence. }
    destruct (cachedBuildTypes st1) as [r1|] eqn:C1.
    + rewrite (load_all_cached BUILDS_YML_PATH files st1 r1 C1).
      intros [= <- <-].
      assert (Rc : returned c = true) by (apply Ret; discriminate).
      cbn [filter existsb]. rewrite Rc. cbn [negb orb].
      rewrite filter_map_const by reflexivity. cbn [length].
      split; [lia | exact D1].
    + destruct (load_all BUILDS_YML_PATH files st1) as [cs1 st2] eqn:L1.
      intros [= <- <-].
      assert (Rc : returned c = false).
      { destruct (returned c) eqn:E; [|reflexivity].
        now destruct (proj1 Ret eq_refl). }
      destruct (IH st1 cs1 st2 C1 L1) as [Rd D2].
      cbn [filter existsb]. rewrite Rc. cbn [negb orb length].
      split; [lia|]. intros r v E. apply D2, D1, E.
Qed.

Lemma file_reads_counted_witness :
  let files := [None; Some (a_document "missing" []);
                Some (a_document "stable" []); None] in
  let cs := fst (load_all "builds.yml" files start) in
  let st' := snd (load_all "builds.yml" files start) in
  cachedBuildTypes start = None
  /\ map returned cs = [false; false; true; true]
  /\ reads st' = 3.
Proof.
  cbv zeta. split; [reflexivity|]. split; [vm_compute; reflexivity|].
  destruct (file_reads_counted "builds.yml"
              [None; Some (a_document "missing" []);
               Some (a_document "stable" []); None] start _ _ eq_refl
              (surjective_pairing _)) as [R _].
  rewrite R. vm_compute. reflexivity.
Defined.

(** ** The report of a failed load *)

Lemma append_assoc (a b c : string) : ((a ++ b) ++ c = a ++ b ++ c)%string.
Proof. induction a as [|ch a IH]; cbn; [reflexivity | now rewrite IH]. Qed.

Lemma joined_arrow_lines BUILDS_YML_PATH f fs :
  (newline ++ "  -> "
   ++ String.concat (newline ++ "  -> ")
        (map (failure_line BUILDS_YML_PATH) (f :: fs))
   ++ newline)%string
  = arrow_lines BUILDS_YML_PATH (f :: fs).
Proof.
  revert f. induction fs as [|g fs IH]; intros f.
  - reflexivity.
  - cbn [map String.concat arrow_lines] in *.
    rewrite <- (IH g). now rewrite !append_assoc.
Qed.

(** X3. The report of a failed validation has the header line and one
    arrow line for every failure, in their order. The load of a document
    that is not valid, and whose traversal does not throw, builds it and
    throws the object that [new AssertionError] makes, which has no
    property: the report is not in what the caller catches. The file has
    been read and the cache stays empty. *)
Theorem report_is_built_and_dropped BUILDS_YML_PATH :
  (forall f fs,
     constructFailureMessage BUILDS_YML_PATH (f :: fs, Some tt)
     = Some ("Failed to parse builds.yml"
             ++ arrow_lines BUILDS_YML_PATH (f :: fs))%string)
  /\ (forall st tree f fs r,
        cachedBuildTypes st = None ->
        run BuildTypesStruct true tree [] = (f :: fs, Some r) ->
        loadBuildTypesConfig BUILDS_YML_PATH (Some tree) st
        = (Threw (VObj []), mkProcess None (heap st) (S (reads st)))).
Proof.
  split.
  - intros f fs. cbn [constructFailureMessage]. do 2 f_equal.
    exact (joined_arrow_lines BUILDS_YML_PATH f fs).
  - intros st tree f fs r C R.
    unfold loadBuildTypesConfig, validate. rewrite C, R. reflexivity.
Qed.

Lemma report_is_built_and_dropped_witness :
  let tree := a_document "missing" [VStr "A"; VStr "A"] in
  cachedBuildTypes start = None
  /\ (exists f fs r, run BuildTypesStruct true tree [] = (f :: fs, Some r))
  /\ loadBuildTypesConfig "builds.yml" (Some tree) start
     = (Threw (VObj []), mkProcess None [] 1).
Proof.
  cbv zeta. split; [reflexivity|].
  assert (R : run BuildTypesStruct true
                (a_document "missing" [VStr "A"; VStr "A"]) []
              = ([mkFailure duplicated ["env"] (Some "unique");
                  mkFailure (no_default (VStr "missing")) [] (Some "BuildTypes")],
                 Some (not_refined, a_document "missing" [VStr "A"; VStr "A"])))
    by (vm_compute; reflexivity).
  split; [eexists _, _, _; exact R|].
  exact (proj2 (report_is_built_and_dropped "builds.yml") start _ _ _ _
           eq_refl R).
Defined.

(** X4. A document that is no object (what an empty file or a file with
    a single scalar decodes to) fails with one failure, at the root of
    the document and of no refinement: the refinement of
    [BuildTypesStruct], which would throw on such a value, does not run.
    The load throws the object that [new AssertionError] makes, and the
    cache stays empty. *)
Theorem non_object_document_fails_once BUILDS_YML_PATH st raw :
  cachedBuildTypes st = None ->
  isObject raw = false ->
  (exists text,
     run BuildTypesStruct true raw []
     = ([mkFailure text [] None], Some (not_valid, raw)))
  /\ loadBuildTypesConfig BUILDS_YML_PATH (Some raw) st
     = (Threw (VObj []), mkProcess None (heap st) (S (reads st))).
Proof.
  intros C O.
  assert (R : run BuildTypesStruct true raw []
              = ([fail_here []
                    ("Expected an object, but received: " ++ print raw)%string],
                 Some (not_valid, raw))).
  { unfold BuildTypesStruct. rewrite run_refine by reflexivity.
    rewrite run_object_not_object; [reflexivity|].
    unfold isObject in O. now destruct (own_entries raw). }
  split; [eexists; exact R|].
  unfold loadBuildTypesConfig, validate. rewrite C, R. reflexivity.
Qed.

Lemma non_object_document_fails_once_witness :
  cachedBuildTypes start = None
  /\ isObject VNull = false
  /\ run BuildTypesStruct true VNull []
     = ([mkFailure "Expected an object, but received: null" [] None],
        Some (not_valid, VNull))
  /\ loadBuildTypesConfig "builds.yml" (Some VNull) start
     = (Threw (VObj []), mkProcess None [] 1).
Proof.
  split; [reflexivity|]. split; [reflexivity|].
  split; [reflexivity|].
  exact (proj2 (non_object_document_fails_once "builds.yml" start VNull
                  eq_refl eq_refl)).
Defined.

(** ** What the schema accepts *)

Lemma override_valid v p r :
  run (union [string_; literal (VBool false)]) true v p = ([], Some (valid, r)) ->
  override v /\ r = v.
Proof.
  destruct v as [| |[|]|n|s|xs|fs]; vm_compute; intros H;
    try discriminate; injection H as <-; split; try reflexivity.
  - now right.
  - left. now exists s.
Qed.

Lemma optional_boolean_valid v p r :
  run (optional boolean) true v p = ([], Some (valid, r)) ->
  absent_or (fun v => exists b, v = VBool b) v /\ r = v.
Proof.
  destruct v as [| |b|n|s|xs|fs]; vm_compute; intros H;
    try discriminate; injection H as <-; split; try reflexivity.
  - now left.
  - right. now exists b.
Qed.

Lemma elements_valid_strings co p n xs ys :
  elements_valid string_ co p n xs ys ->
  ys = xs /\ exists names, xs = map VStr names.
Proof.
  induction 1 as [|n x y xs ys R _ [-> [names ->]]].
  - split; [reflexivity | now exists []].
  - rewrite run_string_ in R. destruct x; try discriminate.
    injection R as <-. split; [reflexivity|]. now exists (s :: names).
Qed.

Lemma unique_names_valid co v p r :
  run (unique (array string_) None) co v p = ([], Some (valid, r)) ->
  r = v /\ exists names, v = VArr (map VStr names) /\ NoDup names.
Proof.
  unfold unique. intros R. apply refine_valid in R as [R U]; [|reflexivity].
  destruct v as [| | | | |xs|]; try (rewrite run_array_not_array in R by reflexivity;
                                     discriminate).
  apply run_array_valid in R as [_ (ys & E & ->)].
  apply elements_valid_strings in E as [-> [names ->]].
  assert (Er : (if co then map VStr names else map VStr names) = map VStr names)
    by now destruct co.
  rewrite Er in *. split; [reflexivity|]. exists names. split; [reflexivity|].
  unfold uniqWith in U.
  rewrite (uniq_onto_agree _ same_key [] (map VStr names)) in U.
  - destruct (uniqWith_keyed _ _ (keyed_strings names)) as (u & Uq & L).
    unfold uniqWith in Uq. rewrite Uq in U. apply L.
    destruct (Nat.eqb_spec (length u) (length (map VStr names))) as [E|E];
      [exact E | discriminate].
  - intros x y Ix Iy. cbn [app] in *.
    apply in_map_iff in Ix as (a & <- & _). apply in_map_iff in Iy as (b & <- & _).
    reflexivity.
Qed.

Lemma optional_names_valid v p r :
  run (optional (unique (array string_) None)) true v p = ([], Some (valid, r)) ->
  absent_or (fun v => exists names, v = VArr (map VStr names) /\ NoDup names) v
  /\ r = v.
Proof.
  destruct v as [| | | | |xs|];
    try (vm_compute; intros H; discriminate).
  - vm_compute. intros [= <-]. split; [now left | reflexivity].
  - rewrite run_optional_defined by (intros ? [= <-]; discriminate).
    intros R. apply unique_names_valid in R as [-> N]. split; [now right | reflexivity].
Qed.

Lemma unknown_none_only_keys schema fs :
  unknown_fields schema fs = [] -> only_keys (map fst schema) fs.
Proof.
  induction fs as [|[k x] fs IH]; [constructor|].
  cbn [unknown_fields filter fst]. fold (unknown_fields schema fs).
  destruct (existsb (String.eqb k) (map fst schema)) eqn:E; cbn [negb];
    [|discriminate].
  intros U. constructor; [now apply existsb_eqb_In | now apply IH].
Qed.

(** A value [object(schema)] accepts has own properties, all of them
    named in the schema. *)
Lemma object_valid_only_keys schema v p r :
  run (object schema) true v p = ([], Some (valid, r)) ->
  exists fs, own_entries v = Some fs /\ only_keys (map fst schema) fs.
Proof.
  destruct (own_entries v) as [fs|] eqn:O;
    [|now rewrite (run_object_not_object _ _ _ _ O)].
  rewrite (run_object true schema v p fs O).
  destruct (run_children _ _ _ _ _) as [kfs [[st cur]|]]; [|discriminate].
  intros [= H1 H2 _]. apply app_eq_nil in H1 as [_ H1].
  apply map_eq_nil in H1. exists fs. split; [reflexivity|].
  now apply unknown_none_only_keys.
Qed.

Lemma build_type_valid bt p r :
  run BuildTypeStruct true bt p = ([], Some (valid, r)) ->
  build_type_shape bt
  /\ lookup r "features" = lookup bt "features"
  /\ lookup r "isPrerelease" = lookup bt "isPrerelease"
  /\ lookup r "manifestOverrides" = lookup bt "manifestOverrides"
  /\ lookup r "buildNameOverride" = lookup bt "buildNameOverride".
Proof.
  unfold BuildTypeStruct. intros R.
  destruct (object_valid_only_keys _ _ _ _ R) as (fs & O & K).
  pose proof (object_valid_lookup _ _ _ _ "features" _ fs O
                distinct_build_type_keys ltac:(cbn; tauto) R) as F.
  pose proof (object_valid_lookup _ _ _ _ "env" _ fs O
                distinct_build_type_keys ltac:(cbn; tauto) R) as E.
  pose proof (object_valid_lookup _ _ _ _ "isPrerelease" _ fs O
                distinct_build_type_keys ltac:(cbn; tauto) R) as P.
  pose proof (object_valid_lookup _ _ _ _ "manifestOverrides" _ fs O
                distinct_build_type_keys ltac:(cbn; tauto) R) as M.
  pose proof (object_valid_lookup _ _ _ _ "buildNameOverride" _ fs O
                distinct_build_type_keys ltac:(cbn; tauto) R) as B.
  apply optional_names_valid in F as [F ->].
  apply optional_boolean_valid in P as [P ->].
  apply override_valid in M as [M ->].
  apply override_valid in B as [B ->].
  repeat split; try reflexivity.
  assert (Ob : bt = VObj fs).
  { destruct bt as [| | | | |xs|fs']; try discriminate.
    - exfalso. destruct xs as [|x xs].
      + destruct M as [[s M]|M]; discriminate.
      + injection O as <-. inversion K as [|? ? K0 _]; subst.
        cbn in K0. intuition discriminate.
    - now injection O as ->. }
  exists fs. split; [exact Ob|]. split; [exact K|]. split; [exact F|].
  split; [|now repeat split].
  apply optional_env_valid in E as [[E _]|(xs & ys & E & _)];
    [now left | right; now rewrite E].
Qed.

(** The value a valid document has at a build type of the raw
    document. *)
Lemma build_type_of_document raw doc bts name bt :
  validate raw BuildTypesStruct true = Valid doc ->
  lookup raw "buildTypes" = VObj bts -> NoDup (map fst bts) ->
  assoc name bts = Some bt ->
  run BuildTypeStruct true bt ["buildTypes"; name]
  = ([], Some (valid, at_path doc ["buildTypes"; name])).
Proof.
  intros V B N A. apply validate_Valid in V. unfold BuildTypesStruct in V.
  apply refine_valid in V as [V _]; [|reflexivity].
  assert (exists ofs0, own_entries raw = Some ofs0) as [ofs O]
    by (apply (lookup_own raw "buildTypes"); rewrite B; discriminate).
  pose proof (object_valid_lookup _ _ _ _ "buildTypes"
                (record string_ BuildTypeStruct) ofs O
                distinct_document_keys ltac:(cbn; tauto) V) as R1.
  rewrite B in R1.
  exact (record_valid_lookup _ _ _ _ name bt N A R1).
Qed.

(** ** The build types of a valid document *)

(** X5. Every build type of a valid document is an object with no other
    properties than [features], [env], [isPrerelease],
    [manifestOverrides] and [buildNameOverride]; the two overrides are
    present, each a string or [false]; [isPrerelease] is absent or a
    boolean; [features] is absent or a list of pairwise distinct
    strings; and the validated document holds these four fields as they
    were given. *)
Theorem valid_build_types_shape raw doc bts name bt :
  validate raw BuildTypesStruct true = Valid doc ->
  lookup raw "buildTypes" = VObj bts -> NoDup (map fst bts) ->
  assoc name bts = Some bt ->
  build_type_shape bt
  /\ forall k,
       In k ["features"; "isPrerelease"; "manifestOverrides";
             "buildNameOverride"] ->
       at_path doc ["buildTypes"; name; k] = lookup bt k.
Proof.
  intros V B N A.
  pose proof (build_type_of_document raw doc bts name bt V B N A) as R.
  apply build_type_valid in R as (S & F & P & M & O).
  split; [exact S|].
  intros k [<-|[<-|[<-|[<-|[]]]]]; assumption.
Qed.

Lemma valid_build_types_shape_witness :
  let bt := VObj [("features", VArr [VStr "a"; VStr "b"]);
                  ("manifestOverrides", VStr "m.json");
                  ("buildNameOverride", VBool false)] in
  let raw := VObj [("default", VStr "beta");
                   ("buildTypes", VObj [("beta", bt)]);
                   ("features", VObj []);
                   ("env", VArr [])] in
  validate raw BuildTypesStruct true = Valid raw
  /\ build_type_shape bt
  /\ at_path raw ["buildTypes"; "beta"; "manifestOverrides"] = VStr "m.json".
Proof.
  cbv zeta.
  match goal with |- ?v = _ /\ _ => assert (V : v = Valid
    (VObj [("default", VStr "beta");
           ("buildTypes",
            VObj [("beta",
                   VObj [("features", VArr [VStr "a"; VStr "b"]);
                         ("manifestOverrides", VStr "m.json");
                         ("buildNameOverride", VBool false)])]);
           ("features", VObj []);
           ("env", VArr [])])) by (vm_compute; reflexivity) end.
  split; [exact V|].
  destruct (valid_build_types_shape _ _
              [("beta",
                VObj [("features", VArr [VStr "a"; VStr "b"]);
                      ("manifestOverrides", VStr "m.json");
                      ("buildNameOverride", VBool false)])]
              "beta" _ V eq_refl
              ltac:(repeat constructor; cbn; tauto) eq_refl) as [S K].
  split; [exact S|]. reflexivity.
Defined.

(** The run of the struct of [features] on a list of names. *)
Lemma names_run names p :
  (NoDup names ->
   run (optional (unique (array string_) None)) true (VArr (map VStr names)) p
   = ([], Some (valid, VArr (map VStr names))))
  /\ (~ NoDup names ->
      run (optional (unique (array string_) None)) true (VArr (map VStr names)) p
      = ([duplicated_at p], Some (not_refined, VArr (map VStr names)))).
Proof.
  split; [now apply feature_names_run|]. intros N.
  rewrite run_optional_defined by (intros ? [= <-]; discriminate).
  unfold unique. rewrite run_refine by reflexivity.
  assert (A : run (array string_) true (VArr (map VStr names)) p
              = ([], Some (valid, VArr (map VStr names)))).
  { apply run_array_valid. split; [reflexivity|]. exists (map VStr names).
    split; [|reflexivity]. generalize 0. clear N.
    induction names as [|a names IH]; intros n; [constructor|].
    cbn. constructor; [apply run_string_str | apply IH]. }
  rewrite A. unfold uniqWith.
  rewrite (uniq_onto_agree _ same_key [] (map VStr names)).
  - destruct (uniqWith_keyed _ _ (keyed_strings names)) as (u & U & L).
    unfold uniqWith in U. rewrite U.
    destruct (Nat.eqb_spec (length u) (length (map VStr names))) as [E|E];
      [now apply L in E|reflexivity].
  - intros x y Ix Iy. cbn [app] in *.
    apply in_map_iff in Ix as (a & <- & _). apply in_map_iff in Iy as (b & <- & _).
    reflexivity.
Qed.

(** In a traversal of a document that does not throw, the failures at
    and below a field of a build type are those of the run of the
    field's struct. *)
Lemma build_type_field_run raw failures r bts name bt k s :
  run BuildTypesStruct true raw [] = (failures, Some r) ->
  lookup raw "buildTypes" = VObj bts -> NoDup (map fst bts) ->
  assoc name bts = Some bt -> isObject bt = true ->
  In (k, s)
    [("features", optional (unique (array string_) None));
     ("env", optional EnvArrayStruct);
     ("isPrerelease", optional boolean);
     ("manifestOverrides", union [string_; literal (VBool false)]);
     ("buildNameOverride", union [string_; literal (VBool false)])] ->
  exists r0, run s true (lookup bt k) ["buildTypes"; name; k]
             = (under ["buildTypes"; name; k] failures, Some r0).
Proof.
  intros R B N A Ob I. unfold BuildTypesStruct in R.
  destruct (refined_object_under _ _ _ _ _ [] _ _ [name; k] "buildTypes" R)
    as (fs' & r' & R' & U).
  cbn [app] in U. rewrite U.
  assert (exists ofs0, own_entries raw = Some ofs0) as [ofs O]
    by (apply (lookup_own raw "buildTypes"); rewrite B; discriminate).
  destruct (object_under _ _ _ _ ofs _ _ "buildTypes"
              (record string_ BuildTypeStruct) O
              distinct_document_keys paths_below_document_schema
              ltac:(cbn; tauto) R') as [r1 R1].
  rewrite B in R1.
  destruct (record_under _ _ _ _ _ _ name bt N paths_below_BuildTypeStruct A R1)
    as [r2 R2].
  assert (exists ofs0, own_entries bt = Some ofs0) as [ofs' O']
    by (unfold isObject in Ob; destruct (own_entries bt); [eauto | discriminate]).
  unfold BuildTypeStruct in R2.
  destruct (object_under _ _ _ _ ofs' _ _ k s O'
              distinct_build_type_keys paths_below_build_type_schema I R2)
    as [r3 R3].
  cbn [app] in R3. exists r3. rewrite R3. f_equal.
  rewrite (under_under ["buildTypes"; name] [k]).
  now rewrite (under_under ["buildTypes"] [name; k]).
Qed.

(** X6. Take a traversal of a document that does not throw and a build
    type whose [features] is a list of names. When a name occurs twice,
    the only failure at or below the path of the list is "Array contains
    duplicated values", once, and the document is not valid; when the
    names are pairwise distinct there is no failure at or below that
    path. *)
Theorem repeated_feature_names_fail_once raw failures r bts name bt names :
  run BuildTypesStruct true raw [] = (failures, Some r) ->
  lookup raw "buildTypes" = VObj bts -> NoDup (map fst bts) ->
  assoc name bts = Some bt ->
  lookup bt "features" = VArr (map VStr names) ->
  (~ NoDup names ->
   under ["buildTypes"; name; "features"] failures
   = [mkFailure duplicated ["buildTypes"; name; "features"] (Some "unique")]
   /\ forall doc, validate raw BuildTypesStruct true <> Valid doc)
  /\ (NoDup names -> under ["buildTypes"; name; "features"] failures = []).
Proof.
  intros R B N A F.
  assert (Ob : isObject bt = true).
  { destruct (lookup_own bt "features") as [ofs O];
      [rewrite F; discriminate|]. unfold isObject. now rewrite O. }
  destruct (build_type_field_run raw failures r bts name bt "features" _
              R B N A Ob ltac:(cbn; tauto)) as [r0 R0].
  rewrite F in R0. destruct (names_run names ["buildTypes"; name; "features"])
    as [Distinct Repeated].
  split.
  - intros D. rewrite (Repeated D) in R0. injection R0 as R0 _.
    split; [now rewrite <- R0|].
    intros doc V. rewrite (valid_no_failures raw failures r doc R V) in R0.
    discriminate.
  - intros D. rewrite (Distinct D) in R0. now injection R0 as <-.
Qed.

Lemma repeated_feature_names_fail_once_witness :
  let bt := VObj [("features", VArr [VStr "a"; VStr "a"]);
                  ("manifestOverrides", VBool false);
                  ("buildNameOverride", VBool false)] in
  let raw := VObj [("default", VStr "beta");
                   ("buildTypes", VObj [("beta", bt)]);
                   ("features", VObj []);
                   ("env", VArr [])] in
  let failures :=
    [mkFailure duplicated ["buildTypes"; "beta"; "features"] (Some "unique")] in
  (exists r, run BuildTypesStruct true raw [] = (failures, Some r))
  /\ ~ NoDup ["a"; "a"]
  /\ under ["buildTypes"; "beta"; "features"] failures = failures
  /\ forall doc, validate raw BuildTypesStruct true <> Valid doc.
Proof.
  cbv zeta.
  match goal with |- (exists r, ?t = (?fs, _)) /\ _ =>
    destruct (snd t) as [r0|] eqn:S;
      [assert (R : t = (fs, Some r0))
         by (rewrite <- S; vm_compute; reflexivity)
      | vm_compute in S; discriminate]
  end.
  assert (D : ~ NoDup ["a"; "a"]).
  { intros H. inversion H as [|? ? H1 _]. apply H1. now left. }
  split; [now exists r0|]. split; [exact D|].
  exact (proj1 (repeated_feature_names_fail_once _ _ _
                  [("beta",
                    VObj [("features", VArr [VStr "a"; VStr "a"]);
                          ("manifestOverrides", VBool false);
                          ("buildNameOverride", VBool false)])]
                  "beta" _ ["a"; "a"] R eq_refl
                  ltac:(repeat constructor; cbn; tauto) eq_refl eq_refl) D).
Defined.

(** ** The features and the fields of a valid document *)

Lemma run_null_feature p :
  run (coerce FeatureStruct (nullable never) (fun _ => Some (VObj []))) true
    VNull p
  = ([], Some (valid, VObj [])).
Proof. vm_compute. reflexivity. Qed.

Lemma feature_value_of_document raw doc fts name ft :
  validate raw BuildTypesStruct true = Valid doc ->
  lookup raw "features" = VObj fts -> NoDup (map fst fts) ->
  assoc name fts = Some ft ->
  run (coerce FeatureStruct (nullable never) (fun _ => Some (VObj []))) true ft
    ["features"; name]
  = ([], Some (valid, at_path doc ["features"; name])).
Proof.
  intros V F N A. apply validate_Valid in V. unfold BuildTypesStruct in V.
  apply refine_valid in V as [V _]; [|reflexivity].
  assert (exists ofs0, own_entries raw = Some ofs0) as [ofs O]
    by (apply (lookup_own raw "features"); rewrite F; discriminate).
  pose proof (object_valid_lookup _ _ _ _ "features" FeaturesStruct ofs O
                distinct_document_keys ltac:(cbn; tauto) V) as R1.
  rewrite F in R1. unfold FeaturesStruct in R1.
  apply refine_valid in R1 as [R1 _]; [|reflexivity].
  exact (record_valid_lookup _ _ _ _ name ft N A R1).
Qed.

(** X7. Every feature of a valid document is [null], or has no other
    properties than [env] and [assets], the env being absent or an
    array. The validated document holds an object for it: the empty
    object when the feature is [null]. *)
Theorem valid_features_shape raw doc fts name ft :
  validate raw BuildTypesStruct true = Valid doc ->
  lookup raw "features" = VObj fts -> NoDup (map fst fts) ->
  assoc name fts = Some ft ->
  feature_shape ft
  /\ (exists c, at_path doc ["features"; name] = VObj c)
  /\ (ft = VNull -> at_path doc ["features"; name] = VObj []).
Proof.
  intros V F N A.
  pose proof (feature_value_of_document raw doc fts name ft V F N A) as R.
  destruct ft as [| |b|n|s|xs|fs].
  2: { rewrite run_null_feature in R. injection R as R.
       split; [now left|]. split; [now exists [] | intros _; now symmetry]. }
  all: rewrite run_feature in R by discriminate.
  all: pose proof (object_valid_is_object _ _ _ _ _ _ R ltac:(discriminate)) as Oc.
  all: unfold FeatureStruct in R.
  all: destruct (object_valid_only_keys _ _ _ _ R) as (ofs & O & K).
  all: try discriminate.
  all: pose proof (object_valid_lookup _ _ _ _ "env" _ ofs O
                     distinct_feature_keys ltac:(cbn; tauto) R) as E.
  all: (split; [|split; [exact Oc | discriminate]]).
  all: right; exists ofs; split; [exact O|]; split; [exact K|].
  all: apply optional_env_valid in E as [[E _]|(ys & zs & E & _)];
    [now left | right; now rewrite E].
Qed.

Lemma valid_features_shape_witness :
  let raw := VObj [("default", VStr "stable");
                   ("buildTypes", VObj [("stable", a_build_type)]);
                   ("features", VObj [("a", VNull)]);
                   ("env", VArr [])] in
  let doc := VObj [("default", VStr "stable");
                   ("buildTypes", VObj [("stable", a_build_type)]);
                   ("features", VObj [("a", VObj [])]);
                   ("env", VArr [])] in
  validate raw BuildTypesStruct true = Valid doc
  /\ at_path doc ["features"; "a"] = VObj [].
Proof.
  cbv zeta.
  match goal with |- ?v = ?d /\ _ =>
    assert (V : v = d) by (vm_compute; reflexivity) end.
  split; [exact V|].
  exact (proj2 (proj2 (valid_features_shape _ _ [("a", VNull)] "a" VNull V
                         eq_refl ltac:(repeat constructor; cbn; tauto) eq_refl))
           eq_refl).
Defined.

(** X8. A valid document is an object with the four properties
    [default], [buildTypes], [features] and [env] and no other: the
    default is a string, the build types and the features are objects
    and the env is an array. *)
Theorem valid_document_shape raw doc :
  validate raw BuildTypesStruct true = Valid doc -> document_shape raw.
Proof.
  intros V. apply validate_Valid in V. unfold BuildTypesStruct in V.
  apply refine_valid in V as [V _]; [|reflexivity].
  destruct (object_valid_only_keys _ _ _ _ V) as (fs & O & K).
  pose proof (object_valid_lookup _ _ _ _ "default" _ fs O
                distinct_document_keys ltac:(cbn; tauto) V) as D.
  pose proof (object_valid_lookup _ _ _ _ "buildTypes" _ fs O
                distinct_document_keys ltac:(cbn; tauto) V) as B.
  pose proof (object_valid_lookup _ _ _ _ "features" _ fs O
                distinct_document_keys ltac:(cbn; tauto) V) as F.
  pose proof (object_valid_lookup _ _ _ _ "env" _ fs O
                distinct_document_keys ltac:(cbn; tauto) V) as E.
  rewrite run_string_ in D.
  destruct (lookup raw "default") as [| | | |d| |] eqn:Dr; try discriminate.
  assert (Or : raw = VObj fs).
  { destruct raw as [| | | | |xs|fs']; try discriminate.
    - exfalso. destruct xs as [|x xs]; [discriminate|].
      injection O as <-. inversion K as [|? ? K0 _]; subst.
      cbn in K0. intuition discriminate.
    - now injection O as ->. }
  exists fs, d. split; [exact Or|]. split; [exact K|]. split; [exact Dr|].
  split; [|split].
  - unfold isObject. destruct (own_entries (lookup raw "buildTypes")) eqn:Ob;
      [reflexivity|]. now rewrite (run_record_not_object _ _ _ _ _ Ob) in B.
  - unfold FeaturesStruct in F. apply refine_valid in F as [F _]; [|reflexivity].
    unfold isObject. destruct (own_entries (lookup raw "features")) eqn:Ob;
      [reflexivity|]. now rewrite (run_record_not_object _ _ _ _ _ Ob) in F.
  - unfold EnvArrayStruct, unique in E.
    apply refine_valid in E as [E _]; [|reflexivity].
    destruct (is_array (lookup raw "env")) eqn:Ia; [reflexivity|].
    now rewrite (run_array_not_array _ _ _ _ Ia) in E.
Qed.

Lemma valid_document_shape_witness :
  validate (a_document "stable" []) BuildTypesStruct true
  = Valid (a_document "stable" [])
  /\ document_shape (a_document "stable" []).
Proof.
  assert (V : validate (a_document "stable" []) BuildTypesStruct true
              = Valid (a_document "stable" []))
    by (vm_compute; reflexivity).
  split; [exact V | exact (valid_document_shape _ _ V)].
Defined.

(** ** A traversal that throws *)

Lemma write_back_object co st c k x :
  exists c', write_back co st (VObj c) k x = VObj c'.
Proof.
  destruct st; cbn; try now exists c.
  destruct co; [apply store_is_object | now exists c].
Qed.






(** ** The entries of an env sequence, one by one *)

Lemma filter_indexed E n xs i x :
  nth_error xs i = Some x ->
  filter (fun e : string * value * Struct =>
            String.eqb (fst (fst e)) (string_of_nat (n + i)))
    (map (fun kx => (fst kx, snd kx, E)) (indexed_from n xs))
  = [(string_of_nat (n + i), x, E)].
Proof.
  revert n i. induction xs as [|y xs IH]; intros n i; [now destruct i|].
  cbn [indexed_from map filter fst snd]. destruct i as [|i]; cbn [nth_error].
  - intros [= ->]. rewrite Nat.add_0_r, String.eqb_refl. f_equal.
    assert (F : forall m l, n < m ->
                filter (fun e : string * value * Struct =>
                          String.eqb (fst (fst e)) (string_of_nat n))
                  (map (fun kx => (fst kx, snd kx, E)) (indexed_from m l)) = []).
    { intros m l. revert m. induction l as [|z l IHl]; intros m Lt; [reflexivity|].
      cbn [indexed_from map filter fst snd].
      destruct (String.eqb_spec (string_of_nat m) (string_of_nat n)) as [Eq|_].
      - apply string_of_nat_inj in Eq. lia.
      - apply IHl. lia. }
    apply F. lia.
  - intros N.
    destruct (String.eqb_spec (string_of_nat n) (string_of_nat (n + S i)))
      as [Eq|_]; [apply string_of_nat_inj in Eq; lia|].
    replace (n + S i) with (S n + i) by lia. now apply IH.
Qed.

(** The failures of an array below one of its indices are those of the
    element there. *)
Lemma array_under co E xs p fs r i x :
  paths_below E -> nth_error xs i = Some x ->
  run (array E) co (VArr xs) p = (fs, Some r) ->
  exists r0, run E co x (p ++ [string_of_nat i])
             = (under (p ++ [string_of_nat i]) fs, Some r0).
Proof.
  intros P N. rewrite run_array. intros C.
  destruct (run_children_no_throw _ _ _ _ _ _ _ (string_of_nat i, x, E) C)
    as [r0 R0].
  { apply in_map_iff. exists (string_of_nat i, x). split; [reflexivity|].
    apply assoc_In. unfold indexed.
    now rewrite <- N, <- (assoc_indexed_from 0 xs i). }
  cbn [fst snd] in R0. exists r0. rewrite R0. f_equal.
  rewrite (run_children_complete _ _ _ _ _ _ _ C), children_under.
  - unfold indexed. pose proof (filter_indexed E 0 xs i x N) as Fi.
    cbn [Nat.add] in Fi. rewrite Fi. cbn [flat_map].
    now rewrite app_nil_r.
  - apply Forall_map. apply Forall_forall. intros kx _. exact P.
Qed.

Lemma paths_below_EnvEntry : paths_below EnvEntry.
Proof.
  apply paths_below_union. repeat constructor;
    [apply paths_below_string | apply paths_below_EnvDefinitionStruct].
Qed.

(** In a traversal of a document that does not throw, the failures at
    and below the path of an entry of an env sequence are those of the
    run of the entry's struct on that entry. *)
Lemma env_entry_run raw failures r p xs i x :
  run BuildTypesStruct true raw [] = (failures, Some r) ->
  env_sequence raw p xs -> nth_error xs i = Some x ->
  exists r0, run EnvEntry true x (p ++ [string_of_nat i])
             = (under (p ++ [string_of_nat i]) failures, Some r0).
Proof.
  intros R S N. destruct (env_sequence_run raw failures r p xs R S) as [r0 R0].
  unfold EnvArrayStruct, unique in R0.
  destruct (refine_under (array EnvEntry) _ _ _ _ _ _ _ [] (string_of_nat i)
              (fun _ _ => eq_refl) R0) as (fs' & r' & R' & U).
  destruct (array_under _ _ _ _ _ _ i x paths_below_EnvEntry N R') as [r1 R1].
  exists r1. rewrite R1. f_equal.
  rewrite <- U. now rewrite under_under.
Qed.

(** What the entry struct makes of a value that is neither a string nor
    an object: a number, a boolean, [null] or [undefined]. *)
Lemma run_EnvEntry_primitive x p :
  is_string x = false -> own_entries x = None ->
  run EnvEntry true x p
  = ([fail_here p ("Expected the value to satisfy a union of `string | object`, "
                   ++ "but received: " ++ print x)%string;
      fail_here p ("Expected a string, but received: " ++ print x)%string;
      fail_here p ("Expected an object, but received: " ++ print x)%string],
     Some (not_valid, x)).
Proof.
  destruct x as [| |b|n|s|xs|fs]; try discriminate; intros _ _; reflexivity.
Qed.

(** X10. Take a traversal of a document that does not throw and an entry
    of one of its env sequences that is neither a string nor an object
    (a number, a boolean or [null]). There are three failures at or
    below the path of that entry, which ends in its index: one of the
    union and one of each of its two members, all three at the path of
    the entry itself and none of a refinement; and the document is not
    valid. *)
Theorem primitive_entry_fails_at_its_index raw failures r p xs i x :
  run BuildTypesStruct true raw [] = (failures, Some r) ->
  env_sequence raw p xs -> nth_error xs i = Some x ->
  is_string x = false -> own_entries x = None ->
  map (fun f => (path f, refinement f)) (under (p ++ [string_of_nat i]) failures)
  = [(p ++ [string_of_nat i], None);
     (p ++ [string_of_nat i], None);
     (p ++ [string_of_nat i], None)]
  /\ forall doc, validate raw BuildTypesStruct true <> Valid doc.
Proof.
  intros R S N Is O.
  destruct (env_entry_run raw failures r p xs i x R S N) as [r0 R0].
  rewrite (run_EnvEntry_primitive x _ Is O) in R0. injection R0 as R0 _.
  split; [now rewrite <- R0|].
  intros doc V. rewrite (valid_no_failures raw failures r doc R V) in R0.
  discriminate.
Qed.

Lemma primitive_entry_fails_at_its_index_witness :
  let bt := VObj [("env", VArr [VNum 1]);
                  ("manifestOverrides", VBool false);
                  ("buildNameOverride", VBool false)] in
  let raw := VObj [("default", VStr "beta");
                   ("buildTypes", VObj [("beta", bt)]);
                   ("features", VObj []);
                   ("env", VArr [])] in
  exists failures r,
    run BuildTypesStruct true raw [] = (failures, Some r)
    /\ env_sequence raw ["buildTypes"; "beta"; "env"] [VNum 1]
    /\ map (fun f => (path f, refinement f))
         (under ["buildTypes"; "beta"; "env"; "0"] failures)
       = [(["buildTypes"; "beta"; "env"; "0"], None);
          (["buildTypes"; "beta"; "env"; "0"], None);
          (["buildTypes"; "beta"; "env"; "0"], None)].
Proof.
  cbv zeta.
  match goal with |- exists failures r, ?t = _ /\ _ =>
    destruct t as [failures [r|]] eqn:R; [|vm_compute in R; discriminate]
  end.
  exists failures, r. split; [reflexivity|].
  match goal with |- env_sequence ?raw _ _ /\ _ =>
    assert (S : env_sequence raw ["buildTypes"; "beta"; "env"] [VNum 1])
  end.
  { apply (build_type_env _
             [("beta", VObj [("env", VArr [VNum 1]);
                             ("manifestOverrides", VBool false);
                             ("buildNameOverride", VBool false)])]
             "beta"
             (VObj [("env", VArr [VNum 1]);
                    ("manifestOverrides", VBool false);
                    ("buildNameOverride", VBool false)]));
      try reflexivity. repeat constructor. cbn. tauto. }
  split; [exact S|].
  destruct (primitive_entry_fails_at_its_index _ _ _ _ _ 0 (VNum 1) R S
              eq_refl eq_refl eq_refl) as [U _].
  exact U.
Defined.

(** *** Entries that are arrays *)

Lemma normal_entry_object fs : exists fs', normal_entry (VObj fs) = VObj fs'.
Proof. destruct fs as [|[k v] [|[k' v'] fs]]; eexists; reflexivity. Qed.

Lemma coercer_EnvDefinitionStruct_own v fs :
  own_entries v = Some fs ->
  coercer EnvDefinitionStruct v = Some (normal_entry (VObj fs)).
Proof.
  intros O. destruct v as [| | | | |xs|fs0]; try discriminate.
  - unfold EnvDefinitionStruct. cbn [coerce coercer]. unfold is_, validate.
    rewrite run_refine by reflexivity.
    rewrite (run_record false string_ any (VArr xs) [] fs O).
    rewrite record_any_children. cbn [keys values]. rewrite O.
    rewrite length_map. cbn [object coercer]. unfold isObject, spread. rewrite O.
    destruct fs as [|[k x] [|[k' x'] fs]]; reflexivity.
  - injection O as ->. apply coercer_EnvDefinitionStruct.
Qed.

Lemma run_EnvDefinitionStruct_own v fs p :
  own_entries v = Some fs ->
  run EnvDefinitionStruct true v p
  = run (object entry_schema) true (normal_entry (VObj fs)) p.
Proof.
  intros O. rewrite !run_eq. rewrite (coercer_EnvDefinitionStruct_own v fs O).
  destruct (normal_entry_object fs) as [fs' ->]. reflexivity.
Qed.

Lemma first_valid_own v fs :
  own_entries v = Some fs ->
  first_valid [string_; EnvDefinitionStruct] v =
  Some (if accepted_entry (normal_entry (VObj fs)) then normal_entry (VObj fs)
        else v).
Proof.
  intros O. cbn [first_valid]. unfold validate at 1. rewrite run_string_.
  assert (S : is_string v = false) by (destruct v; try discriminate; reflexivity).
  rewrite S. unfold validate. rewrite (run_EnvDefinitionStruct_own v fs _ O).
  destruct (normal_entry_object fs) as [fs' N]. rewrite N.
  destruct (accepted_entry (VObj fs')) eqn:A.
  - now rewrite run_entry_schema_accepted.
  - destruct (run_entry_schema_rejected true fs' [] A) as (f & rest & ->).
    reflexivity.
Qed.

(** Without coercion, the object schema of an entry looks at the own
    properties of the value only. *)
Lemma run_entry_schema_own v fs p :
  own_entries v = Some fs ->
  run (object entry_schema) false v p
  = (fst (run (object entry_schema) false (VObj fs) p),
     Some (if accepted_entry (VObj fs) then valid else not_valid, v)).
Proof.
  intros O. rewrite run_entry_schema.
  rewrite (run_object false entry_schema v p fs O).
  change (known_entries v entry_schema)
    with [("key", lookup v "key", string_);
          ("value", lookup v "value", unknown)].
  rewrite <- !(lookup_spread v _ fs O).
  rewrite run_children_cons, run_string_. unfold accepted_entry.
  destruct (is_string (lookup (VObj fs) "key")) eqn:K.
  - rewrite run_children_cons, run_unknown.
    cbn [run_children ret fst snd app child_status fold_left write_back andb].
    now destruct (unknown_fields entry_schema fs).
  - rewrite run_children_cons, run_unknown.
    cbn [run_children ret fst snd app child_status fold_left write_back
         refinement fail_here andb].
    now destruct (unknown_fields entry_schema fs).
Qed.

(** What the entry struct makes of a value with own properties: the
    normal form of the entry when the object schema accepts it, and
    failures otherwise. *)
Lemma run_EnvEntry_own v fs p :
  own_entries v = Some fs ->
  (accepted_entry (normal_entry (VObj fs)) = true ->
   run EnvEntry true v p = ([], Some (valid, normal_entry (VObj fs))))
  /\ (accepted_entry (normal_entry (VObj fs)) = false ->
      exists f rest,
        run EnvEntry true v p = (f :: rest, Some (not_valid, v))
        /\ Forall (fun g => refinement g = None) (f :: rest)).
Proof.
  intros O. unfold EnvEntry. rewrite run_union, (first_valid_own v fs O).
  assert (S : is_string v = false) by (destruct v; try discriminate; reflexivity).
  destruct (normal_entry_object fs) as [fs' N]. rewrite N. split; intros A; rewrite A.
  - cbn [union_failures]. rewrite run_string_. cbn [is_string].
    rewrite run_EnvDefinitionStruct, run_entry_schema_accepted by exact A.
    reflexivity.
  - assert (E : fs' = fs).
    { destruct fs as [|[k x] [|[k' x'] fs]]; cbn in N; try congruence.
      injection N as <-. discriminate. }
    subst fs'. cbn [union_failures]. rewrite run_string_, S.
    unfold EnvDefinitionStruct at 1. rewrite run_coerce.
    change [("key", string_); ("value", unknown)] with entry_schema.
    rewrite (run_entry_schema_own v fs p O), A.
    destruct (run_entry_schema_rejected false fs p A) as (f & rest & R).
    rewrite R. cbn [fst app]. eexists _, _. split; [reflexivity|].
    constructor; [reflexivity|]. constructor; [reflexivity|].
    rewrite app_nil_r.
    rewrite run_entry_schema in R. injection R as R _.
    rewrite <- R. apply Forall_app. split.
    + destruct (is_string (lookup (VObj fs) "key")); repeat constructor.
    + apply Forall_map. apply Forall_forall. intros kx _. reflexivity.
Qed.

(** The two outcomes of the entry struct, whatever the value: valid,
    with the string itself or the accepted normal form of the object; or
    not valid, with failures that are no failures of a refinement.  It
    never throws. *)
Lemma run_EnvEntry_cases x p :
  (exists y,
     run EnvEntry true x p = ([], Some (valid, y))
     /\ ((is_string x = true /\ y = x)
         \/ exists fs, own_entries x = Some fs
                       /\ y = normal_entry (VObj fs)
                       /\ accepted_entry y = true))
  \/ (exists f rest,
        run EnvEntry true x p = (f :: rest, Some (not_valid, x))
        /\ Forall (fun g => refinement g = None) (f :: rest)).
Proof.
  destruct (own_entries x) as [fs|] eqn:O.
  - destruct (run_EnvEntry_own x fs p O) as [Acc Rej].
    destruct (accepted_entry (normal_entry (VObj fs))) eqn:A.
    + left. exists (normal_entry (VObj fs)). split; [now apply Acc|].
      right. now exists fs.
    + right. now apply Rej.
  - destruct (is_string x) eqn:S.
    + left. destruct x; try discriminate. exists (VStr s).
      split; [apply run_EnvEntry_string | now left].
    + right. rewrite (run_EnvEntry_primitive x p S O).
      eexists _, _. split; [reflexivity|]. repeat constructor.
Qed.

Lemma accepted_normal_fixed fs :
  accepted_entry (normal_entry (VObj fs)) = true ->
  normal_entry (normal_entry (VObj fs)) = normal_entry (VObj fs).
Proof. destruct fs as [|[k v] [|[k' v'] fs]]; reflexivity. Qed.

(** What the entry struct returns, it returns again when run on it. *)
Lemma EnvEntry_fixed x p y q :
  run EnvEntry true x p = ([], Some (valid, y)) ->
  run EnvEntry true y q = ([], Some (valid, y)).
Proof.
  intros R. destruct (run_EnvEntry_cases x p) as [(y' & R' & H)|(f & rest & R' & _)];
    [|rewrite R' in R; discriminate].
  rewrite R' in R. injection R as <-.
  destruct H as [[S ->]|(fs & O & -> & A)].
  - destruct x; try discriminate. apply run_EnvEntry_string.
  - destruct (normal_entry_object fs) as [fs' N].
    pose proof (accepted_normal_fixed fs A) as F. rewrite N in *.
    rewrite run_EnvEntry_object, F. now rewrite A.
Qed.

Lemma elements_fixed p q n m xs ys :
  elements_valid EnvEntry true p n xs ys ->
  elements_valid EnvEntry true q m ys ys.
Proof.
  intros E. revert m. induction E as [|n x y xs ys R _ IH]; intros m;
    constructor; [|apply IH].
  exact (EnvEntry_fixed x _ y _ R).
Qed.

(** A valid run of a refined struct: the refinement returned, with no
    message. *)
Lemma refine_valid_returns s name f co v p r :
  (forall w q, refiner s w q = ret tt) ->
  run (refine s name f) co v p = ([], Some (valid, r)) ->
  run s co v p = ([], Some (valid, r)) /\ f r p = ([], Some tt).
Proof.
  intros T. rewrite (run_refine s name f co v p T).
  destruct (run s co v p) as [fs [[st cur]|]] eqn:R; [|discriminate].
  pose proof (run_status _ _ _ _ _ _ _ R) as S.
  destruct st; try discriminate.
  - destruct (f cur p) as [msgs [[]|]] eqn:F; [|discriminate].
    intros [= H1 H2 ->]. apply app_eq_nil in H1 as [-> H1].
    apply map_eq_nil in H1. now subst msgs.
  - destruct (f cur p) as [msgs [u|]] eqn:F; [|discriminate].
    intros [= H1 H2 ->]. apply app_eq_nil in H1 as [-> H1].
    destruct S as [_ S]. now specialize (S eq_refl).
Qed.

(** An env sequence that has been validated validates to itself. *)
Lemma EnvArrayStruct_fixed v p r q :
  run EnvArrayStruct true v p = ([], Some (valid, r)) ->
  run EnvArrayStruct true r q = ([], Some (valid, r)).
Proof.
  intros R. unfold EnvArrayStruct, unique in *.
  apply refine_valid_returns in R as [R U]; [|reflexivity].
  destruct (is_array v) eqn:Ia;
    [|now rewrite (run_array_not_array _ _ _ _ Ia) in R].
  destruct v as [| | | | |xs|]; try discriminate.
  apply run_array_valid in R as [_ (ys & E & ->)].
  rewrite run_refine by reflexivity.
  rewrite (proj2 (run_array_valid true _ q ys valid (VArr ys))).
  - now rewrite U.
  - split; [reflexivity|]. exists ys. split; [|reflexivity].
    exact (elements_fixed _ _ _ _ _ _ E).
Qed.

(** ** Validated values validate to themselves *)

Lemma assoc_set_only_keys allowed k x fs :
  In k allowed -> only_keys allowed fs -> only_keys allowed (assoc_set k x fs).
Proof.
  intros I. induction 1 as [|[k' y] fs H Hfs IH]; cbn [assoc_set].
  - repeat constructor. exact I.
  - cbn [fst] in H. destruct (String.eqb k k'); constructor; assumption.
Qed.

Lemma write_back_only_keys allowed co st c k x c' :
  In k allowed -> only_keys allowed c ->
  write_back co st (VObj c) k x = VObj c' -> only_keys allowed c'.
Proof.
  intros I K. destruct st; cbn [write_back]; try (intros [= <-]; exact K).
  destruct co; [|intros [= <-]; exact K].
  unfold store. destruct x; try (destruct (has_key (VObj c) k));
    cbn [assign]; intros [= <-]; try exact K;
    now apply assoc_set_only_keys.
Qed.

Lemma run_children_only_keys allowed co p es :
  Forall (fun e : string * value * Struct => In (fst (fst e)) allowed) es ->
  forall st c fs st' c',
    only_keys allowed c ->
    run_children co p es st (VObj c) = (fs, Some (st', VObj c')) ->
    only_keys allowed c'.
Proof.
  induction 1 as [|[[k x] s] es I _ IH]; intros st c fs st' c' K.
  - cbn. intros [= _ _ <-]. exact K.
  - rewrite run_children_cons.
    destruct (run s co x (p ++ [k])) as [fs1 [[st1 x1]|]]; [|discriminate].
    destruct (write_back_object co st1 c k x1) as [c1 W]. rewrite W.
    destruct (run_children co p es _ (VObj c1)) as [fs2 [[st2 cur2]|]] eqn:C;
      cbn [fst snd]; [|discriminate].
    intros [= _ _ ->].
    exact (IH _ _ _ _ _ (write_back_only_keys allowed co st1 c k x1 c1 I K W) C).
Qed.

(** What [object(schema)] returns for a valid value: an object with no
    other properties than those of the schema, holding under each key
    what the struct of the key returned. *)
Lemma object_valid_output schema v p r :
  NoDup (map fst schema) ->
  run (object schema) true v p = ([], Some (valid, r)) ->
  exists c,
    r = VObj c /\ only_keys (map fst schema) c
    /\ forall k s, In (k, s) schema ->
         run s true (lookup v k) (p ++ [k]) = ([], Some (valid, lookup r k)).
Proof.
  intros N R.
  destruct (object_valid_only_keys _ _ _ _ R) as (fs & O & K).
  destruct (object_valid_is_object _ _ _ _ _ _ R ltac:(discriminate)) as [c ->].
  exists c. split; [reflexivity|]. split.
  - rewrite (run_object true schema v p fs O) in R.
    destruct (run_children true p (known_entries (VObj fs) schema) valid _)
      as [kfs [[st cur]|]] eqn:C; [|discriminate].
    injection R as _ _ ->.
    assert (A : Forall (fun e : string * value * Struct =>
                          In (fst (fst e)) (map fst schema))
                  (known_entries (VObj fs) schema)).
    { unfold known_entries. apply Forall_map, Forall_forall.
      intros ks Iks. cbn [fst]. now apply (in_map fst). }
    exact (run_children_only_keys (map fst schema) _ _ _ A _ _ _ _ _ K C).
  - intros k s I.
    exact (object_valid_lookup schema v p (VObj c) k s fs O N I R).
Qed.

(** An object struct whose fields return normal forms returns normal
    forms. *)
Lemma object_returns_fixed schema :
  NoDup (map fst schema) ->
  Forall (fun ks => returns_fixed (snd ks)) schema ->
  returns_fixed (object schema).
Proof.
  intros N F x p y q R.
  destruct (object_valid_output schema x p y N R) as (c & -> & K & L).
  apply run_object_fixed; [exact K|].
  intros k s I. rewrite Forall_forall in F.
  exact (F (k, s) I _ _ _ _ (L k s I)).
Qed.

Lemma names_returns_fixed :
  returns_fixed (optional (unique (array string_) None)).
Proof.
  intros x p y q R. apply optional_names_valid in R as [A ->].
  now apply optional_names_run.
Qed.

Lemma boolean_returns_fixed : returns_fixed (optional boolean).
Proof.
  intros x p y q R. apply optional_boolean_valid in R as [A ->].
  now apply optional_boolean_run.
Qed.

Lemma override_returns_fixed :
  returns_fixed (union [string_; literal (VBool false)]).
Proof.
  intros x p y q R. apply override_valid in R as [A ->].
  now apply override_run.
Qed.

Lemma string_returns_fixed : returns_fixed string_.
Proof.
  intros x p y q. rewrite !run_string_.
  destruct (is_string x) eqn:S; [|discriminate]. intros [= <-]. now rewrite S.
Qed.

Lemma EnvArrayStruct_returns_fixed : returns_fixed EnvArrayStruct.
Proof. intros x p y q. apply EnvArrayStruct_fixed. Qed.

Lemma optional_env_returns_fixed : returns_fixed (optional EnvArrayStruct).
Proof.
  intros x p y q R.
  destruct (optional_env_valid x p y R) as [[-> ->]|(xs & ys & -> & -> & _)].
  - now apply run_optional_undefined.
  - rewrite run_optional_EnvArrayStruct in *.
    exact (EnvArrayStruct_fixed _ _ _ q R).
Qed.

Lemma BuildTypeStruct_returns_fixed : returns_fixed BuildTypeStruct.
Proof.
  apply object_returns_fixed; [exact distinct_build_type_keys|].
  repeat constructor; cbn [snd].
  - exact names_returns_fixed.
  - exact optional_env_returns_fixed.
  - exact boolean_returns_fixed.
  - exact override_returns_fixed.
  - exact override_returns_fixed.
Qed.

(** X11. Validation of an env sequence is idempotent: the sequence it
    returns for a valid value (bare strings kept, objects with one
    property turned into [{key, value}]) is valid at any path and is
    returned as it is. *)
Theorem validated_env_sequence_is_stable v p r q :
  run EnvArrayStruct true v p = ([], Some (valid, r)) ->
  run EnvArrayStruct true r q = ([], Some (valid, r)).
Proof. apply EnvArrayStruct_fixed. Qed.

Lemma validated_env_sequence_is_stable_witness :
  let v := VArr [VStr "A"; VObj [("B", VNum 1)]; VObj [("key", VStr "C")]] in
  let r := VArr [VStr "A"; VObj [("key", VStr "B"); ("value", VNum 1)];
                 VObj [("key", VStr "key"); ("value", VStr "C")]] in
  run EnvArrayStruct true v ["env"] = ([], Some (valid, r))
  /\ run EnvArrayStruct true r ["buildTypes"; "beta"; "env"]
     = ([], Some (valid, r)).
Proof.
  cbv zeta.
  match goal with |- ?a = ?b /\ _ =>
    assert (R : a = b) by (vm_compute; reflexivity) end.
  split; [exact R|].
  exact (validated_env_sequence_is_stable _ _ _ _ R).
Defined.

(** X12. Validation of a build type is idempotent: what
    [BuildTypeStruct] returns for a valid build type is a valid build
    type, at any path, and is returned as it is. *)
Theorem validated_build_type_is_stable bt p r q :
  run BuildTypeStruct true bt p = ([], Some (valid, r)) ->
  run BuildTypeStruct true r q = ([], Some (valid, r)).
Proof. apply BuildTypeStruct_returns_fixed. Qed.

Lemma validated_build_type_is_stable_witness :
  let bt := VObj [("env", VArr [VStr "A"; VObj [("B", VNum 1)]]);
                  ("manifestOverrides", VStr "m.json");
                  ("buildNameOverride", VBool false)] in
  let r := VObj [("env", VArr [VStr "A";
                               VObj [("key", VStr "B"); ("value", VNum 1)]]);
                 ("manifestOverrides", VStr "m.json");
                 ("buildNameOverride", VBool false)] in
  run BuildTypeStruct true bt ["buildTypes"; "beta"] = ([], Some (valid, r))
  /\ run BuildTypeStruct true r [] = ([], Some (valid, r)).
Proof.
  cbv zeta.
  match goal with |- ?a = ?b /\ _ =>
    assert (R : a = b) by (vm_compute; reflexivity) end.
  split; [exact R|].
  exact (validated_build_type_is_stable _ _ _ _ R).
Defined.

(** ** Traversals that do not throw *)



Lemma entry_like_keyed ys :
  Forall entry_like ys -> exists ks, keyed ys ks.
Proof.
  induction 1 as [|y ys H _ [ks IH]]; [exists []; constructor|].
  destruct H as [S|[k G]].
  - destruct y; try discriminate. exists (s :: ks). now constructor.
  - assert (Ns : is_string y = false).
    { destruct y; try reflexivity; discriminate. }
    exists (k :: ks). constructor; [|exact IH].
    unfold key_of. now rewrite Ns.
Qed.



(** ** What validation does not check *)

Lemma canonical_key k v : canonical_entry (VObj [("key", VStr k); ("value", v)]) = true.
Proof. reflexivity. Qed.

Lemma canonical_env_one k v :
  canonical_env (VArr [VObj [("key", VStr k); ("value", v)]]).
Proof.
  exists [VObj [("key", VStr k); ("value", v)]], [k].
  split; [reflexivity|]. split; [repeat constructor|].
  split; [repeat constructor|]. repeat constructor. intros [].
Qed.

(** X14. The names a build type lists under [features] are not looked up
    in the features map: a build type may ask for features that are
    declared nowhere. A document with no feature at all, whose only
    build type asks for any pairwise distinct names, is valid and is
    returned as it is. *)
Theorem undeclared_features_are_accepted default names :
  NoDup names ->
  validate (asks_for default names) BuildTypesStruct true
  = Valid (asks_for default names).
Proof.
  intros N. apply validate_Valid.
  apply canonical_document_run; [|intros fts [= <-]; constructor].
  eexists _, default, _, []. split; [reflexivity|].
  split; [repeat constructor; cbn; tauto|].
  split; [reflexivity|]. split; [reflexivity|].
  split; [repeat constructor; intros []|].
  split.
  { repeat constructor. cbn [snd]. eexists. split; [reflexivity|].
    split; [repeat constructor; cbn; tauto|].
    split; [right; now exists names|].
    split; [now left|]. split; [now left|]. split; now right. }
  split; [now left|]. split; [reflexivity|]. split; [constructor|].
  split; [constructor|].
  split; [exists []; split; constructor|].
  exists [], []. repeat split; constructor.
Qed.

Lemma undeclared_features_are_accepted_witness :
  NoDup ["flask"; "desktop"]
  /\ lookup (asks_for "beta" ["flask"; "desktop"]) "features" = VObj []
  /\ validate (asks_for "beta" ["flask"; "desktop"]) BuildTypesStruct true
     = Valid (asks_for "beta" ["flask"; "desktop"]).
Proof.
  assert (N : NoDup ["flask"; "desktop"]).
  { repeat constructor; cbn; intuition discriminate. }
  split; [exact N|]. split; [reflexivity|].
  exact (undeclared_features_are_accepted "beta" ["flask"; "desktop"] N).
Defined.

(** X15. The conflict check looks at the env of the features only: a key
    that a feature declares may also be declared by the global env and
    by the env of a build type. Such a document is valid and is returned
    as it is. *)
Theorem other_env_sequences_do_not_conflict default feature k v1 v2 v3 :
  validate (declared_everywhere default feature k v1 v2 v3) BuildTypesStruct true
  = Valid (declared_everywhere default feature k v1 v2 v3).
Proof.
  apply validate_Valid.
  apply canonical_document_run; [|intros fts [= <-]; repeat constructor].
  eexists _, default, _, _. split; [reflexivity|].
  split; [repeat constructor; cbn; tauto|].
  split; [reflexivity|]. split; [reflexivity|].
  split; [repeat constructor; intros []|].
  split.
  { repeat constructor. cbn [snd]. eexists. split; [reflexivity|].
    split; [repeat constructor; cbn; tauto|].
    split; [now left|].
    split; [right; apply canonical_env_one|].
    split; [now left|]. split; now right. }
  split; [now left|]. split; [reflexivity|].
  split; [repeat constructor; intros []|].
  split.
  { repeat constructor. cbn [snd]. eexists. split; [reflexivity|].
    split; [repeat constructor; cbn; tauto|].
    split; [right; apply canonical_env_one | now left]. }
  split.
  { exists [k]. split; [repeat constructor|]. repeat constructor. intros []. }
  apply canonical_env_one.
Qed.

(** ** The exclusive-include rule *)

Lemma is_string_struct v : is_ v string_ = Some (is_string v).
Proof.
  unfold is_, validate. rewrite run_string_. now destruct (is_string v).
Qed.

Lemma distinct_exclusive_keys :
  NoDup (map fst [("exclusiveInclude", string_)]).
Proof. repeat constructor. intros []. Qed.

(** X16. [ExclusiveIncludeAssetStruct] turns a string into the rule that
    holds it. Whatever it accepts, it returns an object with the one
    property [exclusiveInclude], a string: the value given when it was a
    string, and the string the value held under that name otherwise. It
    accepts nothing else: no number, no [null], no object with another
    property. *)
Theorem exclusive_include_normal_form :
  (forall path p,
     run ExclusiveIncludeAssetStruct true (VStr path) p
     = ([], Some (valid, exclusive_include path)))
  /\ (forall x p y,
        run ExclusiveIncludeAssetStruct true x p = ([], Some (valid, y)) ->
        exists c path,
          y = VObj c /\ only_keys ["exclusiveInclude"] c
          /\ lookup y "exclusiveInclude" = VStr path
          /\ (x = VStr path
              \/ (exists fs, own_entries x = Some fs
                             /\ only_keys ["exclusiveInclude"] fs
                             /\ lookup x "exclusiveInclude" = VStr path))).
Proof.
  split.
  - intros path p. unfold ExclusiveIncludeAssetStruct.
    rewrite run_coerce, is_string_struct. cbn [is_string].
    apply run_object_fixed; [repeat constructor; cbn; tauto|].
    intros k s [[= <- <-]|[]]. apply run_string_str.
  - intros x p y. unfold ExclusiveIncludeAssetStruct.
    rewrite run_coerce, is_string_struct.
    destruct (is_string x) eqn:S.
    + destruct x; try discriminate.
      rewrite (run_object_fixed [("exclusiveInclude", string_)]
                 [("exclusiveInclude", VStr s)] p).
      * intros [= <-]. exists [("exclusiveInclude", VStr s)], s.
        split; [reflexivity|]. split; [repeat constructor; cbn; tauto|].
        split; [reflexivity | now left].
      * repeat constructor; cbn; tauto.
      * intros k s0 [[= <- <-]|[]]. apply run_string_str.
    + intros R.
      destruct (object_valid_only_keys _ _ _ _ R) as (fs & O & K).
      destruct (object_valid_output _ _ _ _ distinct_exclusive_keys R)
        as (c & -> & Kc & L).
      pose proof (L "exclusiveInclude" string_ ltac:(now left)) as E.
      rewrite run_string_ in E.
      destruct (lookup x "exclusiveInclude") as [| | | |path| |] eqn:Lx;
        try discriminate.
      injection E as E. exists c, path. split; [reflexivity|].
      split; [exact Kc|]. split; [now symmetry|].
      right. exists fs. now repeat split.
Qed.

Lemma exclusive_include_normal_form_witness :
  run ExclusiveIncludeAssetStruct true (VObj [("exclusiveInclude", VStr "src/**")])
    ["features"; "a"; "assets"]
  = ([], Some (valid, exclusive_include "src/**"))
  /\ exists c path,
       exclusive_include "src/**" = VObj c
       /\ lookup (VObj c) "exclusiveInclude" = VStr path.
Proof.
  assert (R : run ExclusiveIncludeAssetStruct true
                (VObj [("exclusiveInclude", VStr "src/**")])
                ["features"; "a"; "assets"]
              = ([], Some (valid, exclusive_include "src/**")))
    by (vm_compute; reflexivity).
  split; [exact R|].
  destruct (proj2 exclusive_include_normal_form _ _ _ R)
    as (c & path & E & _ & L & _).
  exists c, path. split; [exact E | now rewrite <- E].
Defined.

(** ** When the traversal of a document does not throw *)




























(** ** A validated document validates to itself *)

Lemma assets_field_returns_fixed : returns_fixed (optional_of AssetStruct).
Proof.
  intros x p y q R. rewrite run_assets_field in R.
  destruct x; try discriminate. injection R as <-.
  now rewrite run_assets_field.
Qed.

Lemma FeatureStruct_returns_fixed : returns_fixed FeatureStruct.
Proof.
  apply object_returns_fixed; [exact distinct_feature_keys|].
  repeat constructor; cbn [snd].
  - exact optional_env_returns_fixed.
  - exact assets_field_returns_fixed.
Qed.

Lemma feature_value_returns_fixed :
  returns_fixed (coerce FeatureStruct (nullable never) (fun _ => Some (VObj []))).
Proof.
  intros x p y q R.
  assert (R' : exists x', run FeatureStruct true x' p = ([], Some (valid, y))).
  { rewrite run_coerce, is_null in R. destruct x; eexists; exact R. }
  destruct R' as [x' R'].
  destruct (object_valid_is_object _ _ _ _ _ _ R' ltac:(discriminate)) as [c ->].
  rewrite run_feature by discriminate.
  exact (FeatureStruct_returns_fixed _ _ _ q R').
Qed.

(** A record of values whose struct returns normal forms returns a
    normal form, for an object with distinct property names. *)
Lemma record_fixed V fs p r q :
  NoDup (map fst fs) -> returns_fixed V ->
  run (record string_ V) true (VObj fs) p = ([], Some (valid, r)) ->
  run (record string_ V) true r q = ([], Some (valid, r)).
Proof.
  intros N F R.
  apply (run_record_valid true V p fs valid r N) in R as [_ (ys & Vs & ->)].
  assert (L : length ys = length (map fst fs))
    by (rewrite length_map; symmetry; exact (Forall2_length Vs)).
  apply run_record_fixed.
  - now rewrite map_fst_combine.
  - intros k y I. clear N L. induction Vs as [|[k' x] y' fs ys Rx _ IH];
      [destruct I|].
    cbn [map fst combine] in I. destruct I as [[= <- <-]|I]; [|now apply IH].
    exact (F _ _ _ _ Rx).
Qed.

(** The features of a validated document validate to themselves. *)
Lemma FeaturesStruct_fixed fts p r q :
  NoDup (map fst fts) ->
  run FeaturesStruct true (VObj fts) p = ([], Some (valid, r)) ->
  run FeaturesStruct true r q = ([], Some (valid, r)).
Proof.
  intros N R. unfold FeaturesStruct in *.
  apply refine_valid_returns in R as [R U]; [|reflexivity].
  rewrite run_refine by reflexivity.
  rewrite (record_fixed _ fts p r q N feature_value_returns_fixed R).
  change (feature_definitions r q) with (feature_definitions r p).
  now rewrite U.
Qed.

Lemma validated_document_run raw doc bts fts :
  validate raw BuildTypesStruct true = Valid doc ->
  lookup raw "buildTypes" = VObj bts -> NoDup (map fst bts) ->
  lookup raw "features" = VObj fts -> NoDup (map fst fts) ->
  run BuildTypesStruct true doc [] = ([], Some (valid, doc)).
Proof.
  intros V B Nb F Nf. apply validate_Valid in V. unfold BuildTypesStruct in *.
  apply refine_valid_returns in V as [V U]; [|reflexivity].
  destruct (object_valid_output _ _ _ _ distinct_document_keys V)
    as (c & -> & K & L).
  rewrite run_refine by reflexivity.
  rewrite (run_object_fixed _ c [] K); [now rewrite U|].
  intros k s [[= <- <-]|[[= <- <-]|[[= <- <-]|[[= <- <-]|[]]]]].
  - exact (string_returns_fixed _ _ _ _ (L "default" _ ltac:(cbn; tauto))).
  - pose proof (L "buildTypes" _ ltac:(cbn; tauto)) as R. rewrite B in R.
    exact (record_fixed _ bts _ _ _ Nb BuildTypeStruct_returns_fixed R).
  - pose proof (L "features" _ ltac:(cbn; tauto)) as R. rewrite F in R.
    exact (FeaturesStruct_fixed fts _ _ _ Nf R).
  - exact (EnvArrayStruct_fixed _ _ _ _ (L "env" _ ltac:(cbn; tauto))).
Qed.

(** X18. Validation is idempotent. Take a valid document whose build
    types and features are objects: the document validation returns for
    it is valid, and validation returns it as it is. *)
Theorem validated_document_is_stable raw doc bts fts :
  validate raw BuildTypesStruct true = Valid doc ->
  lookup raw "buildTypes" = VObj bts -> NoDup (map fst bts) ->
  lookup raw "features" = VObj fts -> NoDup (map fst fts) ->
  validate doc BuildTypesStruct true = Valid doc.
Proof.
  intros V B Nb F Nf. apply validate_Valid.
  exact (validated_document_run raw doc bts fts V B Nb F Nf).
Qed.

Lemma validated_document_is_stable_witness :
  let raw :=
    VObj [("default", VStr "beta");
          ("buildTypes",
           VObj [("beta",
                  VObj [("env", VArr [VStr "A"; VObj [("B", VNum 1)]]);
                        ("manifestOverrides", VStr "m.json");
                        ("buildNameOverride", VBool false)])]);
          ("features",
           VObj [("a", VNull);
                 ("b", VObj [("env", VArr [VObj [("D", VStr "d")]])])]);
          ("env", VArr [VObj [("C", VNull)]])] in
  let doc :=
    VObj [("default", VStr "beta");
          ("buildTypes",
           VObj [("beta",
                  VObj [("env", VArr [VStr "A";
                                      VObj [("key", VStr "B"); ("value", VNum 1)]]);
                        ("manifestOverrides", VStr "m.json");
                        ("buildNameOverride", VBool false)])]);
          ("features",
           VObj [("a", VObj []);
                 ("b", VObj [("env", VArr [VObj [("key", VStr "D");
                                                 ("value", VStr "d")]])])]);
          ("env", VArr [VObj [("key", VStr "C"); ("value", VNull)]])] in
  validate raw BuildTypesStruct true = Valid doc
  /\ validate doc BuildTypesStruct true = Valid doc.
Proof.
  cbv zeta.
  match goal with |- ?a = ?b /\ _ =>
    assert (V : a = b) by (vm_compute; reflexivity) end.
  split; [exact V|].
  apply (validated_document_is_stable _ _ _ _ V eq_refl
           ltac:(repeat constructor; cbn; tauto) eq_refl).
  repeat constructor; cbn; intuition discriminate.
Defined.

(** ** The entries of a validated env sequence *)

Lemma EnvEntry_valid_normal x p y :
  run EnvEntry true x p = ([], Some (valid, y)) ->
  is_string y = true \/ accepted_entry y = true.
Proof.
  intros R. destruct (run_EnvEntry_cases x p) as [(y' & R' & H)|(f & rest & R' & _)];
    [|rewrite R' in R; discriminate].
  rewrite R' in R. injection R as <-.
  destruct H as [[S ->]|(fs & _ & -> & A)]; [now left | now right].
Qed.

(** X19. The env sequences of a validated document: each is an array as
    long as the one given, its entries are bare strings or objects that
    have a string under [key] and no other property than [key] and
    [value], and no two of them have the same key, a bare string being
    its own key. *)
Theorem validated_env_entries_are_normal raw doc p xs :
  validate raw BuildTypesStruct true = Valid doc ->
  env_sequence raw p xs ->
  exists ys ks,
    at_path doc p = VArr ys
    /\ length ys = length xs
    /\ Forall (fun y => is_string y = true \/ accepted_entry y = true) ys
    /\ keyed ys ks /\ NoDup ks.
Proof.
  intros V S. pose proof (env_sequence_valid raw doc p xs V S) as R.
  unfold EnvArrayStruct, unique in R.
  apply refine_valid_returns in R as [R U]; [|reflexivity].
  apply run_array_valid in R as [_ (ys & E & Er)]. rewrite Er in *.
  destruct (entry_like_keyed ys (elements_valid_like _ _ _ _ E)) as [ks K].
  exists ys, ks. split; [reflexivity|].
  split; [exact (elements_valid_length _ _ _ _ _ _ E)|]. split.
  - clear U K Er S V. induction E as [|n x y xs' ys' Rx _ IH]; constructor.
    + exact (EnvEntry_valid_normal _ _ _ Rx).
    + exact IH.
  - split; [exact K|].
    destruct (uniqWith_keyed ys ks K) as (u & Uq & L). rewrite Uq in U.
    apply L. destruct (Nat.eqb_spec (length u) (length ys)) as [H|H];
      [exact H | discriminate].
Qed.

Lemma validated_env_entries_are_normal_witness :
  let raw := a_document "stable" [VStr "A"; VObj [("B", VNum 1)]] in
  let doc := a_document "stable"
               [VStr "A"; VObj [("key", VStr "B"); ("value", VNum 1)]] in
  validate raw BuildTypesStruct true = Valid doc
  /\ env_sequence raw ["env"] [VStr "A"; VObj [("B", VNum 1)]]
  /\ exists ys ks, at_path doc ["env"] = VArr ys /\ keyed ys ks /\ NoDup ks.
Proof.
  cbv zeta.
  match goal with |- ?a = ?b /\ _ =>
    assert (V : a = b) by (vm_compute; reflexivity) end.
  assert (S : env_sequence (a_document "stable" [VStr "A"; VObj [("B", VNum 1)]])
                ["env"] [VStr "A"; VObj [("B", VNum 1)]])
    by (constructor; reflexivity).
  split; [exact V|]. split; [exact S|].
  destruct (validated_env_entries_are_normal _ _ _ _ V S)
    as (ys & ks & A & _ & _ & K & N).
  now exists ys, ks.
Defined.
(** ** The running set of the feature check (C10) *)






